(** * A model of [vector.h]: [RawMemory<T>] and [Vector<T>]

    The two class templates are embedded over an explicit free store.
    A [T*] is either [nullptr] or a block identifier with an element
    offset; every slot of a block is either raw memory ([None]) or holds a
    live object ([Some x]).  Member functions are computations in a state
    and exception monad with three outcomes: normal return, a C++
    exception in flight, or a crash: the program has left its contract
    (undefined behaviour such as an access to a slot that holds no object,
    a failed [assert], or [std::terminate]).  *)

From stdpp Require Import gmap list numbers.

Local Open Scope N_scope.

(** ** [size_t] *)

(** [size_t] is a 64-bit unsigned integer; its arithmetic wraps. *)
Definition SIZE_MOD : N := 2 ^ 64.
Definition PTRDIFF_MAX : N := 2 ^ 63 - 1.
Definition wrap (n : N) : N := n mod SIZE_MOD.
Definition size_add (a b : N) : N := wrap (a + b).
Definition size_mul (a b : N) : N := wrap (a * b).
Definition size_sub (a b : N) : N := wrap (a + SIZE_MOD - wrap b).

(** ** The element type [T] *)

(** What the templates use of [T]: its size, its copy constructor, its move
    constructor, its move assignment and three type traits.  An operation
    answers [None] when it throws.  A move yields the new value of the
    target and the state left in the source. *)
Class Element (T : Type) := {
  sizeof : N;
  copy_ctor : T → option T;
  move_ctor : T → option (T * T);
  move_assign : T → T → option (T * T);
  is_nothrow_move_constructible : bool;
  is_copy_constructible : bool;
  is_nothrow_move_assignable : bool
}.

(** What the language guarantees of every element type: [sizeof(T)] is a
    positive [size_t], and an operation that the traits report as
    [noexcept] does not throw. *)
Class ElementLaws (T : Type) `{Element T} := {
  sizeof_pos : 0 < sizeof;
  sizeof_max : sizeof < SIZE_MOD;
  nothrow_move_ctor :
    is_nothrow_move_constructible = true → ∀ x, is_Some (move_ctor x);
  nothrow_move_assign :
    is_nothrow_move_assignable = true → ∀ d x, is_Some (move_assign d x)
}.

(** An element type with value semantics: a copy or a move that completes
    gives its target the value of its source. *)
Class ValueSemantics (T : Type) `{Element T} := {
  copy_ctor_value : ∀ x y, copy_ctor x = Some y → y = x;
  move_ctor_value : ∀ x y r, move_ctor x = Some (y, r) → y = x;
  move_assign_value : ∀ d x y r, move_assign d x = Some (y, r) → y = x
}.

(** What the constructors, the copy assignment and [Resize] use of [T]
    besides: value initialisation [T()] and the copy assignment [d = s],
    which yields the new value of [d].  An operation answers [None] when
    it throws. *)
Class Regular (T : Type) := {
  default_ctor : option T;
  copy_assign : T → T → option T
}.

(** A copy assignment that completes gives its target the value of its
    source. *)
Class RegularValues (T : Type) `{Regular T} := {
  copy_assign_value : ∀ d x y, copy_assign d x = Some y → y = x
}.

(** ** Pointers *)

Inductive ptr := nullptr | Addr (b : nat) (i : N).

#[global] Instance ptr_eq_dec : EqDecision ptr.
Proof. solve_decision. Defined.

(** [p + n] on a [T*]. *)
Definition ptr_add (p : ptr) (n : N) : ptr :=
  match p with
  | nullptr => nullptr
  | Addr b i => Addr b (i + n)
  end.

(** [p - q] converted to [size_t]; only defined inside one array. *)
Definition ptr_diff (p q : ptr) : option N :=
  match p, q with
  | nullptr, nullptr => Some 0
  | Addr b i, Addr c j =>
      if decide (b = c) then Some (wrap (i + SIZE_MOD - j)) else None
  | _, _ => None
  end.

(** [p <= q] and [p < q]; only defined inside one array. *)
Definition ptr_le (p q : ptr) : option bool :=
  match p, q with
  | nullptr, nullptr => Some true
  | Addr b i, Addr c j => if decide (b = c) then Some (i <=? j) else None
  | _, _ => None
  end.

Definition ptr_lt (p q : ptr) : option bool :=
  match p, q with
  | nullptr, nullptr => Some false
  | Addr b i, Addr c j => if decide (b = c) then Some (i <? j) else None
  | _, _ => None
  end.

(** ** Outcomes and the monad *)

Inductive exn := bad_alloc | element_exception.

Inductive outcome (S A : Type) :=
  | Ok (a : A) (s : S)
  | Throw (e : exn) (s : S)
  | Crash.
Arguments Ok {S A} a s.
Arguments Throw {S A} e s.
Arguments Crash {S A}.

Definition M (S A : Type) : Type := S → outcome S A.

Definition ret {S A} (a : A) : M S A := λ s, Ok a s.

Definition bind {S A B} (m : M S A) (k : A → M S B) : M S B :=
  λ s, match m s with
       | Ok a s' => k a s'
       | Throw e s' => Throw e s'
       | Crash => Crash
       end.

Definition throw {S A} (e : exn) : M S A := λ s, Throw e s.
Definition crash {S A} : M S A := λ _, Crash.

(** [try { m } catch (...) { handler }]. *)
Definition try_catch {S A} (m : M S A) (handler : exn → M S A) : M S A :=
  λ s, match m s with
       | Throw e s' => handler e s'
       | r => r
       end.

(** [assert(c)]. *)
Definition assert {S} (c : bool) : M S unit :=
  if c then ret tt else crash.

Definition get {S} : M S S := λ s, Ok s s.
Definition put {S} (s : S) : M S unit := λ _, Ok tt s.

#[global] Instance M_ret {S} : MRet (M S) := λ A a, ret a.
#[global] Instance M_bind {S} : MBind (M S) := λ A B k m, bind m k.

(** An optional value that must be present. *)
Definition defined {S A} (o : option A) : M S A :=
  match o with Some a => ret a | None => crash end.

(** The result of an operation of [T], which throws when it is [None]. *)
Definition or_throw {S A} (o : option A) : M S A :=
  match o with Some a => ret a | None => throw element_exception end.

(** A function declared [noexcept], on any state: an exception that would
    leave it calls [std::terminate]. *)
Definition nothrow {S A} (m : M S A) : M S A :=
  λ s, match m s with
       | Throw _ _ => Crash
       | r => r
       end.

(** The argument of an assignment operator: the object assigned to
    ([this == &rhs]) or another object. *)
Inductive operand (A : Type) := itself | another (x : A).
Arguments itself {A}.
Arguments another {A} x.

(** ** The free store *)

(** Calls of the global allocation functions, in program order.  A release
    records how many objects were still alive in the released region:
    their destructors never ran. *)
Inductive event :=
  | EvNew (bytes : N) (p : ptr)
  | EvDelete (p : ptr) (live : nat).

Record heap (T : Type) := Heap {
  blocks : gmap nat (list (option T));
  limit : N;
  trace : list event
}.
Arguments Heap {T} blocks limit trace.
Arguments blocks {T} h.
Arguments limit {T} h.
Arguments trace {T} h.

Section free_store.
Context {T : Type} `{Element T}.

Definition live_count (l : list (option T)) : nat := length (omap id l).

(** [operator new(bytes)]: a request above what the store can serve (and
    no object is larger than [PTRDIFF_MAX] bytes) throws
    [std::bad_alloc]; a served request yields a fresh region that holds
    room for [bytes / sizeof(T)] objects and no object yet. *)
Definition operator_new (bytes : N) : M (heap T) ptr := λ h,
  if N.min (limit h) PTRDIFF_MAX <? bytes then Throw bad_alloc h
  else
    let b := fresh (dom (blocks h)) in
    Ok (Addr b 0)
       (Heap (<[b := replicate (N.to_nat (bytes / sizeof)) None]> (blocks h))
             (limit h)
             (trace h ++ [EvNew bytes (Addr b 0)])).

(** [operator delete(p)]: nothing is released for a null pointer;
    otherwise [p] must be the start of a region that is still allocated. *)
Definition operator_delete (p : ptr) : M (heap T) unit := λ h,
  match p with
  | nullptr => Ok tt (Heap (blocks h) (limit h) (trace h ++ [EvDelete nullptr 0]))
  | Addr b i =>
      match blocks h !! b with
      | Some l =>
          if i =? 0
          then Ok tt (Heap (delete b (blocks h)) (limit h)
                           (trace h ++ [EvDelete p (live_count l)]))
          else Crash
      | None => Crash
      end
  end.

(** The slot a pointer designates, if it designates one. *)
Definition slot (h : heap T) (p : ptr) : option (option T) :=
  match p with
  | nullptr => None
  | Addr b i => l ← blocks h !! b; l !! N.to_nat i
  end.

Definition set_slot (p : ptr) (o : option T) (h : heap T) : heap T :=
  match p with
  | nullptr => h
  | Addr b i =>
      match blocks h !! b with
      | Some l => Heap (<[b := <[N.to_nat i := o]> l]> (blocks h)) (limit h) (trace h)
      | None => h
      end
  end.

(** Reading [*p]: there must be a live object. *)
Definition read (p : ptr) : M (heap T) T := λ h,
  match slot h p with
  | Some (Some x) => Ok x h
  | _ => Crash
  end.

(** Giving the live object [*p] a new value. *)
Definition assign (p : ptr) (x : T) : M (heap T) unit := λ h,
  match slot h p with
  | Some (Some _) => Ok tt (set_slot p (Some x) h)
  | _ => Crash
  end.

(** Starting the lifetime of an object with value [x] in the raw slot [p]. *)
Definition construct_at (p : ptr) (x : T) : M (heap T) unit := λ h,
  match slot h p with
  | Some None => Ok tt (set_slot p (Some x) h)
  | _ => Crash
  end.

(** [std::destroy_at(p)]: ends the lifetime of the live object [*p]. *)
Definition destroy_at (p : ptr) : M (heap T) unit := λ h,
  match slot h p with
  | Some (Some _) => Ok tt (set_slot p None h)
  | _ => Crash
  end.

(** [--p] on a [T*]. *)
Definition ptr_pred (p : ptr) : M (heap T) ptr :=
  match p with
  | Addr b i => if i =? 0 then crash else mret (Addr b (i - 1))
  | nullptr => crash
  end.

(** [new (d) T(std::move(s[0]))]. *)
Definition move_construct_at (d s : ptr) : M (heap T) unit :=
  x ← read s;
  '(y, r) ← or_throw (move_ctor x);
  construct_at d y;;
  assign s r.

(** [new (d) T(s[0])]. *)
Definition copy_construct_at (d s : ptr) : M (heap T) unit :=
  x ← read s;
  y ← or_throw (copy_ctor x);
  construct_at d y.

(** [d[0] = std::move(s[0])]. *)
Definition move_assign_at (d s : ptr) : M (heap T) unit :=
  xd ← read d;
  xs ← read s;
  '(y, r) ← or_throw (move_assign xd xs);
  assign d y;;
  assign s r.

(** *** The algorithms of [<memory>] and [<algorithm>] the source calls *)

(** [std::destroy_n(first, n)]. *)
Fixpoint destroy_loop (first : ptr) (n : nat) : M (heap T) unit :=
  match n with
  | O => mret tt
  | S n' => destroy_at first;; destroy_loop (ptr_add first 1) n'
  end.
Definition destroy_n (first : ptr) (n : N) : M (heap T) unit :=
  destroy_loop first (N.to_nat n).

(** [std::uninitialized_copy_n(first, n, d_first)]: when a copy throws, the
    objects already constructed in the destination are destroyed and the
    exception is rethrown. *)
Fixpoint uninitialized_copy_loop (first : ptr) (n : nat) (d_first : ptr)
    : M (heap T) unit :=
  match n with
  | O => mret tt
  | S n' =>
      copy_construct_at d_first first;;
      try_catch
        (uninitialized_copy_loop (ptr_add first 1) n' (ptr_add d_first 1))
        (λ e, destroy_at d_first;; throw e)
  end.
Definition uninitialized_copy_n (first : ptr) (n : N) (d_first : ptr)
    : M (heap T) unit :=
  uninitialized_copy_loop first (N.to_nat n) d_first.

(** [std::uninitialized_move_n(first, n, d_first)]: the same with the move
    constructor; the sources already moved from stay moved from. *)
Fixpoint uninitialized_move_loop (first : ptr) (n : nat) (d_first : ptr)
    : M (heap T) unit :=
  match n with
  | O => mret tt
  | S n' =>
      move_construct_at d_first first;;
      try_catch
        (uninitialized_move_loop (ptr_add first 1) n' (ptr_add d_first 1))
        (λ e, destroy_at d_first;; throw e)
  end.
Definition uninitialized_move_n (first : ptr) (n : N) (d_first : ptr)
    : M (heap T) unit :=
  uninitialized_move_loop first (N.to_nat n) d_first.

(** [std::move(first, last, d_first)]: move-assigns front to back. *)
Fixpoint move_loop (first : ptr) (n : nat) (d_first : ptr) : M (heap T) unit :=
  match n with
  | O => mret tt
  | S n' =>
      move_assign_at d_first first;;
      move_loop (ptr_add first 1) n' (ptr_add d_first 1)
  end.
Definition std_move (first last d_first : ptr) : M (heap T) unit :=
  ok ← defined (ptr_le first last);
  assert ok;;
  n ← defined (ptr_diff last first);
  move_loop first (N.to_nat n) d_first.

(** [std::move_backward(first, last, d_last)]: move-assigns back to front. *)
Fixpoint move_backward_loop (n : nat) (last d_last : ptr) : M (heap T) unit :=
  match n with
  | O => mret tt
  | S n' =>
      last' ← ptr_pred last;
      d_last' ← ptr_pred d_last;
      move_assign_at d_last' last';;
      move_backward_loop n' last' d_last'
  end.
Definition std_move_backward (first last d_last : ptr) : M (heap T) unit :=
  ok ← defined (ptr_le first last);
  assert ok;;
  n ← defined (ptr_diff last first);
  move_backward_loop (N.to_nat n) last d_last.

(** The store with the contents of region [b] replaced. *)
Definition update_block (b : nat) (l : list (option T)) (h : heap T) : heap T :=
  Heap (<[b := l]> (blocks h)) (limit h) (trace h).

(** The successive move assignments of [std::move] over a range that is
    shifted one slot towards the front: [d] is the object in the first
    target slot; the answer is the new values of the targets and the
    object left in the last source. *)
Fixpoint shift_left (d : T) (xs : list T) : option (list T * T) :=
  match xs with
  | [] => Some ([], d)
  | x :: xs' =>
      '(y, r) ← move_assign d x;
      '(ys, z) ← shift_left r xs';
      Some (y :: ys, z)
  end.

(** The successive move assignments of [std::move_backward] over a range
    that is shifted one slot towards the back: the sources are given
    last first, [d] is the object in the first target slot (the one after
    the range); the answer is the object left in the first source and the
    new values of the targets, in storage order. *)
Fixpoint shift_right (rxs : list T) (d : T) : option (T * list T) :=
  match rxs with
  | [] => Some (d, [])
  | x :: rxs' =>
      '(y, r) ← move_assign d x;
      '(z, ys) ← shift_right rxs' r;
      Some (z, ys ++ [y])
  end.

(** *** Constructor arguments *)

(** A reference to a [T]: to an object outside the free store, given by
    its value, or to an object that lives in a region of the store (which
    may be the vector's own storage). *)
Inductive ref := outside (x : T) | inside (p : ptr).

(** The argument packs [Args&&...] of [EmplaceBack] and [Emplace]:
    [const T&], [T&&], or arguments of another constructor of [T], given
    by what that constructor produces. *)
Inductive args :=
  | copy_of (r : ref)
  | move_of (r : ref)
  | other_args (res : option T).

(** Evaluating [T(std::forward<Args>(args)...)]. *)
Definition construct (a : args) : M (heap T) T :=
  match a with
  | copy_of (outside x) => or_throw (copy_ctor x)
  | copy_of (inside p) => x ← read p; or_throw (copy_ctor x)
  | move_of (outside x) => '(y, _) ← or_throw (move_ctor x); mret y
  | move_of (inside p) =>
      x ← read p;
      '(y, r) ← or_throw (move_ctor x);
      assign p r;;
      mret y
  | other_args res => or_throw res
  end.

(** [new (p) T(std::forward<Args>(args)...)]. *)
Definition placement_new (p : ptr) (a : args) : M (heap T) unit :=
  y ← construct a;
  construct_at p y.

(** *** What the constructors, the copy assignment and [Resize] call *)

Context `{Regular T}.

(** [d[0] = s[0]]. *)
Definition copy_assign_at (d s : ptr) : M (heap T) unit :=
  xd ← read d;
  xs ← read s;
  y ← or_throw (copy_assign xd xs);
  assign d y.

(** [std::uninitialized_value_construct_n(first, n)]: when a constructor
    throws, the objects already constructed are destroyed and the
    exception is rethrown. *)
Fixpoint uninitialized_value_construct_loop (first : ptr) (n : nat)
    : M (heap T) unit :=
  match n with
  | O => mret tt
  | S n' =>
      (y ← or_throw default_ctor; construct_at first y);;
      try_catch
        (uninitialized_value_construct_loop (ptr_add first 1) n')
        (λ e, destroy_at first;; throw e)
  end.
Definition uninitialized_value_construct_n (first : ptr) (n : N)
    : M (heap T) unit :=
  uninitialized_value_construct_loop first (N.to_nat n).

(** [std::destroy(first, last)]. *)
Definition std_destroy (first last : ptr) : M (heap T) unit :=
  ok ← defined (ptr_le first last);
  assert ok;;
  n ← defined (ptr_diff last first);
  destroy_loop first (N.to_nat n).

End free_store.

(** ** [RawMemory<T>] *)

Module RawMemory.

Record t := Make { buffer_ : ptr; capacity_ : N }.

(** [RawMemory() = default]. *)
Definition default : t := Make nullptr 0.

Section methods.
Context {T : Type} `{Element T}.

(** [Allocate(n)]: raw memory for [n] elements; the byte count is
    computed in [size_t]. *)
Definition Allocate (n : N) : M (heap T) ptr :=
  if n =? 0 then mret nullptr else operator_new (size_mul n sizeof).

(** [Deallocate(buf)]. *)
Definition Deallocate (buf : ptr) : M (heap T) unit :=
  operator_delete buf.

(** [explicit RawMemory(size_t capacity)]. *)
Definition ctor (capacity : N) : M (heap T) t :=
  buf ← Allocate capacity;
  mret (Make buf capacity).

(** [~RawMemory()]. *)
Definition dtor (r : t) : M (heap T) unit :=
  Deallocate (buffer_ r).

End methods.

(** [operator+(offset)]. *)
Definition plus {S} (r : t) (offset : N) : M S ptr :=
  assert (offset <=? capacity_ r);;
  mret (ptr_add (buffer_ r) offset).

(** [operator[](index)]; the reference is given by its address. *)
Definition index {S} (r : t) (index : N) : M S ptr :=
  assert (index <? capacity_ r);;
  mret (ptr_add (buffer_ r) index).

(** [Swap(other)]: the new values of [*this] and of [other]. *)
Definition Swap (r other : t) : t * t := (other, r).

Definition GetAddress (r : t) : ptr := buffer_ r.
Definition Capacity (r : t) : N := capacity_ r.

(** [RawMemory(RawMemory&& other) noexcept]: the new object and the new
    value of [other]. *)
Definition ctor_move (other : t) : t * t :=
  (Make (buffer_ other) (capacity_ other), Make nullptr 0).

(** [operator=(RawMemory&& rhs) noexcept]: the new values of [*this] and
    of [rhs] (one object when [rhs] is [*this]). *)
Definition assign_move {T} (r : t) (rhs : operand t) : M (heap T) (t * t) :=
  nothrow (
    match rhs with
    | itself => mret (r, r)
    | another o =>
        let '(r', o') := Swap r o in
        Deallocate (buffer_ o');;
        mret (r', Make nullptr 0)
    end).

End RawMemory.

(** ** [Vector<T>] *)

Module Vector.

Record t := Make { data_ : RawMemory.t; size_ : N }.

(** [Vector() = default]. *)
Definition default : t := Make RawMemory.default 0.

(** A member function runs on the object [*this] and the free store. *)
Record state (T : Type) := State { this : t; mem : heap T }.
Arguments State {T} this mem.
Arguments this {T} s.
Arguments mem {T} s.

Section methods.
Context {T : Type} `{Element T}.

Definition get_this : M (state T) t := λ s, Ok (this s) s.
Definition set_this (v : t) : M (state T) unit := λ s, Ok tt (State v (mem s)).

(** A computation on the free store, run from a member function. *)
Definition on_heap {A} (m : M (heap T) A) : M (state T) A := λ s,
  match m (mem s) with
  | Ok a h => Ok a (State (this s) h)
  | Throw e h => Throw e (State (this s) h)
  | Crash => Crash
  end.

(** A function declared [noexcept(c)]: when [c] holds, an exception
    that would leave it calls [std::terminate]. *)
Definition noexcept {A} (c : bool) (m : M (state T) A) : M (state T) A := λ s,
  match m s with
  | Throw e s' => if c then Crash else Throw e s'
  | r => r
  end.

(** The scope of a local [RawMemory<T>] object: [body] answers its
    result and the final value of the local, whose destructor then
    runs.  When [body] throws, the destructor runs during unwinding; in
    the source every exception is raised before the local is swapped,
    so the local then still has its initial value. *)
Definition scoped {A} (local : RawMemory.t) (body : M (state T) (A * RawMemory.t))
    : M (state T) A := λ s,
  match body s with
  | Ok (a, local') s' => (on_heap (RawMemory.dtor local');; mret a) s'
  | Throw e s' => (on_heap (RawMemory.dtor local);; throw e) s'
  | Crash => Crash
  end.

Definition begin : M (state T) ptr :=
  v ← get_this;
  mret (RawMemory.GetAddress (data_ v)).

Definition end_ : M (state T) ptr :=
  v ← get_this;
  mret (ptr_add (RawMemory.GetAddress (data_ v)) (size_ v)).

Definition Size : M (state T) N :=
  v ← get_this; mret (size_ v).

Definition Capacity : M (state T) N :=
  v ← get_this; mret (RawMemory.Capacity (data_ v)).

(** [Swap(other)]: answers the new value of [other]. *)
Definition Swap (other : t) : M (state T) t :=
  noexcept true (
    v ← get_this;
    let '(d, od) := RawMemory.Swap (data_ v) (data_ other) in
    set_this (Make d (size_ other));;
    mret (Make od (size_ v))).

(** [operator[](index)]. *)
Definition at_index (index : N) : M (state T) ptr :=
  v ← get_this;
  assert (index <? size_ v);;
  RawMemory.index (data_ v) index.

(** [TransferAndSwap(new_data)]: answers the new value of [new_data]. *)
Definition TransferAndSwap (new_data : RawMemory.t) : M (state T) RawMemory.t :=
  v ← get_this;
  (if is_nothrow_move_constructible || negb is_copy_constructible
   then
     b ← begin;
     on_heap (uninitialized_move_n b (size_ v) (RawMemory.GetAddress new_data))
   else
     b ← begin;
     on_heap (uninitialized_copy_n b (size_ v) (RawMemory.GetAddress new_data)));;
  b ← begin;
  on_heap (destroy_n b (size_ v));;
  v ← get_this;
  let '(d, nd) := RawMemory.Swap (data_ v) new_data in
  set_this (Make d (size_ v));;
  mret nd.

Definition Reserve (new_capacity : N) : M (state T) unit :=
  v ← get_this;
  if new_capacity <=? RawMemory.Capacity (data_ v) then mret tt
  else
    new_data ← on_heap (RawMemory.ctor new_capacity);
    scoped new_data (
      nd ← TransferAndSwap new_data;
      mret (tt, nd)).

(** The capacity requested when the vector is full. *)
Definition grown (size : N) : N :=
  if size =? 0 then 1 else size_mul size 2.

(** [EmplaceBack(args...)]; the reference is given by its address. *)
Definition EmplaceBack (a : args) : M (state T) ptr :=
  v ← get_this;
  c ← Capacity;
  (if size_ v =? c then
     new_data ← on_heap (RawMemory.ctor (grown (size_ v)));
     scoped new_data (
       p ← RawMemory.plus new_data (size_ v);
       on_heap (placement_new p a);;
       nd ← try_catch (TransferAndSwap new_data)
              (λ e,
                 on_heap (destroy_n
                   (ptr_add (RawMemory.GetAddress new_data) (size_ v)) 1);;
                 throw e);
       mret (tt, nd))
   else
     p ← RawMemory.plus (data_ v) (size_ v);
     on_heap (placement_new p a));;
  v ← get_this;
  set_this (Make (data_ v) (size_add (size_ v) 1));;
  v ← get_this;
  RawMemory.index (data_ v) (size_sub (size_ v) 1).

(** [PushBack(const T& value)] and [PushBack(T&& value)]. *)
Definition PushBack (value : ref) : M (state T) unit :=
  EmplaceBack (copy_of value);; mret tt.
Definition PushBack_rvalue (value : ref) : M (state T) unit :=
  EmplaceBack (move_of value);; mret tt.

(** [Emplace(pos, args...)]. *)
Definition Emplace (pos : ptr) (a : args) : M (state T) ptr :=
  b ← begin;
  num_position ← defined (ptr_diff pos b);
  v ← get_this;
  c ← Capacity;
  (if size_ v =? c then
     new_data ← on_heap (RawMemory.ctor (grown (size_ v)));
     scoped new_data (
       p ← RawMemory.plus new_data num_position;
       on_heap (placement_new p a);;
       (if is_nothrow_move_constructible || negb is_copy_constructible
        then
          b ← begin;
          on_heap (uninitialized_move_n b num_position
                     (RawMemory.GetAddress new_data));;
          b ← begin;
          q ← RawMemory.plus new_data num_position;
          on_heap (uninitialized_move_n (ptr_add b num_position)
                     (size_sub (size_ v) num_position) (ptr_add q 1))
        else
          try_catch (
            b ← begin;
            on_heap (uninitialized_copy_n b num_position
                       (RawMemory.GetAddress new_data));;
            b ← begin;
            q ← RawMemory.plus new_data num_position;
            on_heap (uninitialized_copy_n (ptr_add b num_position)
                       (size_sub (size_ v) num_position) (ptr_add q 1)))
          (λ e,
             on_heap (destroy_n (RawMemory.GetAddress new_data)
                        (size_add num_position 1));;
             throw e));;
       b ← begin;
       on_heap (destroy_n b (size_ v));;
       v ← get_this;
       let '(d, nd) := RawMemory.Swap (data_ v) new_data in
       set_this (Make d (size_ v));;
       mret (tt, nd))
   else
     e ← end_;
     if decide (pos = e) then
       e ← end_;
       on_heap (placement_new e a)
     else
       temp ← on_heap (construct a);
       last ← RawMemory.index (data_ v) (size_sub (size_ v) 1);
       e ← end_;
       on_heap (move_construct_at e last);;
       try_catch (
         b ← begin;
         e ← end_;
         e1 ← on_heap (ptr_pred e);
         on_heap (std_move_backward (ptr_add b num_position) e1 e);;
         b ← begin;
         on_heap (
           x ← read (ptr_add b num_position);
           '(y, _) ← or_throw (move_assign x temp);
           assign (ptr_add b num_position) y))
       (λ ex,
          e ← end_;
          on_heap (destroy_n e 1);;
          throw ex));;
  v ← get_this;
  set_this (Make (data_ v) (size_add (size_ v) 1));;
  v ← get_this;
  RawMemory.plus (data_ v) num_position.

(** [Insert(pos, const T& value)] and [Insert(pos, T&& value)]. *)
Definition Insert (pos : ptr) (value : ref) : M (state T) ptr :=
  Emplace pos (copy_of value).

Definition PopBack : M (state T) unit :=
  noexcept true (
    v ← get_this;
    assert (0 <? size_ v);;
    e ← RawMemory.plus (data_ v) (size_ v);
    p ← on_heap (ptr_pred e);
    on_heap (destroy_n p 1);;
    v ← get_this;
    set_this (Make (data_ v) (size_sub (size_ v) 1))).

Definition Erase (pos : ptr) : M (state T) ptr :=
  noexcept is_nothrow_move_assignable (
    b ← begin;
    e ← end_;
    c1 ← defined (ptr_le b pos);
    c2 ← (if c1 : bool then defined (ptr_lt pos e) else mret false);
    assert c2;;
    b ← begin;
    num_position ← defined (ptr_diff pos b);
    e ← end_;
    if decide (pos = e) then
      PopBack;;
      end_
    else
      b ← begin;
      e ← end_;
      b' ← begin;
      on_heap (std_move (ptr_add (ptr_add b num_position) 1) e
                 (ptr_add b' num_position));;
      PopBack;;
      b ← begin;
      mret (ptr_add b num_position)).

(** [cbegin()] and [cend()]. *)
Definition cbegin : M (state T) ptr := begin.
Definition cend : M (state T) ptr := end_.

(** [~Vector()], followed by the destructor of the member [data_]. *)
Definition dtor (v : t) : M (heap T) unit :=
  destroy_n (RawMemory.GetAddress (data_ v)) (size_ v);;
  RawMemory.dtor (data_ v).

(** [Vector(Vector&& other) noexcept]: the new object and the new value
    of [other].  The local [empty] is destroyed at the end of the body. *)
Definition ctor_move (other : t) : M (heap T) (t * t) :=
  nothrow (
    let '(d, od) := RawMemory.ctor_move (data_ other) in
    let size := size_ other in
    '(od, empty) ← RawMemory.assign_move od (another RawMemory.default);
    RawMemory.dtor empty;;
    mret (Make d size, Make od 0)).

(** [operator=(Vector&& other) noexcept]: answers the new value of
    [other]. *)
Definition assign_move (other : operand t) : M (state T) (operand t) :=
  noexcept true (
    match other with
    | itself => mret itself
    | another o =>
        v ← get_this;
        '(d, od) ← on_heap (RawMemory.assign_move (data_ v) (another (data_ o)));
        set_this (Make d (size_ o));;
        mret (another (Make od 0))
    end).

Context `{Regular T}.

(** [explicit Vector(size_t size)].  When the body throws, the member
    [data_], which is already constructed, is destroyed. *)
Definition ctor_size (size : N) : M (heap T) t :=
  d ← RawMemory.ctor size;
  try_catch
    (uninitialized_value_construct_n (RawMemory.GetAddress d) size)
    (λ e, RawMemory.dtor d;; throw e);;
  mret (Make d size).

(** [Vector(const Vector& other)]. *)
Definition ctor_copy (other : t) : M (heap T) t :=
  d ← RawMemory.ctor (size_ other);
  try_catch
    (uninitialized_copy_n (RawMemory.GetAddress (data_ other)) (size_ other)
       (RawMemory.GetAddress d))
    (λ e, RawMemory.dtor d;; throw e);;
  mret (Make d (size_ other)).

(** [for (size_t i = 0; i < n; ++i) { data_[i] = other.data_[i]; }],
    from index [i] on, [n] times. *)
Fixpoint copy_assign_loop (d o : RawMemory.t) (i : N) (n : nat) : M (state T) unit :=
  match n with
  | O => mret tt
  | S n' =>
      pd ← RawMemory.index d i;
      po ← RawMemory.index o i;
      on_heap (copy_assign_at pd po);;
      copy_assign_loop d o (size_add i 1) n'
  end.

(** [operator=(const Vector& other)].  The local [temp] of the first
    branch is destroyed at the end of the branch. *)
Definition assign_copy (other : operand t) : M (state T) unit :=
  match other with
  | itself => mret tt
  | another o =>
      v ← get_this;
      if RawMemory.Capacity (data_ v) <? size_ o then
        temp ← on_heap (ctor_copy o);
        temp ← Swap temp;
        on_heap (dtor temp)
      else if size_ o <? size_ v then
        first ← RawMemory.plus (data_ v) (size_ o);
        last ← RawMemory.plus (data_ v) (size_ v);
        on_heap (std_destroy first last);;
        copy_assign_loop (data_ v) (data_ o) 0 (N.to_nat (size_ o));;
        set_this (Make (data_ v) (size_ o))
      else
        copy_assign_loop (data_ v) (data_ o) 0 (N.to_nat (size_ v));;
        src ← RawMemory.plus (data_ o) (size_ v);
        dst ← RawMemory.plus (data_ v) (size_ v);
        on_heap (uninitialized_copy_n src (size_sub (size_ o) (size_ v)) dst);;
        set_this (Make (data_ v) (size_ o))
  end.

(** [Resize(new_size)]. *)
Definition Resize (new_size : N) : M (state T) unit :=
  v ← get_this;
  (if new_size <? size_ v then
     p ← RawMemory.plus (data_ v) new_size;
     on_heap (destroy_n p (size_sub (size_ v) new_size))
   else
     c ← Capacity;
     Reserve (if c <? new_size then new_size else size_ v);;
     v ← get_this;
     p ← RawMemory.plus (data_ v) (size_ v);
     on_heap (uninitialized_value_construct_n p (size_sub new_size (size_ v))));;
  v ← get_this;
  set_this (Make (data_ v) new_size).

End methods.

End Vector.

(** ** Specification vocabulary *)

Section vocabulary.
Context {T : Type} `{Element T}.

(** The slots of a region of capacity [cap] whose first elements are the
    live objects [xs]; the rest is raw. *)
Definition slots_of (xs : list T) (cap : N) : list (option T) :=
  (Some <$> xs) ++ replicate (N.to_nat cap - length xs) None.

(** [holds s xs]: in state [s] the vector is well formed and its logical
    contents are [xs]. *)
Definition holds (s : Vector.state T) (xs : list T) : Prop :=
  let v := Vector.this s in
  let r := Vector.data_ v in
  Vector.size_ v = N.of_nat (length xs) ∧
  Vector.size_ v ≤ RawMemory.capacity_ r ∧
  RawMemory.capacity_ r * sizeof ≤ PTRDIFF_MAX ∧
  match RawMemory.buffer_ r with
  | nullptr => RawMemory.capacity_ r = 0
  | Addr b i =>
      i = 0 ∧
      blocks (Vector.mem s) !! b = Some (slots_of xs (RawMemory.capacity_ r))
  end.

(** What relocating the elements [xs] into a new region produces:
    [TransferAndSwap] and the reallocating [Emplace] move when [T] is
    nothrow move constructible or not copy constructible, and copy
    otherwise.  [None]: an element operation throws. *)
Definition relocate (xs : list T) : option (list T) :=
  if is_nothrow_move_constructible || negb is_copy_constructible
  then (λ yrs, yrs.*1) <$> mapM move_ctor xs
  else mapM copy_ctor xs.

(** The store once the vector's old region holds no object any more. *)
Definition wiped (buf : ptr) (cap : N) (h : heap T) : heap T :=
  match buf with
  | nullptr => h
  | Addr b _ => update_block b (replicate (N.to_nat cap) None) h
  end.

(** The store once the region at [buf] is released. *)
Definition released (buf : ptr) (h : heap T) : heap T :=
  match buf with
  | nullptr => Heap (blocks h) (limit h) (trace h ++ [EvDelete nullptr 0])
  | Addr b _ => Heap (delete b (blocks h)) (limit h) (trace h ++ [EvDelete buf 0])
  end.

(** A request for [n] elements that the store serves. *)
Definition fits (n : N) (h : heap T) : Prop :=
  n * sizeof ≤ N.min (limit h) PTRDIFF_MAX.

(** The store after [operator new] served a request for [n] elements. *)
Definition allocated (n : N) (h : heap T) : heap T :=
  Heap (<[fresh (dom (blocks h)) := replicate (N.to_nat n) None]> (blocks h))
       (limit h)
       (trace h ++ [EvNew (n * sizeof) (Addr (fresh (dom (blocks h))) 0)]).

(** The effect of a computation on the store, transported along a change
    of store. *)
Definition on_store {A} (f : heap T → heap T) (o : outcome (heap T) A)
    : outcome (heap T) A :=
  match o with
  | Ok a h => Ok a (f h)
  | Throw e h => Throw e (f h)
  | Crash => Crash
  end.

(** The store after [operator new] served a request of [bytes] bytes. *)
Definition allocated_bytes (bytes : N) (h : heap T) : heap T :=
  Heap (<[fresh (dom (blocks h)) := replicate (N.to_nat (bytes / sizeof)) None]> (blocks h))
       (limit h)
       (trace h ++ [EvNew bytes (Addr (fresh (dom (blocks h))) 0)]).

(** The live objects in the first [size_] slots of the vector's region, when
    all of these slots exist and hold an object. *)
Definition elements (s : Vector.state T) : option (list T) :=
  let v := Vector.this s in
  match RawMemory.buffer_ (Vector.data_ v) with
  | nullptr => if Vector.size_ v =? 0 then Some [] else None
  | Addr b i =>
      l ← blocks (Vector.mem s) !! b;
      let slots := take (N.to_nat (Vector.size_ v)) (drop (N.to_nat i) l) in
      if decide (length slots = N.to_nat (Vector.size_ v)) then mapM id slots else None
  end.

End vocabulary.

(** Two vector objects that do not share their region. *)
Definition apart (v o : Vector.t) : Prop :=
  match RawMemory.buffer_ (Vector.data_ v), RawMemory.buffer_ (Vector.data_ o) with
  | Addr b _, Addr c _ => b ≠ c
  | _, _ => True
  end.

(** The copy assignments [d[i] = s[i]] over two ranges of the same length,
    front to back: the new values of the targets and whether every
    assignment completed; the first one that throws stops the loop. *)
Fixpoint copy_assign_list {T} `{Regular T} (ds xs : list T) : list T * bool :=
  match ds, xs with
  | d :: ds', x :: xs' =>
      match copy_assign d x with
      | Some y => let '(ys, ok) := copy_assign_list ds' xs' in (y :: ys, ok)
      | None => (ds, false)
      end
  | _, _ => (ds, true)
  end.

(** ** Sequences of appends and removals *)

Section sequences.
Context {T : Type} `{Element T}.






(** The object a reference designates in store [h]. *)
Definition referent (h : heap T) (value : ref) : option T :=
  match value with
  | outside x => Some x
  | inside q => o ← slot h q; o
  end.

End sequences.

Fixpoint non_decreasing (l : list N) : Prop :=
  match l with
  | a :: (b :: _) as l' => a ≤ b ∧ non_decreasing l'
  | _ => True
  end.

(** ** Two element types *)

(** [int]: every operation is [noexcept]; a move leaves the source as it
    is. *)
Definition int_element : Element Z := {|
  sizeof := 4;
  copy_ctor x := Some x;
  move_ctor x := Some (x, x);
  move_assign _ x := Some (x, x);
  is_nothrow_move_constructible := true;
  is_copy_constructible := true;
  is_nothrow_move_assignable := true
|}.

(** A class that holds an integer and declares only copy operations, which
    throw when the source is negative; moving such an object copies it. *)
Definition fragile_element : Element Z := {|
  sizeof := 8;
  copy_ctor x := if (x <? 0)%Z then None else Some x;
  move_ctor x := if (x <? 0)%Z then None else Some (x, x);
  move_assign _ x := if (x <? 0)%Z then None else Some (x, x);
  is_nothrow_move_constructible := false;
  is_copy_constructible := true;
  is_nothrow_move_assignable := false
|}.

(** Their value initialisation and copy assignment. *)
Definition int_regular : Regular Z := {|
  default_ctor := Some 0%Z;
  copy_assign _ x := Some x
|}.

Definition fragile_regular : Regular Z := {|
  default_ctor := Some 0%Z;
  copy_assign _ x := if (x <? 0)%Z then None else Some x
|}.

(** An empty free store that serves requests up to [limit] bytes. *)
Definition empty_heap {T} (limit : N) : heap T := Heap ∅ limit [].

(** A default-constructed vector on an empty free store. *)
Definition start {T} (limit : N) : Vector.state T :=
  Vector.State Vector.default (empty_heap limit).

(** A normal return. *)
Definition is_Ok {S A} (o : outcome S A) : Prop :=
  match o with Ok _ _ => True | _ => False end.

(** An element type none of whose copy and move operations throws. *)
Definition infallible (T : Type) `{Element T} : Prop :=
  (∀ x : T, is_Some (copy_ctor x))
  ∧ (∀ x : T, is_Some (move_ctor x))
  ∧ ∀ d x : T, is_Some (move_assign d x).

(** ** Example vectors *)

(** The vector built by [Reserve(2); EmplaceBack(a); EmplaceBack(b)] from
    a default-constructed one, on a store that serves 1000 bytes. *)
Definition pair_of `{Element Z} (a b : Z) : outcome (Vector.state Z) unit :=
  (Vector.Reserve 2;;
   Vector.EmplaceBack (other_args (Some a));;
   Vector.EmplaceBack (other_args (Some b));;
   mret tt) (start 1000).

(** The state that [pair_of a b] reaches: a full vector of two elements
    in region [0]. *)
Definition pair_state `{Element Z} (a b : Z) : Vector.state Z :=
  Vector.State (Vector.Make (RawMemory.Make (Addr 0 0) 2) 2)
    (Heap {[ 0%nat := [Some a; Some b] ]} 1000
          [EvNew (2 * sizeof) (Addr 0 0); EvDelete nullptr 0]).

(** A full vector of the [int]s 1 and 2. *)
Definition two_ints : Vector.state Z := pair_state (H:=int_element) 1 2.

(** Full vectors of a class whose copies may throw: one whose first
    element cannot be copied, one whose last element cannot. *)
Definition fragile_head : Vector.state Z := pair_state (H:=fragile_element) (-1) 2.
Definition fragile_tail : Vector.state Z := pair_state (H:=fragile_element) 1 (-2).

(** A full vector of the [int]s 1 and 2 on a store that serves no more
    than 8 bytes. *)
Definition tight_ints : Vector.state Z :=
  Vector.State (Vector.Make (RawMemory.Make (Addr 0 0) 2) 2)
    (Heap {[ 0%nat := [Some 1%Z; Some 2%Z] ]} 8 []).

(** Two vectors on one store: the first one is full and holds [a; b]
    in region [0], the second one holds [c] in region [1], with room for
    four elements. *)
Definition first_vector : Vector.t := Vector.Make (RawMemory.Make (Addr 0 0) 2) 2.
Definition second_vector : Vector.t := Vector.Make (RawMemory.Make (Addr 1 0) 4) 1.
Definition two_vectors (a b c : Z) : heap Z :=
  Heap (<[ 1%nat := [Some c; None; None; None] ]> {[ 0%nat := [Some a; Some b] ]})
       1000 [].

(** * Verification *)

(** ** The free store *)

Section free_store_facts.
Context {T : Type} `{Element T}.
Implicit Types (h : heap T) (l : list (option T)) (xs ys : list T).

Lemma update_block_lookup b l h : blocks (update_block b l h) !! b = Some l.
Proof. apply lookup_insert_eq. Qed.

Lemma update_block_lookup_ne b c l h :
  b ≠ c → blocks (update_block b l h) !! c = blocks h !! c.
Proof. intros. by apply lookup_insert_ne. Qed.

Lemma update_block_twice b l l' h :
  update_block b l' (update_block b l h) = update_block b l' h.
Proof. unfold update_block; simpl. by rewrite insert_insert_eq. Qed.

Lemma update_block_same b l h :
  blocks h !! b = Some l → update_block b l h = h.
Proof. intros E. destruct h; unfold update_block; simpl in *. by rewrite insert_id. Qed.

Lemma update_block_comm b c l l' h :
  b ≠ c →
  update_block b l (update_block c l' h) = update_block c l' (update_block b l h).
Proof. intros. unfold update_block; simpl. by rewrite insert_insert_ne. Qed.

Lemma slot_middle h b pre o post :
  blocks h !! b = Some (pre ++ o :: post) →
  slot h (Addr b (N.of_nat (length pre))) = Some o.
Proof.
  intros E. simpl. rewrite E. simpl. rewrite Nat2N.id.
  by rewrite list_lookup_middle.
Qed.

Lemma set_slot_middle h b pre o o' post :
  blocks h !! b = Some (pre ++ o :: post) →
  set_slot (Addr b (N.of_nat (length pre))) o' h
  = update_block b (pre ++ o' :: post) h.
Proof.
  intros E. unfold set_slot, update_block. rewrite E, Nat2N.id.
  by rewrite insert_app_r_alt, Nat.sub_diag by lia.
Qed.

Lemma read_middle h b pre x post :
  blocks h !! b = Some (pre ++ Some x :: post) →
  read (Addr b (N.of_nat (length pre))) h = Ok x h.
Proof. intros E. unfold read. by rewrite (slot_middle _ _ _ _ _ E). Qed.

Lemma assign_middle h b pre x y post :
  blocks h !! b = Some (pre ++ Some x :: post) →
  assign (Addr b (N.of_nat (length pre))) y h
  = Ok tt (update_block b (pre ++ Some y :: post) h).
Proof.
  intros E. unfold assign.
  by rewrite (slot_middle _ _ _ _ _ E), (set_slot_middle _ _ _ _ _ _ E).
Qed.

Lemma construct_at_middle h b pre y post :
  blocks h !! b = Some (pre ++ None :: post) →
  construct_at (Addr b (N.of_nat (length pre))) y h
  = Ok tt (update_block b (pre ++ Some y :: post) h).
Proof.
  intros E. unfold construct_at.
  by rewrite (slot_middle _ _ _ _ _ E), (set_slot_middle _ _ _ _ _ _ E).
Qed.

Lemma destroy_at_middle h b pre x post :
  blocks h !! b = Some (pre ++ Some x :: post) →
  destroy_at (Addr b (N.of_nat (length pre))) h
  = Ok tt (update_block b (pre ++ None :: post) h).
Proof.
  intros E. unfold destroy_at.
  by rewrite (slot_middle _ _ _ _ _ E), (set_slot_middle _ _ _ _ _ _ E).
Qed.

Lemma destroy_at_raw h b pre post :
  blocks h !! b = Some (pre ++ None :: post) →
  destroy_at (Addr b (N.of_nat (length pre))) h = Crash.
Proof. intros E. unfold destroy_at. by rewrite (slot_middle _ _ _ _ _ E). Qed.

Lemma ptr_add_succ b (n : nat) :
  ptr_add (Addr b (N.of_nat n)) 1 = Addr b (N.of_nat (S n)).
Proof. simpl. f_equal. lia. Qed.

End free_store_facts.

(** ** Running the monad *)

Lemma bind_eq {S A B} (m : M S A) (k : A → M S B) s :
  (m ≫= k) s = match m s with
               | Ok a s' => k a s'
               | Throw e s' => Throw e s'
               | Crash => Crash
               end.
Proof. reflexivity. Qed.


Ltac msimpl_in H :=
  repeat first
    [ rewrite bind_eq in H
    | progress cbn [ret throw crash mret M_ret or_throw defined assert] in H ].


Ltac msimpl :=
  repeat first
    [ rewrite bind_eq
    | progress cbn [ret throw crash mret M_ret or_throw defined assert] ].


Arguments ptr_add : simpl never.

(** ** The library algorithms *)

Section loops.
Context {T : Type} `{Element T}.
Implicit Types (h : heap T) (l pre post : list (option T)) (xs ys : list T).

Lemma ptr_pred_succ b (n : nat) :
  ptr_pred (T:=T) (Addr b (N.of_nat (S n))) = mret (Addr b (N.of_nat n)).
Proof.
  unfold ptr_pred. destruct (N.eqb_spec (N.of_nat (S n)) 0); [lia|].
  do 2 f_equal. lia.
Qed.

Lemma destroy_loop_live h b pre xs post :
  blocks h !! b = Some (pre ++ (Some <$> xs) ++ post) →
  destroy_loop (Addr b (N.of_nat (length pre))) (length xs) h
  = Ok tt (update_block b (pre ++ replicate (length xs) None ++ post) h).
Proof.
  revert h pre. induction xs as [|x xs IH]; intros h pre E.
  - by rewrite update_block_same.
  - rewrite fmap_cons, <- app_comm_cons in E. cbn [destroy_loop length replicate].
    rewrite <- app_comm_cons.
    rewrite bind_eq, (destroy_at_middle _ _ _ _ _ E), ptr_add_succ.
    specialize (IH (update_block b (pre ++ None :: (Some <$> xs) ++ post) h) (pre ++ [None])).
    rewrite length_app, Nat.add_1_r, <- !app_assoc in IH.
    rewrite IH by apply update_block_lookup.
    by rewrite update_block_twice.
Qed.

Lemma destroy_loop_raw h b pre post n :
  blocks h !! b = Some (pre ++ None :: post) →
  destroy_loop (Addr b (N.of_nat (length pre))) (S n) h = Crash.
Proof.
  intros E. cbn [destroy_loop]. by rewrite bind_eq, (destroy_at_raw _ _ _ _ E).
Qed.

(** What [uninitialized_copy_n] does on a source range of live objects
    and a destination range of raw slots in another region: it commits
    all copies or none. *)
Lemma uninitialized_copy_loop_spec h bs bd pre_s xs post_s pre_d post_d :
  bs ≠ bd →
  blocks h !! bs = Some (pre_s ++ (Some <$> xs) ++ post_s) →
  blocks h !! bd = Some (pre_d ++ replicate (length xs) None ++ post_d) →
  uninitialized_copy_loop (Addr bs (N.of_nat (length pre_s))) (length xs)
    (Addr bd (N.of_nat (length pre_d))) h
  = match mapM copy_ctor xs with
    | Some ys => Ok tt (update_block bd (pre_d ++ (Some <$> ys) ++ post_d) h)
    | None => Throw element_exception h
    end.
Proof.
  intros Hne. revert h pre_s pre_d.
  induction xs as [|x xs IH]; intros h pre_s pre_d Es Ed.
  - cbn. by rewrite update_block_same.
  - rewrite fmap_cons, <- app_comm_cons in Es.
    cbn [length replicate] in Ed. rewrite <- app_comm_cons in Ed.
    cbn [uninitialized_copy_loop length]. unfold copy_construct_at.
    rewrite !bind_eq, (read_middle _ _ _ _ _ Es).
    cbn [mapM]. rewrite !bind_eq.
    destruct (copy_ctor x) as [y|] eqn:Ey; cbn [or_throw ret throw]; [|done].
    rewrite (construct_at_middle _ _ _ _ _ Ed).
    unfold try_catch. rewrite !ptr_add_succ.
    set (h1 := update_block bd _ h).
    specialize (IH h1 (pre_s ++ [Some x]) (pre_d ++ [Some y])).
    rewrite !length_app, !Nat.add_1_r, <- !app_assoc in IH.
    rewrite IH; clear IH.
    + destruct (mapM copy_ctor xs) as [ys|]; cbn.
      * subst h1. by rewrite update_block_twice, <- app_assoc.
      * rewrite bind_eq.
        assert (E1 : blocks h1 !! bd = Some (pre_d ++ Some y :: replicate (length xs) None ++ post_d))
          by apply update_block_lookup.
        rewrite (destroy_at_middle _ _ _ _ _ E1). cbn.
        subst h1. by rewrite update_block_twice, update_block_same.
    + subst h1. by rewrite update_block_lookup_ne.
    + apply update_block_lookup.
Qed.

Lemma uninitialized_move_loop_spec h bs bd pre_s xs post_s pre_d post_d :
  bs ≠ bd →
  blocks h !! bs = Some (pre_s ++ (Some <$> xs) ++ post_s) →
  blocks h !! bd = Some (pre_d ++ replicate (length xs) None ++ post_d) →
  let r := uninitialized_move_loop (Addr bs (N.of_nat (length pre_s)))
             (length xs) (Addr bd (N.of_nat (length pre_d))) h in
  match mapM move_ctor xs with
  | Some yrs =>
      r = Ok tt (update_block bd (pre_d ++ (Some <$> yrs.*1) ++ post_d)
                   (update_block bs (pre_s ++ (Some <$> yrs.*2) ++ post_s) h))
  | None =>
      ∃ h', r = Throw element_exception h' ∧ blocks h' !! bd = blocks h !! bd
            ∧ limit h' = limit h ∧ trace h' = trace h
  end.
Proof.
  intros Hne. revert h pre_s pre_d.
  induction xs as [|x xs IH]; intros h pre_s pre_d Es Ed.
  - cbn in *. rewrite (update_block_same bs) by done. by rewrite update_block_same.
  - rewrite fmap_cons, <- app_comm_cons in Es.
    cbn [length replicate] in Ed. rewrite <- app_comm_cons in Ed.
    cbn [uninitialized_move_loop length mapM]. unfold move_construct_at.
    rewrite !bind_eq, (read_middle _ _ _ _ _ Es), !bind_eq.
    destruct (move_ctor x) as [[y r]|] eqn:Ey; cbn [or_throw ret throw mbind option_bind];
      [|by exists h].
    rewrite bind_eq, (construct_at_middle _ _ _ _ _ Ed).
    set (h1 := update_block bd _ h).
    assert (E1 : blocks h1 !! bs = Some (pre_s ++ Some x :: (Some <$> xs) ++ post_s)).
    { subst h1. by rewrite update_block_lookup_ne. }
    rewrite (assign_middle _ _ _ _ r _ E1).
    unfold try_catch. rewrite !ptr_add_succ.
    set (h2 := update_block bs _ h1).
    specialize (IH h2 (pre_s ++ [Some r]) (pre_d ++ [Some y])).
    rewrite !length_app, !Nat.add_1_r, <- !app_assoc in IH.
    cbn zeta in IH.
    assert (E2d : blocks h2 !! bd
                  = Some (pre_d ++ Some y :: replicate (length xs) None ++ post_d)).
    { subst h2 h1. rewrite update_block_lookup_ne by done. apply update_block_lookup. }
    specialize (IH (update_block_lookup _ _ _) E2d).
    destruct (mapM move_ctor xs) as [yrs|]; cbn.
    + rewrite IH. f_equal. subst h2 h1.
      rewrite <- !app_assoc. cbn [app].
      rewrite update_block_twice, (update_block_comm bs bd) by done.
      by rewrite update_block_twice.
    + destruct IH as (h' & -> & E' & Hl & Ht). rewrite bind_eq.
      rewrite E2d in E'. rewrite (destroy_at_middle _ _ _ _ _ E'). cbn.
      eexists; split; [done|]. by rewrite update_block_lookup.
Qed.

Lemma move_loop_spec h b pre d xs post :
  blocks h !! b = Some (pre ++ Some d :: (Some <$> xs) ++ post) →
  let r := move_loop (Addr b (N.of_nat (S (length pre)))) (length xs)
             (Addr b (N.of_nat (length pre))) h in
  match shift_left d xs with
  | Some (ys, z) =>
      r = Ok tt (update_block b (pre ++ (Some <$> ys) ++ Some z :: post) h)
  | None => ∃ h', r = Throw element_exception h'
  end.
Proof.
  revert h pre d. induction xs as [|x xs IH]; intros h pre d E.
  - cbn. by rewrite update_block_same.
  - rewrite fmap_cons, <- app_comm_cons in E.
    cbn [move_loop length shift_left]. unfold move_assign_at.
    rewrite !bind_eq, (read_middle _ _ _ _ _ E), !bind_eq.
    assert (E' : blocks h !! b = Some ((pre ++ [Some d]) ++ Some x :: (Some <$> xs) ++ post))
      by by rewrite <- app_assoc.
    pose proof (read_middle _ _ _ _ _ E') as R.
    rewrite length_app, Nat.add_1_r in R. rewrite R. clear R E'.
    destruct (move_assign d x) as [[y r]|] eqn:Ey; cbn [or_throw ret throw mbind option_bind];
      [|by exists h].
    msimpl. rewrite (assign_middle _ _ _ _ y _ E).
    set (h1 := update_block b _ h).
    assert (E1 : blocks h1 !! b = Some ((pre ++ [Some y]) ++ Some x :: (Some <$> xs) ++ post)).
    { subst h1. rewrite update_block_lookup. by rewrite <- app_assoc. }
    pose proof (assign_middle _ _ _ _ r _ E1) as R.
    rewrite length_app, Nat.add_1_r in R. rewrite R. clear R.
    rewrite !ptr_add_succ.
    set (h2 := update_block b _ h1).
    specialize (IH h2 (pre ++ [Some y]) r).
    rewrite length_app, Nat.add_1_r in IH.
    specialize (IH (update_block_lookup _ _ _)). cbn zeta in IH.
    destruct (shift_left r xs) as [[ys z]|]; cbn.
    + rewrite IH. subst h2 h1. rewrite !update_block_twice.
      by rewrite <- app_assoc.
    + done.
Qed.

Lemma move_backward_loop_spec h b pre rxs d post :
  blocks h !! b = Some (pre ++ (Some <$> rev rxs) ++ Some d :: post) →
  let r := move_backward_loop (length rxs)
             (Addr b (N.of_nat (length pre + length rxs)))
             (Addr b (N.of_nat (S (length pre + length rxs)))) h in
  match shift_right rxs d with
  | Some (z, ys) =>
      r = Ok tt (update_block b (pre ++ Some z :: (Some <$> ys) ++ post) h)
  | None => ∃ h', r = Throw element_exception h'
  end.
Proof.
  revert h d post. induction rxs as [|x rxs IH]; intros h d post E.
  - cbn. cbn in E. by rewrite update_block_same.
  - cbv zeta. remember (move_backward_loop _ _ _ h) as o eqn:Ho.
    cbn [move_backward_loop length shift_right] in *. unfold move_assign_at in Ho.
    rewrite Nat.add_succ_r, !ptr_pred_succ in Ho.
    assert (L1 : (S (length pre + length rxs))
                 = length (pre ++ (Some <$> rev rxs) ++ [Some x]))
      by (rewrite !length_app, length_fmap, length_rev; cbn; lia).
    assert (L2 : (length pre + length rxs)%nat
                 = length (pre ++ (Some <$> rev rxs)))
      by (rewrite !length_app, length_fmap, length_rev; cbn; lia).
    rewrite L1, L2 in Ho.
    cbn [rev] in E. rewrite fmap_app in E. cbn [fmap list_fmap] in E.
    assert (E1 : blocks h !! b
                 = Some ((pre ++ (Some <$> rev rxs) ++ [Some x]) ++ Some d :: post)).
    { rewrite E. by rewrite <- !app_assoc. }
    assert (E2 : blocks h !! b
                 = Some ((pre ++ (Some <$> rev rxs)) ++ Some x :: Some d :: post)).
    { rewrite E. by rewrite <- !app_assoc. }
    msimpl_in Ho. rewrite (read_middle _ _ _ _ _ E1) in Ho.
    msimpl_in Ho. rewrite (read_middle _ _ _ _ _ E2) in Ho. msimpl_in Ho.
    destruct (move_assign d x) as [[y r]|] eqn:Ey; cbn [mbind option_bind];
      msimpl_in Ho; [|by exists h].
    rewrite (assign_middle _ _ _ _ y _ E1) in Ho.
    set (h1 := update_block b _ h) in Ho.
    assert (E3 : blocks h1 !! b
                 = Some ((pre ++ (Some <$> rev rxs)) ++ Some x :: Some y :: post)).
    { subst h1. rewrite update_block_lookup. by rewrite <- !app_assoc. }
    rewrite (assign_middle _ _ _ _ r _ E3) in Ho.
    set (h2 := update_block b _ h1) in Ho.
    specialize (IH h2 r (Some y :: post)).
    rewrite <- L1, <- L2 in Ho.
    assert (E4 : blocks h2 !! b = Some (pre ++ (Some <$> rev rxs) ++ Some r :: Some y :: post)).
    { subst h2. rewrite update_block_lookup. by rewrite <- !app_assoc. }
    specialize (IH E4). cbv zeta in IH. rewrite <- Ho in IH. clear Ho.
    destruct (shift_right rxs r) as [[z ys]|]; cbn.
    + rewrite IH. subst h2 h1. rewrite !update_block_twice.
      rewrite fmap_app, <- !app_assoc. done.
    + done.
Qed.
End loops.

(** ** Member functions of [Vector] *)

Import Vector.

Ltac vsimpl_in H :=
  repeat first
    [ rewrite bind_eq in H
    | progress unfold begin, end_, Size, Capacity, RawMemory.plus, RawMemory.index in H
    | progress cbn [ret throw crash mret M_ret or_throw defined assert
                    get_this set_this this mem data_ size_
                    RawMemory.GetAddress RawMemory.buffer_ RawMemory.capacity_
                    RawMemory.Capacity RawMemory.Swap RawMemory.plus RawMemory.index] in H ].

Ltac vsimpl :=
  repeat first
    [ rewrite bind_eq
    | progress unfold begin, end_, Size, Capacity, RawMemory.plus, RawMemory.index
    | progress cbn [ret throw crash mret M_ret or_throw defined assert
                    get_this set_this this mem data_ size_
                    RawMemory.GetAddress RawMemory.buffer_ RawMemory.capacity_
                    RawMemory.Capacity RawMemory.Swap RawMemory.plus RawMemory.index] ].


Section vector_facts.
Context {T : Type} `{Element T} `{!ElementLaws T}.
Implicit Types (h : heap T) (xs ys : list T) (s : state T).

Lemma wrap_small n : n < SIZE_MOD → wrap n = n.
Proof. unfold wrap. intros. by apply N.mod_small. Qed.

Lemma PTRDIFF_MAX_lt : 0 < PTRDIFF_MAX ∧ 2 * PTRDIFF_MAX < SIZE_MOD.
Proof. unfold PTRDIFF_MAX, SIZE_MOD. lia. Qed.

Lemma fresh_block h : blocks h !! fresh (dom (blocks h)) = None.
Proof. apply not_elem_of_dom, is_fresh. Qed.

Lemma RawMemory_ctor_fits n h :
  n ≠ 0 → fits n h →
  RawMemory.ctor n h = Ok (RawMemory.Make (Addr (fresh (dom (blocks h))) 0) n) (allocated n h).
Proof.
  intros Hn Hfit. unfold RawMemory.ctor, RawMemory.Allocate, fits in *.
  msimpl. destruct (N.eqb_spec n 0) as [|_]; [done|].
  assert (Hw : size_mul n sizeof = n * sizeof).
  { apply wrap_small. pose proof PTRDIFF_MAX_lt. lia. }
  unfold operator_new. rewrite Hw.
  destruct (N.ltb_spec (N.min (limit h) PTRDIFF_MAX) (n * sizeof)); [lia|].
  msimpl. unfold allocated. rewrite N.div_mul; [done|].
  pose proof sizeof_pos. lia.
Qed.

Lemma RawMemory_ctor_bad_alloc n h :
  n ≠ 0 → N.min (limit h) PTRDIFF_MAX < size_mul n sizeof →
  RawMemory.ctor n h = Throw bad_alloc h.
Proof.
  intros Hn Hfit. unfold RawMemory.ctor, RawMemory.Allocate.
  msimpl. destruct (N.eqb_spec n 0) as [|_]; [done|].
  unfold operator_new.
  destruct (N.ltb_spec (N.min (limit h) PTRDIFF_MAX) (size_mul n sizeof)); [done|lia].
Qed.


Lemma on_heap_Ok {A} (m : M (heap T) A) v h a h' :
  m h = Ok a h' → on_heap m (State v h) = Ok a (State v h').
Proof. intros E. unfold on_heap. cbn. by rewrite E. Qed.

Lemma on_heap_Throw {A} (m : M (heap T) A) v h e h' :
  m h = Throw e h' → on_heap m (State v h) = Throw e (State v h').
Proof. intros E. unfold on_heap. cbn. by rewrite E. Qed.

Lemma on_heap_Crash {A} (m : M (heap T) A) v h :
  m h = Crash → on_heap m (State v h) = Crash.
Proof. intros E. unfold on_heap. cbn. by rewrite E. Qed.

Lemma slots_of_length xs (cap : N) :
  (length xs ≤ N.to_nat cap)%nat → length (slots_of xs cap) = N.to_nat cap.
Proof. intros. unfold slots_of. rewrite length_app, length_fmap, length_replicate. lia. Qed.

Lemma relocate_length xs ys : relocate xs = Some ys → length ys = length xs.
Proof.
  unfold relocate. destruct (_ || _).
  - destruct (mapM move_ctor xs) as [yrs|] eqn:E; [|done]. intros [= <-].
    rewrite length_fmap. symmetry. by eapply length_mapM.
  - intros E. symmetry. by eapply length_mapM.
Qed.

Lemma relocate_nil : relocate [] = Some [].
Proof. unfold relocate. by destruct (_ || _). Qed.

Lemma holds_nullptr cap size h xs :
  holds (State (Make (RawMemory.Make nullptr cap) size) h) xs →
  cap = 0 ∧ size = 0 ∧ xs = [].
Proof.
  intros (Hs & Hle & _ & Hc). cbn in *.
  destruct xs; cbn in Hs; repeat split; lia.
Qed.

(** [TransferAndSwap] when every element relocates. *)
Lemma TransferAndSwap_Ok buf cap size h xs bn cap' rest ys :
  holds (State (Make (RawMemory.Make buf cap) size) h) xs →
  (∀ i, buf ≠ Addr bn i) →
  blocks h !! bn = Some (replicate (length xs) None ++ rest) →
  relocate xs = Some ys →
  TransferAndSwap (RawMemory.Make (Addr bn 0) cap')
    (State (Make (RawMemory.Make buf cap) size) h)
  = Ok (RawMemory.Make buf cap)
       (State (Make (RawMemory.Make (Addr bn 0) cap') size)
              (update_block bn ((Some <$> ys) ++ rest) (wiped buf cap h))).
Proof.
  intros Hh Hne En Hr. unfold TransferAndSwap. vsimpl.
  destruct buf as [|b i].
  - apply holds_nullptr in Hh as (-> & -> & ->).
    rewrite relocate_nil in Hr. injection Hr as <-.
    destruct (_ || _); vsimpl; unfold on_heap; cbn; by rewrite update_block_same.
  - destruct Hh as (Hs & Hle & Hcap & -> & Eb). cbn in Hs, Hle, Hcap, Eb.
    assert (Hbn : b ≠ bn) by (intros ->; by eapply Hne).
    assert (Hn : N.to_nat size = length xs) by lia.
    unfold relocate in Hr. unfold slots_of in Eb.
    destruct (_ || _); vsimpl.
    + unfold uninitialized_move_n. rewrite Hn.
      pose proof (uninitialized_move_loop_spec h b bn [] xs _ [] rest Hbn Eb En) as Hm.
      destruct (mapM move_ctor xs) as [yrs|] eqn:Em; [|done].
      injection Hr as <-. cbn in Hm. change (N.of_nat 0) with 0 in Hm.
      rewrite (on_heap_Ok _ _ _ _ _ Hm). vsimpl.
      unfold destroy_n. rewrite Hn.
      set (h1 := update_block bn _ _).
      assert (E1 : blocks h1 !! b
                   = Some ([] ++ (Some <$> yrs.*2) ++ replicate (N.to_nat cap - length xs) None)).
      { subst h1. rewrite update_block_lookup_ne by done. apply update_block_lookup. }
      assert (Hl : length xs = length (yrs.*2)).
      { rewrite length_fmap. by eapply length_mapM. }
      rewrite Hl. rewrite (on_heap_Ok _ _ _ _ _ (destroy_loop_live _ _ _ _ _ E1)).
      vsimpl. do 2 f_equal. subst h1. cbn [app wiped].
      rewrite <- replicate_add, <- Hl.
      replace (length xs + (N.to_nat cap - length xs))%nat with (N.to_nat cap) by lia.
      rewrite (update_block_comm b bn) by done.
      by rewrite update_block_twice.
    + unfold uninitialized_copy_n. rewrite Hn.
      pose proof (uninitialized_copy_loop_spec h b bn [] xs _ [] rest Hbn Eb En) as Hm.
      rewrite Hr in Hm. cbn in Hm. change (N.of_nat 0) with 0 in Hm.
      rewrite (on_heap_Ok _ _ _ _ _ Hm). vsimpl.
      unfold destroy_n. rewrite Hn.
      set (h1 := update_block bn _ _).
      assert (E1 : blocks h1 !! b
                   = Some ([] ++ (Some <$> xs) ++ replicate (N.to_nat cap - length xs) None)).
      { subst h1. by rewrite update_block_lookup_ne. }
      rewrite (on_heap_Ok _ _ _ _ _ (destroy_loop_live _ _ _ _ _ E1)).
      vsimpl. do 2 f_equal. subst h1. cbn [app wiped].
      rewrite <- replicate_add.
      replace (length xs + (N.to_nat cap - length xs))%nat with (N.to_nat cap) by lia.
      by rewrite (update_block_comm b bn).
Qed.


(** [TransferAndSwap] when an element operation throws: nothing is
    committed; on the copy path the store is exactly as before. *)
Lemma TransferAndSwap_Throw buf cap size h xs bn cap' rest :
  holds (State (Make (RawMemory.Make buf cap) size) h) xs →
  (∀ i, buf ≠ Addr bn i) →
  blocks h !! bn = Some (replicate (length xs) None ++ rest) →
  relocate xs = None →
  ∃ h',
    TransferAndSwap (RawMemory.Make (Addr bn 0) cap')
      (State (Make (RawMemory.Make buf cap) size) h)
    = Throw element_exception (State (Make (RawMemory.Make buf cap) size) h')
    ∧ blocks h' !! bn = blocks h !! bn
    ∧ limit h' = limit h ∧ trace h' = trace h
    ∧ (is_nothrow_move_constructible || negb is_copy_constructible = false → h' = h).
Proof.
  intros Hh Hne En Hr. unfold TransferAndSwap. vsimpl.
  destruct buf as [|b i].
  - apply holds_nullptr in Hh as (-> & -> & ->). by rewrite relocate_nil in Hr.
  - destruct Hh as (Hs & Hle & Hcap & -> & Eb). cbn in Hs, Hle, Hcap, Eb.
    assert (Hbn : b ≠ bn) by (intros ->; by eapply Hne).
    assert (Hn : N.to_nat size = length xs) by lia.
    unfold relocate in Hr. unfold slots_of in Eb.
    destruct (_ || _); vsimpl.
    + unfold uninitialized_move_n. rewrite Hn.
      pose proof (uninitialized_move_loop_spec h b bn [] xs _ [] rest Hbn Eb En) as Hm.
      destruct (mapM move_ctor xs) as [yrs|] eqn:Em; [done|].
      cbn in Hm. change (N.of_nat 0) with 0 in Hm.
      destruct Hm as (h' & Hm & E' & Hl & Ht).
      rewrite (on_heap_Throw _ _ _ _ _ Hm). by exists h'.
    + unfold uninitialized_copy_n. rewrite Hn.
      pose proof (uninitialized_copy_loop_spec h b bn [] xs _ [] rest Hbn Eb En) as Hm.
      rewrite Hr in Hm. cbn in Hm. change (N.of_nat 0) with 0 in Hm.
      rewrite (on_heap_Throw _ _ _ _ _ Hm). by exists h.
Qed.


Lemma slots_of_snoc xs (cap : N) y :
  (length xs < N.to_nat cap)%nat →
  slots_of (xs ++ [y]) cap
  = (Some <$> xs) ++ Some y :: replicate (N.to_nat cap - S (length xs)) None.
Proof.
  intros. unfold slots_of. rewrite fmap_app, <- app_assoc, length_app. cbn.
  do 3 f_equal. lia.
Qed.

Lemma slots_of_raw xs (cap : N) :
  (length xs < N.to_nat cap)%nat →
  slots_of xs cap
  = (Some <$> xs) ++ None :: replicate (N.to_nat cap - S (length xs)) None.
Proof.
  intros. unfold slots_of. f_equal.
  replace (N.to_nat cap - length xs)%nat with (S (N.to_nat cap - S (length xs))) by lia.
  done.
Qed.

Lemma placement_new_Ok a h y h1 b pre post :
  construct a h = Ok y h1 →
  blocks h1 !! b = Some (pre ++ None :: post) →
  placement_new (Addr b (N.of_nat (length pre))) a h
  = Ok tt (update_block b (pre ++ Some y :: post) h1).
Proof.
  intros Ec Eb. unfold placement_new. msimpl. rewrite Ec.
  by apply construct_at_middle.
Qed.

Lemma size_add_small a b : a + b < SIZE_MOD → size_add a b = a + b.
Proof. apply wrap_small. Qed.

Lemma size_sub_small a b : b ≤ a → a < SIZE_MOD → size_sub a b = a - b.
Proof.
  intros. unfold size_sub. rewrite (wrap_small b) by lia.
  unfold wrap. replace (a + SIZE_MOD - b) with ((a - b) + 1 * SIZE_MOD) by lia.
  rewrite N.Div0.mod_add. apply N.mod_small. lia.
Qed.

Lemma holds_bounds v h xs :
  holds (State v h) xs →
  RawMemory.capacity_ (data_ v) ≤ PTRDIFF_MAX ∧ size_ v ≤ PTRDIFF_MAX.
Proof.
  intros (Hs & Hle & Hcap & _). pose proof sizeof_pos. cbn in *.
  assert (RawMemory.capacity_ (data_ v) * 1 ≤ RawMemory.capacity_ (data_ v) * sizeof)
    by (apply N.mul_le_mono_l; lia).
  lia.
Qed.

(** [EmplaceBack] with spare capacity. *)
Lemma EmplaceBack_in_place a buf cap size h y h1 xs1 :
  size < cap →
  construct a h = Ok y h1 →
  holds (State (Make (RawMemory.Make buf cap) size) h1) xs1 →
  ∃ b,
    buf = Addr b 0 ∧
    EmplaceBack a (State (Make (RawMemory.Make buf cap) size) h)
    = Ok (Addr b size)
         (State (Make (RawMemory.Make buf cap) (size + 1))
                (update_block b (slots_of (xs1 ++ [y]) cap) h1)).
Proof.
  intros Hlt Ec Hh.
  pose proof (holds_bounds _ _ _ Hh) as [Hc1 Hc2]. cbn in Hc1, Hc2.
  pose proof PTRDIFF_MAX_lt.
  destruct buf as [|b i].
  { apply holds_nullptr in Hh as (-> & -> & _). lia. }
  destruct Hh as (Hs & Hle & Hcap & -> & Eb). cbn in Hs, Hle, Hcap, Eb.
  exists b. split; [done|].
  unfold EmplaceBack. vsimpl.
  destruct (N.eqb_spec size cap) as [|_]; [lia|].
  vsimpl. destruct (N.leb_spec size cap); [|lia]. vsimpl.
  rewrite slots_of_raw in Eb by lia.
  assert (Hp : ptr_add (Addr b 0) size = Addr b (N.of_nat (length (Some <$> xs1)))).
  { unfold ptr_add. rewrite length_fmap. f_equal. lia. }
  rewrite Hp.
  rewrite (on_heap_Ok _ _ _ _ _ (placement_new_Ok _ _ _ _ _ _ _ Ec Eb)).
  vsimpl. rewrite size_add_small by lia.
  rewrite size_sub_small by lia.
  destruct (N.ltb_spec (size + 1 - 1) cap); [|lia]. vsimpl.
  rewrite slots_of_snoc by lia.
  do 2 f_equal. unfold ptr_add. f_equal. lia.
Qed.


Lemma slot_allocated h n p :
  slot (allocated n h) p = slot h p
  ∨ (slot h p = None ∧ (slot (allocated n h) p = None ∨ slot (allocated n h) p = Some None)).
Proof.
  destruct p as [|b i]; [by left|]. cbn.
  destruct (decide (fresh (dom (blocks h)) = b)) as [<-|Hne].
  - right. rewrite fresh_block, lookup_insert_eq. cbn. split; [done|].
    destruct (replicate (N.to_nat n) None !! N.to_nat i) as [o|] eqn:E; [|by left].
    right. by apply lookup_replicate in E as [-> _].
  - left. by rewrite lookup_insert_ne.
Qed.

Lemma read_allocated h n p :
  read p (allocated n h) = on_store (allocated n) (read p h).
Proof.
  unfold read. destruct (slot_allocated h n p) as [->|(-> & [->| ->])]; [|done..].
  by destruct (slot h p) as [[x|]|].
Qed.

Lemma set_slot_allocated h n p o o' :
  slot h p = Some o' →
  set_slot p o (allocated n h) = allocated n (set_slot p o h).
Proof.
  destruct p as [|b i]; [done|]. cbn.
  destruct (blocks h !! b) as [l|] eqn:E; [|done]. cbn. intros _.
  assert (Hne : fresh (dom (blocks h)) ≠ b).
  { intros <-. by rewrite fresh_block in E. }
  rewrite lookup_insert_ne, E by done. unfold allocated. cbn.
  rewrite dom_insert_lookup_L by done.
  by rewrite insert_insert_ne.
Qed.

Lemma assign_allocated h n p x :
  assign p x (allocated n h) = on_store (allocated n) (assign p x h).
Proof.
  unfold assign. destruct (slot_allocated h n p) as [->|(-> & [->| ->])]; [|done..].
  destruct (slot h p) as [[x'|]|] eqn:E; [|done..]. cbn.
  by erewrite set_slot_allocated.
Qed.

(** Evaluating the constructor arguments does not depend on a region
    that is allocated meanwhile. *)
Lemma construct_allocated a h n :
  construct a (allocated n h) = on_store (allocated n) (construct a h).
Proof.
  destruct a as [[x|p]|[x|p]|res]; cbn [construct]; msimpl.
  - by destruct (copy_ctor x).
  - rewrite read_allocated. destruct (read p h) as [x h'|e h'|] eqn:E; [|done..].
    cbn. by destruct (copy_ctor x).
  - destruct (move_ctor x) as [[y r]|]; by msimpl.
  - rewrite read_allocated. destruct (read p h) as [x h'|e h'|] eqn:E; [|done..].
    cbn. destruct (move_ctor x) as [[y r]|]; msimpl; [|done].
    rewrite assign_allocated. by destruct (assign p r h').
  - by destruct res.
Qed.


Lemma read_Ok p h x h' : read p h = Ok x h' → h' = h ∧ slot h p = Some (Some x).
Proof.
  unfold read. destruct (slot h p) as [[x'|]|]; [|done..]. by intros [= -> ->].
Qed.

Lemma assign_Ok p x h u h' :
  assign p x h = Ok u h' →
  dom (blocks h') = dom (blocks h) ∧ limit h' = limit h ∧ trace h' = trace h.
Proof.
  unfold assign. destruct (slot h p) as [[x'|]|] eqn:E; [|done..]. intros [= <- <-].
  destruct p as [|b i]; [done|]. cbn in *.
  destruct (blocks h !! b) as [l|] eqn:El; [|done]. cbn.
  by rewrite ?El, dom_insert_lookup_L.
Qed.

Lemma construct_Ok a h y h1 :
  construct a h = Ok y h1 →
  dom (blocks h1) = dom (blocks h) ∧ limit h1 = limit h ∧ trace h1 = trace h.
Proof.
  destruct a as [[x|p]|[x|p]|res]; cbn [construct]; msimpl.
  - destruct (copy_ctor x); msimpl; [|done]. by intros [= _ <-].
  - destruct (read p h) as [x h'|e h'|] eqn:E; [|done..].
    apply read_Ok in E as [-> _].
    destruct (copy_ctor x); msimpl; [|done]. by intros [= _ <-].
  - destruct (move_ctor x) as [[y' r]|]; msimpl; [|done]. by intros [= _ <-].
  - destruct (read p h) as [x h'|e h'|] eqn:E; [|done..].
    apply read_Ok in E as [-> _].
    destruct (move_ctor x) as [[y' r]|]; msimpl; [|done].
    destruct (assign p r h) as [u h'|e h'|] eqn:E'; [|done..].
    intros [= _ <-]. by eapply assign_Ok.
  - destruct res; msimpl; [|done]. by intros [= _ <-].
Qed.

Lemma construct_Throw a h e h1 :
  construct a h = Throw e h1 → e = element_exception ∧ h1 = h.
Proof.
  destruct a as [[x|p]|[x|p]|res]; cbn [construct]; msimpl.
  - destruct (copy_ctor x); msimpl; [done|]. by intros [= <- <-].
  - destruct (read p h) as [x h'|e' h'|] eqn:E; [| |done].
    + apply read_Ok in E as [-> _].
      destruct (copy_ctor x); msimpl; [done|]. by intros [= <- <-].
    + unfold read in E. by destruct (slot h p) as [[?|]|].
  - destruct (move_ctor x) as [[y' r]|]; msimpl; [done|]. by intros [= <- <-].
  - destruct (read p h) as [x h'|e' h'|] eqn:E; [| |done].
    + apply read_Ok in E as [-> _].
      destruct (move_ctor x) as [[y' r]|]; msimpl; [|by intros [= <- <-]].
      destruct (assign p r h) as [u h'|e' h'|] eqn:E'; [done| |done].
      unfold assign in E'. by destruct (slot h p) as [[?|]|].
    + unfold read in E. by destruct (slot h p) as [[?|]|].
  - destruct res; msimpl; [done|]. by intros [= <- <-].
Qed.

Lemma holds_frame v h h' xs :
  holds (State v h) xs →
  (∀ b i, RawMemory.buffer_ (data_ v) = Addr b i → blocks h' !! b = blocks h !! b) →
  holds (State v h') xs.
Proof.
  intros (Hs & Hle & Hcap & Hb) Hf. repeat split; [done..|]. cbn in *.
  destruct (RawMemory.buffer_ (data_ v)) as [|b i]; [done|].
  destruct Hb as [-> Hb]. split; [done|]. by rewrite (Hf b 0).
Qed.

Lemma grown_spec (size : N) :
  size ≤ PTRDIFF_MAX →
  grown size = (if size =? 0 then 1 else 2 * size) ∧ size < grown size.
Proof.
  intros. pose proof PTRDIFF_MAX_lt. unfold grown.
  destruct (N.eqb_spec size 0); [lia|].
  unfold size_mul. rewrite wrap_small by lia. lia.
Qed.

Lemma live_count_raw n : live_count (T:=T) (replicate n None) = 0%nat.
Proof. unfold live_count. induction n; [done|]. by cbn. Qed.

(** The state of a full vector when [EmplaceBack] or [Emplace] has
    allocated the new region and evaluated the constructor arguments. *)
Lemma holds_allocated v h xs n :
  holds (State v h) xs →
  holds (State v (allocated n h)) xs
  ∧ ∀ i, RawMemory.buffer_ (data_ v) ≠ Addr (fresh (dom (blocks h))) i.
Proof.
  intros Hh.
  assert (Hne : ∀ i, RawMemory.buffer_ (data_ v) ≠ Addr (fresh (dom (blocks h))) i).
  { intros i E. destruct Hh as (_ & _ & _ & Hb). cbn in Hb. rewrite E in Hb.
    destruct Hb as [_ Hb]. by rewrite fresh_block in Hb. }
  split; [|done]. eapply holds_frame; [done|]. intros b i E. cbn.
  apply lookup_insert_ne. intros <-. by eapply Hne.
Qed.

Lemma operator_delete_old buf cap h xs size bn l :
  holds (State (Make (RawMemory.Make buf cap) size) h) xs →
  (∀ i, buf ≠ Addr bn i) →
  operator_delete buf (update_block bn l (wiped buf cap h))
  = Ok tt (released buf (update_block bn l h)).
Proof.
  intros Hh Hne. destruct buf as [|b i]; [done|].
  destruct Hh as (_ & _ & _ & -> & Eb). cbn in *.
  assert (b ≠ bn) by (intros ->; by eapply Hne).
  rewrite lookup_insert_ne, lookup_insert_eq by done. cbn. rewrite live_count_raw.
  unfold released. cbn.
  rewrite !(delete_insert_ne _ b bn) by done. by rewrite delete_insert_eq.
Qed.


Lemma raw_split (g size : nat) :
  (size < g)%nat →
  replicate g (@None T) = replicate size None ++ None :: replicate (g - S size) None.
Proof.
  intros. replace g with (size + S (g - S size))%nat at 1 by lia.
  by rewrite replicate_add.
Qed.

(** [EmplaceBack] on a full vector, once the new region is obtained and
    the constructor arguments are evaluated. *)
Lemma EmplaceBack_realloc a buf size h xs1 y h1 :
  let v := Make (RawMemory.Make buf size) size in
  let bn := fresh (dom (blocks h)) in
  let g := grown size in
  let v' := Make (RawMemory.Make (Addr bn 0) g) (size + 1) in
  fits g h →
  construct a h = Ok y h1 →
  holds (State v h1) xs1 →
  match relocate xs1 with
  | Some ys =>
      ∃ h', EmplaceBack a (State v h) = Ok (Addr bn size) (State v' h')
            ∧ holds (State v' h') (ys ++ [y])
            ∧ limit h' = limit h
            ∧ trace h' = trace h ++ [EvNew (g * sizeof) (Addr bn 0); EvDelete buf 0]
  | None =>
      ∃ h', EmplaceBack a (State v h) = Throw element_exception (State v h')
            ∧ limit h' = limit h
            ∧ trace h' = trace h ++ [EvNew (g * sizeof) (Addr bn 0); EvDelete (Addr bn 0) 0]
            ∧ (is_nothrow_move_constructible || negb is_copy_constructible = false
               → blocks h' = blocks h1)
  end.
Proof.
  intros v bn g v' Hfit Ec Hh. subst v v'.
  pose proof (holds_bounds _ _ _ Hh) as [Hc1 _]. cbn in Hc1.
  pose proof (grown_spec size Hc1) as [_ Hg]. fold g in Hg.
  pose proof (construct_Ok _ _ _ _ Ec) as (Hd & Hl & Ht).
  assert (Hsz : size = N.of_nat (length xs1)) by apply Hh.
  (* the new region *)
  assert (Ea : RawMemory.ctor g h = Ok (RawMemory.Make (Addr bn 0) g) (allocated g h))
    by (apply RawMemory_ctor_fits; [lia|done]).
  assert (Ec' : construct a (allocated g h) = Ok y (allocated g h1))
    by (by rewrite construct_allocated, Ec).
  assert (Ebn : blocks (allocated g h1) !! bn
                = Some (replicate (length xs1) None
                        ++ None :: replicate (N.to_nat g - S (length xs1)) None)).
  { unfold allocated, bn. cbn. rewrite Hd, lookup_insert_eq. f_equal.
    apply raw_split. lia. }
  pose proof (placement_new_Ok _ _ _ _ _ _ _ Ec' Ebn) as Ep.
  rewrite length_replicate in Ep.
  set (hC := update_block bn _ (allocated g h1)) in Ep.
  destruct (holds_allocated _ _ _ g Hh) as [Hh' Hne].
  rewrite Hd in Hne. fold bn in Hne. cbn in Hne.
  assert (HhC : holds (State (Make (RawMemory.Make buf size) size) hC) xs1).
  { eapply holds_frame; [exact Hh'|]. intros b i E. subst hC.
    apply update_block_lookup_ne. intros <-. by eapply Hne. }
  assert (EbC : blocks hC !! bn
                = Some (replicate (length xs1) None
                        ++ Some y :: replicate (N.to_nat g - S (length xs1)) None))
    by apply update_block_lookup.
  destruct (relocate xs1) as [ys|] eqn:Hr.
  - pose proof (TransferAndSwap_Ok _ _ _ _ _ _ g _ _ HhC Hne EbC Hr) as Hts.
    eexists. split.
    + unfold EmplaceBack. vsimpl. rewrite N.eqb_refl.
      vsimpl. rewrite (on_heap_Ok _ _ _ _ _ Ea). unfold scoped. vsimpl.
      destruct (N.leb_spec size g); [|lia]. vsimpl.
      replace (ptr_add (Addr bn 0) size) with (Addr bn (N.of_nat (length xs1)))
        by (unfold ptr_add; f_equal; lia).
      rewrite (on_heap_Ok _ _ _ _ _ Ep). vsimpl.
      unfold try_catch. rewrite Hts. vsimpl.
      unfold RawMemory.dtor, RawMemory.Deallocate. cbn [RawMemory.buffer_].
      rewrite (on_heap_Ok _ _ _ _ _ (operator_delete_old _ _ _ _ _ _ _ HhC Hne)).
      vsimpl. pose proof PTRDIFF_MAX_lt.
      rewrite size_add_small, size_sub_small by lia.
      destruct (N.ltb_spec (size + 1 - 1) g); [|lia]. vsimpl.
      replace (size + 1 - 1) with size by lia.
      unfold ptr_add. rewrite N.add_0_l. reflexivity.
    + pose proof (relocate_length _ _ Hr) as Hlen.
      split; [|split].
      * repeat split; cbn.
        -- rewrite length_app. cbn. lia.
        -- lia.
        -- unfold fits in Hfit. lia.
        -- destruct buf as [|b i]; cbn.
           ++ rewrite lookup_insert_eq. f_equal.
              rewrite slots_of_snoc by lia. by rewrite Hlen.
           ++ assert (b ≠ bn) by (intros ->; by eapply Hne).
              rewrite lookup_delete_ne, lookup_insert_eq by done. f_equal.
              rewrite slots_of_snoc by lia. by rewrite Hlen.
      * by destruct buf.
      * subst hC. destruct buf; cbn; rewrite Ht, Hd, <- app_assoc; done.
  - destruct (TransferAndSwap_Throw _ _ _ _ _ _ g _ HhC Hne EbC Hr)
      as (h' & Hts & Eb' & Hl' & Ht' & Hcopy).
    rewrite EbC in Eb'.
    assert (Ed : destroy_n (Addr bn (N.of_nat (length xs1))) 1 h'
                 = Ok tt (update_block bn (replicate (N.to_nat g) None) h')).
    { unfold destroy_n. change (N.to_nat 1) with 1%nat. cbn [destroy_loop].
      msimpl.
      pose proof (destroy_at_middle _ _ _ _ _ Eb') as Hd'.
      rewrite length_replicate in Hd'. rewrite Hd'. msimpl.
      by rewrite <- raw_split by lia. }
    eexists. split; [|split; [|split]].
    + unfold EmplaceBack. vsimpl. rewrite N.eqb_refl.
      vsimpl. rewrite (on_heap_Ok _ _ _ _ _ Ea). unfold scoped. vsimpl.
      destruct (N.leb_spec size g); [|lia]. vsimpl.
      replace (ptr_add (Addr bn 0) size) with (Addr bn (N.of_nat (length xs1)))
        by (unfold ptr_add; f_equal; lia).
      rewrite (on_heap_Ok _ _ _ _ _ Ep). vsimpl.
      unfold try_catch. rewrite Hts. vsimpl.
      rewrite (on_heap_Ok _ _ _ _ _ Ed). vsimpl.
      unfold RawMemory.dtor, RawMemory.Deallocate, on_heap, operator_delete.
      cbn [RawMemory.buffer_ mem this]. rewrite update_block_lookup, N.eqb_refl.
      vsimpl. rewrite live_count_raw. reflexivity.
    + cbn. by rewrite Hl'.
    + cbn. rewrite Ht'. subst hC. cbn. by rewrite Ht, Hd, <- app_assoc.
    + intros Hp. cbn. rewrite delete_insert_eq. rewrite (Hcopy Hp). subst hC. cbn.
      rewrite Hd. fold bn. rewrite !delete_insert_eq. apply delete_id.
      unfold bn. rewrite <- Hd. apply fresh_block.
Qed.


Lemma set_slot_live_holds v h xs p x r :
  holds (State v h) xs →
  slot h p = Some (Some x) →
  ∃ xs1, holds (State v (set_slot p (Some r) h)) xs1 ∧ length xs1 = length xs.
Proof.
  intros Hh Hs. destruct p as [|b i]; [done|]. cbn in Hs.
  destruct (blocks h !! b) as [l|] eqn:El; [|done]. cbn in Hs.
  destruct v as [[buf cap] size].
  destruct (decide (buf = Addr b 0)) as [->|Hne].
  - destruct Hh as (Hsz & Hle & Hcap & _ & Eb). cbn in *.
    rewrite El in Eb. injection Eb as ->.
    unfold slots_of in Hs.
    destruct (decide (N.to_nat i < length xs)%nat) as [Hlt|Hge].
    + exists (<[N.to_nat i := r]> xs). rewrite length_insert. split; [|done].
      repeat split; cbn; [by rewrite length_insert|done..|].
      rewrite El. cbn. rewrite lookup_insert_eq. f_equal.
      unfold slots_of. rewrite length_insert, list_fmap_insert.
      by rewrite insert_app_l by (by rewrite length_fmap).
    + rewrite lookup_app_r in Hs by (rewrite length_fmap; lia).
      by apply lookup_replicate in Hs as [? _].
  - exists xs. split; [|done]. eapply holds_frame; [done|].
    cbn. intros b' i' ->. rewrite El. cbn.
    destruct Hh as (_ & _ & _ & Hb). cbn in Hb. destruct Hb as [-> _].
    apply lookup_insert_ne. congruence.
Qed.

(** Evaluating the constructor arguments leaves the vector well formed; it
    changes the store only when an object of the store is moved from. *)
Lemma construct_holds a v h xs y h1 :
  holds (State v h) xs →
  construct a h = Ok y h1 →
  (∃ xs1, holds (State v h1) xs1 ∧ length xs1 = length xs)
  ∧ ((∀ p, a ≠ move_of (inside p)) → h1 = h).
Proof.
  intros Hh. destruct a as [[x|p]|[x|p]|res]; cbn [construct]; msimpl.
  - destruct (copy_ctor x); msimpl; [|done]. intros [= _ <-]. eauto.
  - destruct (read p h) as [x h'|e h'|] eqn:E; [|done..].
    apply read_Ok in E as [-> _].
    destruct (copy_ctor x); msimpl; [|done]. intros [= _ <-]. eauto.
  - destruct (move_ctor x) as [[y' r]|]; msimpl; [|done]. intros [= _ <-]. eauto.
  - destruct (read p h) as [x h'|e h'|] eqn:E; [|done..].
    apply read_Ok in E as [-> Hs].
    destruct (move_ctor x) as [[y' r]|]; msimpl; [|done].
    unfold assign. rewrite Hs. msimpl. intros [= _ <-].
    split; [by eapply set_slot_live_holds|]. intros Hp. by destruct (Hp p).
  - destruct res; msimpl; [|done]. intros [= _ <-]. eauto.
Qed.

Lemma fits_or_bad_alloc n h :
  n ≠ 0 → n * sizeof < SIZE_MOD →
  fits n h ∨ RawMemory.ctor n h = Throw bad_alloc h.
Proof.
  intros Hn Hlt. unfold fits.
  destruct (N.le_gt_cases (n * sizeof) (N.min (limit h) PTRDIFF_MAX)); [by left|right].
  apply RawMemory_ctor_bad_alloc; [done|]. unfold size_mul. by rewrite wrap_small.
Qed.

Lemma grown_bytes v h xs :
  holds (State v h) xs →
  grown (size_ v) ≠ 0 ∧ grown (size_ v) * sizeof < SIZE_MOD.
Proof.
  intros Hh. pose proof (holds_bounds _ _ _ Hh) as [Hc Hs].
  destruct (grown_spec _ Hs) as [Hg Hlt]. split; [lia|].
  destruct Hh as (_ & Hle & Hcap & _). cbn in Hle, Hcap.
  pose proof PTRDIFF_MAX_lt. pose proof sizeof_max.
  assert (size_ v * sizeof ≤ RawMemory.capacity_ (data_ v) * sizeof)
    by (by apply N.mul_le_mono_r).
  destruct (N.eqb_spec (size_ v) 0); rewrite Hg; lia.
Qed.


Lemma bind_not_Ok {S A B} (m : M S A) (k : A → M S B) (s : S) :
  ¬ is_Ok (m s) → ¬ is_Ok ((m ≫= k) s).
Proof. rewrite bind_eq. destruct (m s); cbn; tauto. Qed.

Lemma then_throw_not_Ok {S A B} (m : M S A) e (s : S) :
  ¬ is_Ok ((m ≫= λ _, throw (A:=B) e) s).
Proof. rewrite bind_eq. destruct (m s); cbn; tauto. Qed.

Lemma scoped_not_Ok {A} local (body : M (state T) (A * RawMemory.t)) s :
  ¬ is_Ok (body s) → ¬ is_Ok (scoped local body s).
Proof.
  unfold scoped. destruct (body s) as [[a l] s'|e s'|]; [done| |done].
  intros _. apply then_throw_not_Ok.
Qed.

Lemma on_heap_not_Ok {A} (m : M (heap T) A) s :
  ¬ is_Ok (m (mem s)) → ¬ is_Ok (on_heap m s).
Proof. unfold on_heap. by destruct (m (mem s)). Qed.

Lemma on_store_not_Ok {A} f (o : outcome (heap T) A) :
  ¬ is_Ok o → ¬ is_Ok (on_store f o).
Proof. by destruct o. Qed.

(** [EmplaceBack] does not return when the constructor of the new element
    does not. *)
Lemma EmplaceBack_construct_fails a v h xs :
  holds (State v h) xs →
  ¬ is_Ok (construct a h) →
  ¬ is_Ok (EmplaceBack a (State v h)).
Proof.
  intros Hh Hc. destruct (grown_bytes _ _ _ Hh) as [Hg0 Hgb]. cbn in Hg0, Hgb.
  destruct v as [[buf cap] size]. cbn in Hg0, Hgb.
  unfold EmplaceBack. vsimpl.
  destruct (size =? cap).
  - apply bind_not_Ok. rewrite bind_eq.
    destruct (fits_or_bad_alloc (grown size) h Hg0 Hgb) as [Hfit|Hbad].
    + rewrite (on_heap_Ok _ _ _ _ _ (RawMemory_ctor_fits _ _ Hg0 Hfit)).
      apply scoped_not_Ok. vsimpl.
      destruct (size <=? grown size); vsimpl; [|cbn; tauto].
      apply bind_not_Ok, on_heap_not_Ok. cbn [mem].
      unfold placement_new. apply bind_not_Ok.
      rewrite construct_allocated. by apply on_store_not_Ok.
    + rewrite (on_heap_Throw _ _ _ _ _ Hbad). cbn. tauto.
  - vsimpl. destruct (size <=? cap); vsimpl; [|cbn; tauto].
    apply bind_not_Ok, on_heap_not_Ok. cbn [mem].
    unfold placement_new. by apply bind_not_Ok.
Qed.

(** Every normal return of [EmplaceBack]. *)
Lemma EmplaceBack_Ok_inv a s xs p s' :
  holds s xs →
  EmplaceBack a s = Ok p s' →
  ∃ y h1 xs1 ys,
    construct a (mem s) = Ok y h1
    ∧ holds (State (this s) h1) xs1 ∧ length xs1 = length xs
    ∧ ((∀ q, a ≠ move_of (inside q)) → h1 = mem s)
    ∧ holds s' (ys ++ [y])
    ∧ size_ (this s') = size_ (this s) + 1
    ∧ p = ptr_add (RawMemory.buffer_ (data_ (this s'))) (size_ (this s))
    ∧ (if size_ (this s) =? RawMemory.capacity_ (data_ (this s))
       then relocate xs1 = Some ys
            ∧ RawMemory.capacity_ (data_ (this s')) = grown (size_ (this s))
            ∧ fits (grown (size_ (this s))) (mem s)
       else ys = xs1 ∧ data_ (this s') = data_ (this s)).
Proof.
  destruct s as [v h]. intros Hh HOk. cbn [this mem].
  destruct (construct a h) as [y h1|e h1|] eqn:Ec;
    [|exfalso; eapply EmplaceBack_construct_fails;
      [done|rewrite Ec; cbn; tauto|rewrite HOk; exact I]..].
  destruct (construct_holds _ _ _ _ _ _ Hh Ec) as [(xs1 & Hh1 & Hlen) Hpure].
  destruct (grown_bytes _ _ _ Hh) as [Hg0 Hgb]. cbn in Hg0, Hgb.
  destruct v as [[buf cap] size]. cbn in Hg0, Hgb. cbn [this data_ size_ RawMemory.capacity_].
  destruct (N.eqb_spec size cap) as [<-|Hne].
  - destruct (fits_or_bad_alloc (grown size) h Hg0 Hgb) as [Hfit|Hbad].
    + pose proof (EmplaceBack_realloc _ _ _ _ _ _ _ Hfit Ec Hh1) as Hr. cbv zeta in Hr.
      destruct (relocate xs1) as [ys|] eqn:Hrel.
      * destruct Hr as (h' & Hr & Hh' & _). rewrite Hr in HOk. injection HOk as <- <-.
        exists y, h1, xs1, ys. cbn. by split_and!.
      * destruct Hr as (h' & Hr & _). by rewrite Hr in HOk.
    + exfalso. revert HOk. unfold EmplaceBack. vsimpl. rewrite N.eqb_refl. vsimpl.
      by rewrite (on_heap_Throw _ _ _ _ _ Hbad).
  - assert (Hlt : size < cap) by (destruct Hh as (_ & ? & _); cbn in *; lia).
    destruct (EmplaceBack_in_place _ _ _ _ _ _ _ _ Hlt Ec Hh1) as (b & -> & Hr).
    rewrite Hr in HOk. injection HOk as <- <-.
    exists y, h1, xs1, xs1. cbn. split_and!; try done.
    destruct Hh1 as (Hs1 & _ & Hc1 & _). cbn in Hs1, Hc1.
    split_and!; cbn; [rewrite length_app; cbn; lia|lia|done|].
    split; [done|]. apply update_block_lookup.
Qed.



Lemma noexcept_Ok {A} c (m : M (state T) A) s a s' :
  m s = Ok a s' → noexcept c m s = Ok a s'.
Proof. intros E. unfold noexcept. by rewrite E. Qed.

Lemma noexcept_not_Ok {A} c (m : M (state T) A) s :
  ¬ is_Ok (m s) → ¬ is_Ok (noexcept c m s).
Proof. unfold noexcept. destruct (m s); [done| |done]. by destruct c. Qed.

(** [PopBack] on a vector that is not empty. *)
Lemma PopBack_snoc v h xs x :
  holds (State v h) (xs ++ [x]) →
  ∃ b, RawMemory.buffer_ (data_ v) = Addr b 0 ∧
    PopBack (State v h)
    = Ok tt (State (Make (data_ v) (size_ v - 1))
                   (update_block b (slots_of xs (RawMemory.capacity_ (data_ v))) h))
    ∧ holds (State (Make (data_ v) (size_ v - 1))
                   (update_block b (slots_of xs (RawMemory.capacity_ (data_ v))) h)) xs.
Proof.
  intros Hh. pose proof (holds_bounds _ _ _ Hh) as [Hc1 Hc2].
  pose proof PTRDIFF_MAX_lt.
  destruct v as [[buf cap] size]. cbn in Hc1, Hc2 |- *.
  destruct Hh as (Hs & Hle & Hcap & Hb). cbn in Hs, Hle, Hcap, Hb.
  rewrite length_app in Hs. change (length [x]) with 1%nat in Hs.
  destruct buf as [|b i]; [cbn in Hb; exfalso; lia|]. destruct Hb as [-> Eb].
  exists b. split; [done|].
  assert (Eb' : blocks h !! b
                = Some ((Some <$> xs) ++ Some x :: replicate (N.to_nat cap - S (length xs)) None)).
  { rewrite Eb. by rewrite slots_of_snoc by lia. }
  split.
  - apply noexcept_Ok. vsimpl.
    destruct (N.ltb_spec 0 size); [|lia]. vsimpl.
    destruct (N.leb_spec size cap); [|lia]. vsimpl.
    replace (ptr_add (Addr b 0) size) with (Addr b (N.of_nat (S (length xs))))
      by (unfold ptr_add; f_equal; lia).
    unfold on_heap. cbn [mem this]. rewrite ptr_pred_succ. vsimpl.
    unfold destroy_n. change (N.to_nat 1) with 1%nat. cbn [destroy_loop]. msimpl.
    pose proof (destroy_at_middle _ _ _ _ _ Eb') as Hd. rewrite length_fmap in Hd.
    rewrite Hd. vsimpl. rewrite size_sub_small by lia.
    do 3 f_equal. by rewrite slots_of_raw by lia.
  - split_and!; cbn; [lia|lia|done|]. split; [done|]. apply update_block_lookup.
Qed.

Lemma PopBack_empty v h :
  size_ v = 0 → PopBack (State v h) = Crash.
Proof. intros E. unfold PopBack, noexcept. vsimpl. by rewrite E. Qed.


Lemma ptr_add_0 b (n : N) : ptr_add (Addr b 0) n = Addr b n.
Proof. unfold ptr_add. by rewrite N.add_0_l. Qed.

Lemma wrap_diff (a b : N) :
  b ≤ a → a < SIZE_MOD → wrap (a + SIZE_MOD - b) = a - b.
Proof.
  intros. unfold wrap. replace (a + SIZE_MOD - b) with ((a - b) + 1 * SIZE_MOD) by lia.
  rewrite N.Div0.mod_add. apply N.mod_small. lia.
Qed.

Lemma shift_left_length d xs ys z :
  shift_left d xs = Some (ys, z) → length ys = length xs.
Proof.
  revert d ys z. induction xs as [|x xs IH]; intros d ys z; cbn.
  - by intros [= <- _].
  - destruct (move_assign d x) as [[y r]|]; [|done]. cbn.
    destruct (shift_left r xs) as [[ys' z']|] eqn:E; [|done]. cbn.
    intros [= <- <-]. cbn. f_equal. eapply IH. exact E.
Qed.

(** [Erase] at the position of the element of index [p]. *)
Lemma Erase_at v h xs (p : nat) x :
  holds (State v h) xs →
  xs !! p = Some x →
  let pos := ptr_add (RawMemory.buffer_ (data_ v)) (N.of_nat p) in
  match shift_left x (drop (S p) xs) with
  | Some (ys, z) =>
      ∃ h', Erase pos (State v h) = Ok pos (State (Make (data_ v) (size_ v - 1)) h')
            ∧ holds (State (Make (data_ v) (size_ v - 1)) h') (take p xs ++ ys)
            ∧ limit h' = limit h ∧ trace h' = trace h
  | None => ¬ is_Ok (Erase pos (State v h))
  end.
Proof.
  intros Hh Hx pos. pose proof (holds_bounds _ _ _ Hh) as [Hc1 Hc2].
  pose proof PTRDIFF_MAX_lt.
  pose proof (lookup_lt_Some _ _ _ Hx) as Hp.
  destruct v as [[buf cap] size]. cbn in Hc1, Hc2, pos |- *.
  pose proof Hh as (Hs & Hle & Hcap & Hb). cbn in Hs, Hle, Hcap, Hb.
  destruct buf as [|b i]; [cbn in Hb; exfalso; lia|]. destruct Hb as [-> Eb].
  subst pos. rewrite ptr_add_0.
  assert (Exs : xs = take p xs ++ x :: drop (S p) xs) by (by rewrite take_drop_middle).
  assert (Hlt : length (take p xs) = p) by (rewrite length_take; lia).
  assert (Hld : length (drop (S p) xs) = (length xs - S p)%nat) by apply length_drop.
  set (pre := take p xs) in *. set (suf := drop (S p) xs) in *.
  assert (Eb' : blocks h !! b
                = Some ((Some <$> pre) ++ Some x :: (Some <$> suf)
                        ++ replicate (N.to_nat cap - length xs) None)).
  { rewrite Eb. unfold slots_of. rewrite Exs at 1.
    by rewrite fmap_app, fmap_cons, <- app_assoc, <- app_comm_cons. }
  pose proof (move_loop_spec h b (Some <$> pre) x suf _ Eb') as Hm.
  rewrite length_fmap, Hlt in Hm. cbv zeta in Hm.
  assert (Hpre : ∀ k : unit → M (state T) ptr,
    Erase (Addr b (N.of_nat p)) (State (Make (RawMemory.Make (Addr b 0) cap) size) h)
    = noexcept is_nothrow_move_assignable
        (on_heap (move_loop (Addr b (N.of_nat (S p))) (length suf) (Addr b (N.of_nat p)));;
         PopBack;;
         b ← begin;
         mret (ptr_add b (N.of_nat p)))
        (State (Make (RawMemory.Make (Addr b 0) cap) size) h)).
  { intros _. unfold Erase, noexcept. vsimpl. rewrite !ptr_add_0. cbn [ptr_le ptr_lt ptr_diff].
    rewrite !decide_True by done. vsimpl.
    destruct (N.leb_spec 0 (N.of_nat p)); [|lia].
    destruct (N.ltb_spec (N.of_nat p) size); [|lia]. vsimpl.
    cbn [ptr_diff]. rewrite decide_True by done. vsimpl.
    rewrite wrap_diff, N.sub_0_r by lia. rewrite ?ptr_add_0.
    rewrite decide_False by (intros [=]; lia).
    vsimpl. rewrite !ptr_add_0.
    unfold std_move, on_heap at 1. unfold ptr_add. cbn [mem this ptr_le ptr_diff].
    rewrite !decide_True by done. msimpl.
    destruct (N.leb_spec (N.of_nat p + 1) size); [|lia]. msimpl.
    rewrite wrap_diff by lia.
    replace (N.to_nat (size - (N.of_nat p + 1))) with (length suf) by lia.
    replace (N.of_nat p + 1) with (N.of_nat (S p)) by lia.
    unfold on_heap. cbn [mem this]. reflexivity. }
  rewrite (Hpre (λ _, crash)). clear Hpre.
  destruct (shift_left x suf) as [[ys z]|] eqn:Hsl.
  - pose proof (shift_left_length _ _ _ _ Hsl) as Hly.
    set (v := Make (RawMemory.Make (Addr b 0) cap) size).
    set (h1 := update_block b _ h) in Hm.
    assert (Hh1 : holds (State v h1) ((pre ++ ys) ++ [z])).
    { split_and!; cbn.
      - rewrite !length_app. cbn [length]. lia.
      - done.
      - done.
      - split; [done|]. rewrite lookup_insert_eq. f_equal.
        unfold slots_of. rewrite !fmap_app, <- !app_assoc. cbn [fmap list_fmap app].
        do 3 f_equal. rewrite !length_app. cbn [length]. f_equal. lia. }
    destruct (PopBack_snoc _ _ _ _ Hh1) as (b' & [= <-] & HP & Hh2).
    subst v. cbn [data_ size_ RawMemory.capacity_] in HP, Hh2.
    eexists. split; [|split].
    + apply noexcept_Ok. vsimpl. rewrite (on_heap_Ok _ _ _ _ _ Hm).
      rewrite bind_eq, HP. vsimpl. rewrite ptr_add_0. reflexivity.
    + exact Hh2.
    + by subst h1.
  - destruct Hm as (h' & Hm). apply noexcept_not_Ok, bind_not_Ok, on_heap_not_Ok.
    cbn [mem]. rewrite Hm. cbn. tauto.
Qed.


Lemma mapM_id_Some xs : mapM id (Some <$> xs) = Some xs.
Proof. apply mapM_fmap_Forall_Some. by apply Forall_true. Qed.

Lemma elements_prefix b cap size h xs rest :
  size = N.of_nat (length xs) →
  blocks h !! b = Some ((Some <$> xs) ++ rest) →
  elements (State (Make (RawMemory.Make (Addr b 0) cap) size) h) = Some xs.
Proof.
  intros -> E. unfold elements. cbn. rewrite E. cbn.
  rewrite Nat2N.id, drop_0, take_app_length' by (by rewrite length_fmap).
  rewrite decide_True by (by rewrite length_fmap). apply mapM_id_Some.
Qed.

Lemma holds_elements s xs : holds s xs → elements s = Some xs.
Proof.
  destruct s as [[[buf cap] size] h]. intros (Hs & Hle & Hcap & Hb). cbn in *.
  destruct buf as [|b i].
  - unfold elements. cbn. destruct xs; cbn in Hs; [|lia]. by subst.
  - destruct Hb as [-> Eb]. by eapply elements_prefix.
Qed.

(** A region too small for the objects to relocate: the relocation leaves
    the contract. *)
Lemma set_slot_length p o h b l :
  blocks h !! b = Some l →
  ∃ l', blocks (set_slot p o h) !! b = Some l' ∧ length l' = length l.
Proof.
  intros E. destruct p as [|c i]; [by eauto|]. cbn.
  destruct (blocks h !! c) as [l0|] eqn:Ec; [|by eauto]. cbn.
  destruct (decide (c = b)) as [->|Hne].
  - rewrite lookup_insert_eq. eexists. split; [done|].
    rewrite length_insert. congruence.
  - rewrite lookup_insert_ne by done. eauto.
Qed.

Lemma construct_at_Ok p y h h' b l :
  construct_at p y h = Ok tt h' →
  blocks h !! b = Some l →
  (∃ l', blocks h' !! b = Some l' ∧ length l' = length l)
  ∧ ∀ j, p = Addr b j → (N.to_nat j < length l)%nat.
Proof.
  unfold construct_at. destruct (slot h p) as [[x|]|] eqn:Es; [done| |done].
  intros [= <-] E. split; [by apply set_slot_length|].
  intros j ->. cbn in Es. rewrite E in Es. cbn in Es. by eapply lookup_lt_Some.
Qed.

Lemma handler_not_Ok {S A} (m : M S A) (cleanup : M S unit) (s : S) :
  ¬ is_Ok (m s) →
  ¬ is_Ok (try_catch m (λ e, cleanup;; throw e) s).
Proof.
  unfold try_catch. destruct (m s); [done| |done]. intros _. apply then_throw_not_Ok.
Qed.

Lemma uninitialized_copy_loop_overflow first n bd j h l :
  blocks h !! bd = Some l →
  (N.to_nat j ≤ length l < N.to_nat j + n)%nat →
  ¬ is_Ok (uninitialized_copy_loop first n (Addr bd j) h).
Proof.
  revert first j h l. induction n as [|n IH]; intros first j h l E Hlt; [lia|].
  cbn [uninitialized_copy_loop]. rewrite bind_eq.
  destruct (copy_construct_at (Addr bd j) first h) as [[] h'|e h'|] eqn:Ec;
    [|cbn; tauto..].
  apply handler_not_Ok.
  unfold copy_construct_at in Ec. rewrite bind_eq in Ec.
  destruct (read first h) as [x h0|e h0|] eqn:Er; [|done..].
  apply read_Ok in Er as [-> _]. rewrite bind_eq in Ec.
  destruct (copy_ctor x) as [y|]; msimpl_in Ec; [|done].
  destruct (construct_at_Ok _ _ _ _ _ _ Ec E) as [(l' & E' & Hl') Hj].
  specialize (Hj j eq_refl).
  eapply (IH _ (j + 1)); [exact E'|]. lia.
Qed.

Lemma assign_Ok_length p x h h' b l :
  assign p x h = Ok tt h' →
  blocks h !! b = Some l →
  ∃ l', blocks h' !! b = Some l' ∧ length l' = length l.
Proof.
  unfold assign. destruct (slot h p) as [[x'|]|] eqn:Es; [|done..].
  intros [= <-] E. by apply set_slot_length.
Qed.

Lemma uninitialized_move_loop_overflow first n bd j h l :
  blocks h !! bd = Some l →
  (N.to_nat j ≤ length l < N.to_nat j + n)%nat →
  ¬ is_Ok (uninitialized_move_loop first n (Addr bd j) h).
Proof.
  revert first j h l. induction n as [|n IH]; intros first j h l E Hlt; [lia|].
  cbn [uninitialized_move_loop]. rewrite bind_eq.
  destruct (move_construct_at (Addr bd j) first h) as [[] h'|e h'|] eqn:Ec;
    [|cbn; tauto..].
  apply handler_not_Ok.
  unfold move_construct_at in Ec. rewrite bind_eq in Ec.
  destruct (read first h) as [x h0|e h0|] eqn:Er; [|done..].
  apply read_Ok in Er as [-> _]. rewrite bind_eq in Ec.
  destruct (move_ctor x) as [[y r]|]; msimpl_in Ec; [|done].
  destruct (construct_at (Addr bd j) y h) as [[] h1|e h1|] eqn:Ec1; [|done..].
  destruct (construct_at_Ok _ _ _ _ _ _ Ec1 E) as [(l1 & E1 & Hl1) Hj].
  specialize (Hj j eq_refl).
  destruct (assign_Ok_length _ _ _ _ _ _ Ec E1) as (l' & E' & Hl').
  eapply (IH _ (j + 1)); [exact E'|]. lia.
Qed.


Lemma Reserve_enough n v h :
  n ≤ RawMemory.capacity_ (data_ v) →
  Reserve n (State v h) = Ok tt (State v h).
Proof.
  intros Hle. unfold Reserve. vsimpl. unfold RawMemory.Capacity.
  by destruct (N.leb_spec n (RawMemory.capacity_ (data_ v))); [|lia].
Qed.

Lemma holds_allocated_bytes v h xs bytes :
  holds (State v h) xs →
  holds (State v (allocated_bytes bytes h)) xs
  ∧ ∀ i, RawMemory.buffer_ (data_ v) ≠ Addr (fresh (dom (blocks h))) i.
Proof.
  intros Hh.
  assert (Hne : ∀ i, RawMemory.buffer_ (data_ v) ≠ Addr (fresh (dom (blocks h))) i).
  { intros i E. destruct Hh as (_ & _ & _ & Hb). cbn in Hb. rewrite E in Hb.
    destruct Hb as [_ Hb]. by rewrite fresh_block in Hb. }
  split; [|done]. eapply holds_frame; [done|]. intros b i E. cbn.
  apply lookup_insert_ne. intros <-. by eapply Hne.
Qed.

Lemma RawMemory_ctor_cases n h :
  n ≠ 0 →
  RawMemory.ctor n h
  = if N.min (limit h) PTRDIFF_MAX <? size_mul n sizeof then Throw bad_alloc h
    else Ok (RawMemory.Make (Addr (fresh (dom (blocks h))) 0) n)
            (allocated_bytes (size_mul n sizeof) h).
Proof.
  intros Hn. unfold RawMemory.ctor, RawMemory.Allocate. msimpl.
  destruct (N.eqb_spec n 0); [done|]. unfold operator_new.
  by destruct (_ <? _).
Qed.

Lemma TransferAndSwap_overflow b cap size h xs bn cap' l :
  holds (State (Make (RawMemory.Make (Addr b 0) cap) size) h) xs →
  blocks h !! bn = Some l →
  (length l < length xs)%nat →
  ¬ is_Ok (TransferAndSwap (RawMemory.Make (Addr bn 0) cap')
             (State (Make (RawMemory.Make (Addr b 0) cap) size) h)).
Proof.
  intros (Hs & _) E Hlt. cbn in Hs.
  unfold TransferAndSwap. vsimpl. apply bind_not_Ok.
  destruct (_ || _); vsimpl; apply on_heap_not_Ok; cbn [mem].
  - eapply uninitialized_move_loop_overflow; [done|]. lia.
  - eapply uninitialized_copy_loop_overflow; [done|]. lia.
Qed.

(** Every normal return of [Reserve] with a request above the capacity. *)
Lemma Reserve_grow_inv n v h xs s' :
  holds (State v h) xs →
  RawMemory.capacity_ (data_ v) < n →
  Reserve n (State v h) = Ok tt s' →
  ∃ ys,
    relocate xs = Some ys
    ∧ elements s' = Some ys
    ∧ size_ (this s') = size_ v
    ∧ RawMemory.capacity_ (data_ (this s')) = n
    ∧ (n * sizeof < SIZE_MOD → holds s' ys ∧ fits n h)
    ∧ ∃ bn, blocks h !! bn = None
            ∧ RawMemory.buffer_ (data_ (this s')) = Addr bn 0
            ∧ blocks (mem s') !! bn
              = Some (slots_of ys (size_mul n sizeof / sizeof)).
Proof.
  intros Hh Hlt. destruct v as [[buf cap] size]. cbn in Hlt.
  unfold Reserve. vsimpl. destruct (N.leb_spec n cap); [lia|].
  vsimpl. assert (Ector := RawMemory_ctor_cases n h ltac:(lia)).
  set (bytes := size_mul n sizeof) in *.
  destruct (N.ltb_spec (N.min (limit h) PTRDIFF_MAX) bytes) as [|Hfit];
    [by rewrite (on_heap_Throw _ _ _ _ _ Ector)|].
  rewrite (on_heap_Ok _ _ _ _ _ Ector).
  set (bn := fresh (dom (blocks h))). set (hA := allocated_bytes bytes h).
  set (k := N.to_nat (bytes / sizeof)).
  destruct (holds_allocated_bytes _ _ _ bytes Hh) as [HhA Hne].
  fold hA in HhA. fold bn in Hne. cbn in Hne.
  assert (EA : blocks hA !! bn = Some (replicate k None)) by apply lookup_insert_eq.
  unfold scoped. vsimpl.
  destruct (decide (length xs ≤ k)%nat) as [Hk|Hk].
  - assert (EA' : blocks hA !! bn
                  = Some (replicate (length xs) None ++ replicate (k - length xs) None)).
    { rewrite EA, <- replicate_add. do 2 f_equal. lia. }
    destruct (relocate xs) as [ys|] eqn:Hr.
    + rewrite (TransferAndSwap_Ok _ _ _ _ _ _ n _ _ HhA Hne EA' Hr). vsimpl.
      unfold RawMemory.dtor, RawMemory.Deallocate. cbn [RawMemory.buffer_].
      rewrite (on_heap_Ok _ _ _ _ _ (operator_delete_old _ _ _ _ _ _ _ HhA Hne)).
      vsimpl. intros [= <-]. exists ys. cbn [this data_ size_ RawMemory.capacity_].
      pose proof (relocate_length _ _ Hr) as Hlen.
      assert (Hsz : size = N.of_nat (length xs)) by apply Hh.
      assert (Eel : blocks (released buf (update_block bn
                       ((Some <$> ys) ++ replicate (k - length xs) None) hA)) !! bn
                    = Some ((Some <$> ys) ++ replicate (k - length xs) None)).
      { destruct buf as [|b i]; cbn.
        - apply lookup_insert_eq.
        - rewrite lookup_delete_ne by (intros ->; by eapply Hne).
          apply lookup_insert_eq. }
      split_and!; try done.
      * eapply elements_prefix; [|exact Eel]. lia.
      * intros Hno.
        assert (Hb : bytes = n * sizeof) by (by apply wrap_small).
        assert (Hkn : k = N.to_nat n).
        { subst k. rewrite Hb, N.div_mul; [done|]. pose proof sizeof_pos. lia. }
        split; [|unfold fits; lia].
        destruct Hh as (_ & Hle & _). cbn in Hle.
        split_and!; cbn; [lia|lia|lia|]. split; [done|].
        rewrite Eel. unfold slots_of. by rewrite Hlen, Hkn.
      * exists bn. split_and!; [apply fresh_block|done|].
        cbn [mem]. rewrite Eel. unfold slots_of. by rewrite Hlen.
    + destruct (TransferAndSwap_Throw _ _ _ _ _ _ n _ HhA Hne EA' Hr)
        as (h' & -> & _). vsimpl.
      by destruct (on_heap _ _).
  - destruct buf as [|b i].
    { apply holds_nullptr in Hh as (_ & _ & ->). cbn in Hk. lia. }
    assert (i = 0) as -> by apply Hh.
    intros HOk. exfalso.
    eapply (TransferAndSwap_overflow _ _ _ _ _ bn n _ HhA EA).
    { rewrite length_replicate. lia. }
    destruct (TransferAndSwap _ _) as [nd s1|e s1|]; [done|..].
    + revert HOk. vsimpl. by destruct (on_heap _ _).
    + done.
Qed.


Lemma ptr_add_nat b (n : nat) : ptr_add (Addr b 0) (N.of_nat n) = Addr b (N.of_nat n).
Proof. apply ptr_add_0. Qed.

Lemma destroy_n_live h b pre xs post :
  blocks h !! b = Some (pre ++ (Some <$> xs) ++ post) →
  destroy_n (Addr b (N.of_nat (length pre))) (N.of_nat (length xs)) h
  = Ok tt (update_block b (pre ++ replicate (length xs) None ++ post) h).
Proof. intros E. unfold destroy_n. rewrite Nat2N.id. by apply destroy_loop_live. Qed.

Lemma destroy_n_all buf cap size h xs :
  holds (State (Make (RawMemory.Make buf cap) size) h) xs →
  destroy_n buf size h = Ok tt (wiped buf cap h).
Proof.
  intros Hh. destruct buf as [|b i].
  - by apply holds_nullptr in Hh as (_ & -> & _).
  - destruct Hh as (Hs & Hle & _ & -> & Eb). cbn in *.
    rewrite Hs. change 0 with (N.of_nat (length (@nil (option T)))).
    rewrite (destroy_n_live h b [] xs _ Eb). cbn [app]. do 2 f_equal.
    rewrite <- replicate_add. f_equal. lia.
Qed.

Lemma operator_delete_wiped buf cap size h xs :
  holds (State (Make (RawMemory.Make buf cap) size) h) xs →
  operator_delete buf (wiped buf cap h) = Ok tt (released buf h).
Proof.
  intros Hh. destruct buf as [|b i]; [done|].
  destruct Hh as (_ & _ & _ & -> & Eb). cbn in *.
  rewrite lookup_insert_eq. cbn. rewrite live_count_raw.
  unfold released. cbn. by rewrite delete_insert_eq.
Qed.

(** The reallocating path of [Emplace], once the new region is obtained
    and the constructor arguments are evaluated. *)
Lemma Emplace_realloc a buf size h xs1 y h1 (p : nat) :
  let v := Make (RawMemory.Make buf size) size in
  let bn := fresh (dom (blocks h)) in
  let g := grown size in
  let v' := Make (RawMemory.Make (Addr bn 0) g) (size + 1) in
  let o := Emplace (ptr_add buf (N.of_nat p)) a (State v h) in
  fits g h →
  construct a h = Ok y h1 →
  holds (State v h1) xs1 →
  (p ≤ length xs1)%nat →
  match relocate (take p xs1), relocate (drop p xs1) with
  | Some ys1, Some ys2 =>
      ∃ h', o = Ok (Addr bn (N.of_nat p)) (State v' h')
            ∧ holds (State v' h') (ys1 ++ y :: ys2)
            ∧ limit h' = limit h
            ∧ trace h' = trace h ++ [EvNew (g * sizeof) (Addr bn 0); EvDelete buf 0]
  | None, _ =>
      if is_nothrow_move_constructible || negb is_copy_constructible
      then ¬ is_Ok o else o = Crash
  | Some ys1, None =>
      if is_nothrow_move_constructible || negb is_copy_constructible
      then ¬ is_Ok o
      else ∃ h', o = Throw element_exception (State v h')
                 ∧ blocks h' = blocks h1 ∧ limit h' = limit h
                 ∧ trace h' = trace h ++ [EvNew (g * sizeof) (Addr bn 0);
                                          EvDelete (Addr bn 0) 0]
  end.
Proof.
  intros v bn g v' o Hfit Ec Hh Hp. subst v v'.
  pose proof (holds_bounds _ _ _ Hh) as [Hc1 _]. cbn in Hc1.
  pose proof (grown_spec size Hc1) as [_ Hg]. fold g in Hg.
  pose proof (construct_Ok _ _ _ _ Ec) as (Hd & Hl & Ht).
  pose proof PTRDIFF_MAX_lt.
  assert (Hsz : size = N.of_nat (length xs1)) by apply Hh.
  assert (Ea : RawMemory.ctor g h = Ok (RawMemory.Make (Addr bn 0) g) (allocated g h))
    by (apply RawMemory_ctor_fits; [lia|done]).
  assert (Ec' : construct a (allocated g h) = Ok y (allocated g h1))
    by (by rewrite construct_allocated, Ec).
  assert (Ebn : blocks (allocated g h1) !! bn
                = Some (replicate p None
                        ++ None :: replicate (N.to_nat g - S p) None)).
  { unfold allocated, bn. cbn. rewrite Hd, lookup_insert_eq. f_equal.
    apply raw_split. lia. }
  pose proof (placement_new_Ok _ _ _ _ _ _ _ Ec' Ebn) as Ep.
  rewrite length_replicate in Ep.
  set (hC := update_block bn _ (allocated g h1)) in Ep.
  destruct (holds_allocated _ _ _ g Hh) as [Hh' Hne].
  rewrite Hd in Hne. fold bn in Hne. cbn in Hne.
  assert (HhC : holds (State (Make (RawMemory.Make buf size) size) hC) xs1).
  { eapply holds_frame; [exact Hh'|]. intros b i E. subst hC.
    apply update_block_lookup_ne. intros <-. by eapply Hne. }
  assert (EbC : blocks hC !! bn
                = Some (replicate p None ++ Some y :: replicate (N.to_nat g - S p) None))
    by apply update_block_lookup.
  (* the function up to the relocation *)
  assert (Hpos : ptr_diff (ptr_add buf (N.of_nat p)) buf = Some (N.of_nat p)).
  { unfold ptr_add. destruct buf as [|b i]; cbn.
    - apply holds_nullptr in Hh as (_ & _ & ->). cbn in Hp. f_equal. lia.
    - assert (i = 0) as -> by apply Hh.
      rewrite decide_True by done. f_equal. rewrite N.add_0_l, wrap_diff; lia. }
  remember o as o' eqn:Ho. subst o. unfold Emplace in Ho. vsimpl_in Ho.
  rewrite Hpos in Ho. vsimpl_in Ho. rewrite N.eqb_refl in Ho. vsimpl_in Ho.
  rewrite (on_heap_Ok _ _ _ _ _ Ea) in Ho. unfold scoped in Ho. vsimpl_in Ho.
  destruct (N.leb_spec (N.of_nat p) g); [|lia]. vsimpl_in Ho.
  rewrite ptr_add_0, (on_heap_Ok _ _ _ _ _ Ep) in Ho. vsimpl_in Ho.
  set (pre := take p xs1) in *. set (suf := drop p xs1) in *.
  assert (Hlp : length pre = p) by (subst pre; rewrite length_take; lia).
  assert (Hls : length suf = (length xs1 - p)%nat) by apply length_drop.
  assert (Hss : size_sub size (N.of_nat p) = N.of_nat (length suf))
    by (rewrite size_sub_small; lia).
  rewrite Hss in Ho.
  assert (Hg1 : (N.to_nat g - S p = length suf + (N.to_nat g - S (length xs1)))%nat) by lia.
  rewrite Hg1, replicate_add in EbC.
  replace (ptr_add (Addr bn (N.of_nat p)) 1) with (Addr bn (N.of_nat (S p))) in Ho
    by (unfold ptr_add; f_equal; lia).
  unfold uninitialized_move_n, uninitialized_copy_n in Ho. rewrite !Nat2N.id in Ho.
  match type of Ho with
  | _ = match match match ?R with _ => _ end with _ => _ end with _ => _ end =>
      set (RELOC := R) in Ho
  end.
  assert (Hreloc :
    match relocate pre, relocate suf with
    | Some ys1, Some ys2 =>
        ∃ hD rs, RELOC = Ok tt (State (Make (RawMemory.Make buf size) size) hD)
          ∧ holds (State (Make (RawMemory.Make buf size) size) hD) rs
          ∧ blocks hD !! bn
            = Some ((Some <$> ys1) ++ Some y :: (Some <$> ys2)
                    ++ replicate (N.to_nat g - S (length xs1)) None)
          ∧ limit hD = limit hC ∧ trace hD = trace hC
    | None, _ =>
        if is_nothrow_move_constructible || negb is_copy_constructible
        then ¬ is_Ok RELOC else RELOC = Crash
    | Some ys1, None =>
        if is_nothrow_move_constructible || negb is_copy_constructible
        then ¬ is_Ok RELOC
        else RELOC = Throw element_exception
                       (State (Make (RawMemory.Make buf size) size)
                              (update_block bn (replicate (N.to_nat g) None) hC))
    end).
  { subst RELOC. unfold relocate. unfold try_catch.
    destruct buf as [|b i].
    { (* an empty vector without storage *)
      apply holds_nullptr in HhC as HN. destruct HN as (_ & -> & ->).
      assert (p = 0)%nat as -> by (cbn in Hp; lia). cbn in EbC.
      destruct (_ || _); cbn; exists hC, []; by split_and!. }
    assert (i = 0) as -> by apply Hh.
    assert (Hbn : b ≠ bn) by (intros ->; by eapply Hne).
    assert (Es : blocks hC !! b
                 = Some ([] ++ (Some <$> pre) ++ ((Some <$> suf)
                         ++ replicate (N.to_nat size - length xs1) None))).
    { destruct HhC as (_ & _ & _ & _ & Eb).
      cbn [this mem data_ RawMemory.buffer_ RawMemory.capacity_] in Eb.
      rewrite Eb. unfold slots_of.
      subst pre suf. by rewrite <- (take_drop p xs1) at 1; rewrite fmap_app, <- app_assoc. }
    assert (Ed : blocks hC !! bn
                 = Some ([] ++ replicate (length pre) None
                         ++ (Some y :: replicate (length suf) None
                             ++ replicate (N.to_nat g - S (length xs1)) None)))
      by (by rewrite Hlp).
    destruct (_ || _); vsimpl.
    - (* relocation by move *)
      pose proof (uninitialized_move_loop_spec hC b bn [] pre _ [] _ Hbn Es Ed) as Hm1.
      rewrite Hlp in Hm1. cbv zeta in Hm1. change (N.of_nat (length [])) with 0 in Hm1.
      destruct (mapM move_ctor pre) as [yrs1|] eqn:Em1; cbn [fmap option_fmap option_map].
      2:{ destruct Hm1 as (h' & Hm1 & _). rewrite (on_heap_Throw _ _ _ _ _ Hm1). cbn. tauto. }
      match type of Hm1 with _ = Ok _ ?hh => set (hD1 := hh) in * end.
      rewrite (on_heap_Ok _ _ _ _ _ Hm1). vsimpl. rewrite ptr_add_0, ptr_add_succ.
      apply length_mapM in Em1 as Hl1. rewrite Hlp in Hl1.
      assert (Es2 : blocks hD1 !! b
                    = Some ((Some <$> yrs1.*2) ++ (Some <$> suf)
                            ++ replicate (N.to_nat size - length xs1) None)).
      { subst hD1. rewrite update_block_lookup_ne, update_block_lookup by done. done. }
      assert (Ed2 : blocks hD1 !! bn
                    = Some (((Some <$> yrs1.*1) ++ [Some y]) ++ replicate (length suf) None
                            ++ replicate (N.to_nat g - S (length xs1)) None)).
      { subst hD1. rewrite update_block_lookup. cbn [app]. by rewrite <- app_assoc. }
      pose proof (uninitialized_move_loop_spec hD1 b bn _ suf _ _ _ Hbn Es2 Ed2) as Hm2.
      rewrite length_app, !length_fmap, <- Hl1 in Hm2. cbn [length] in Hm2.
      rewrite Nat.add_1_r in Hm2. cbv zeta in Hm2.
      destruct (mapM move_ctor suf) as [yrs2|] eqn:Em2; cbn [fmap option_fmap option_map].
      2:{ destruct Hm2 as (h' & Hm2 & _). rewrite (on_heap_Throw _ _ _ _ _ Hm2). cbn. tauto. }
      rewrite (on_heap_Ok _ _ _ _ _ Hm2).
      apply length_mapM in Em2 as Hl2.
      eexists _, (yrs1.*2 ++ yrs2.*2). split; [done|]. split_and!.
      + destruct HhC as (? & ? & ? & _). split_and!; cbn in *.
        * rewrite length_app, !length_fmap. lia.
        * done.
        * done.
        * split; [done|]. rewrite lookup_insert_ne, lookup_insert_eq by done.
          f_equal. unfold slots_of. rewrite fmap_app, <- app_assoc.
          do 3 f_equal. rewrite length_app, !length_fmap. lia.
      + rewrite update_block_lookup. by rewrite <- app_assoc.
      + done.
      + done.
    - (* relocation by copy *)
      pose proof (uninitialized_copy_loop_spec hC b bn [] pre _ [] _ Hbn Es Ed) as Hm1.
      rewrite Hlp in Hm1. change (N.of_nat (length [])) with 0 in Hm1.
      destruct (mapM copy_ctor pre) as [ys1|] eqn:Em1.
      2:{ rewrite (on_heap_Throw _ _ _ _ _ Hm1). vsimpl.
          destruct p as [|p'].
          { destruct pre; [done|]. cbn in Hlp. lia. }
          unfold destroy_n. rewrite size_add_small by lia.
          replace (N.to_nat (N.of_nat (S p') + 1)) with (S (S p')) by lia.
          rewrite on_heap_Crash; [done|].
          change (Addr bn 0) with (Addr bn (N.of_nat (length (@nil (option T))))).
          eapply destroy_loop_raw. cbn [app]. rewrite EbC. done. }
      match type of Hm1 with _ = Ok _ ?hh => set (hD1 := hh) in * end.
      rewrite (on_heap_Ok _ _ _ _ _ Hm1). vsimpl. rewrite ptr_add_0, ptr_add_succ.
      apply length_mapM in Em1 as Hl1. rewrite Hlp in Hl1.
      assert (Es2 : blocks hD1 !! b
                    = Some ((Some <$> pre) ++ (Some <$> suf)
                            ++ replicate (N.to_nat size - length xs1) None)).
      { subst hD1. by rewrite update_block_lookup_ne. }
      assert (Ed2 : blocks hD1 !! bn
                    = Some (((Some <$> ys1) ++ [Some y]) ++ replicate (length suf) None
                            ++ replicate (N.to_nat g - S (length xs1)) None)).
      { subst hD1. rewrite update_block_lookup. cbn [app]. by rewrite <- app_assoc. }
      pose proof (uninitialized_copy_loop_spec hD1 b bn _ suf _ _ _ Hbn Es2 Ed2) as Hm2.
      rewrite length_app, !length_fmap, <- Hl1, Hlp in Hm2. cbn [length] in Hm2.
      rewrite Nat.add_1_r in Hm2.
      destruct (mapM copy_ctor suf) as [ys2|] eqn:Em2.
      + rewrite (on_heap_Ok _ _ _ _ _ Hm2).
        eexists _, xs1. split; [done|]. split_and!.
        * eapply holds_frame; [exact HhC|]. intros b' i' [= <- <-].
          subst hD1. by rewrite !update_block_lookup_ne.
        * rewrite update_block_lookup. by rewrite <- app_assoc.
        * done.
        * done.
      + rewrite (on_heap_Throw _ _ _ _ _ Hm2). vsimpl.
        rewrite size_add_small by lia.
        assert (Ed3 : blocks hD1 !! bn
                      = Some ([] ++ (Some <$> (ys1 ++ [y]))
                              ++ (replicate (length suf) None
                                  ++ replicate (N.to_nat g - S (length xs1)) None))).
        { rewrite Ed2. cbn [app]. by rewrite fmap_app. }
        pose proof (destroy_n_live _ _ _ _ _ Ed3) as Hdn.
        rewrite length_app, <- Hl1 in Hdn. cbn [length] in Hdn.
        change (N.of_nat 0) with 0 in Hdn.
        replace (N.of_nat (p + 1)) with (N.of_nat p + 1) in Hdn by lia.
        rewrite (on_heap_Ok _ _ _ _ _ Hdn). vsimpl. do 2 f_equal.
        subst hD1. rewrite update_block_twice. f_equal. cbn [app].
        rewrite <- !replicate_add. f_equal. lia. }
  clearbody RELOC.
  destruct (relocate pre) as [ys1|] eqn:Hr1; [destruct (relocate suf) as [ys2|] eqn:Hr2|].
  - destruct Hreloc as (hD & rs & -> & HhD & EbD & HlD & HtD).
    vsimpl_in Ho.
    rewrite (on_heap_Ok _ _ _ _ _ (destroy_n_all _ _ _ _ _ HhD)) in Ho. vsimpl_in Ho.
    unfold RawMemory.dtor, RawMemory.Deallocate in Ho. cbn [RawMemory.buffer_] in Ho.
    rewrite (on_heap_Ok _ _ _ _ _ (operator_delete_wiped _ _ _ _ _ HhD)) in Ho.
    vsimpl_in Ho. rewrite size_add_small in Ho by lia.
    destruct (N.leb_spec (N.of_nat p) g); [|lia]. vsimpl_in Ho.
    rewrite ptr_add_0 in Ho.
    eexists. split; [exact Ho|].
    pose proof (relocate_length _ _ Hr1) as Hl1.
    pose proof (relocate_length _ _ Hr2) as Hl2.
    split_and!.
    + split_and!; cbn.
      * rewrite length_app. cbn. lia.
      * lia.
      * unfold fits in Hfit. lia.
      * split; [done|].
        assert (E : blocks (released buf hD) !! bn = blocks hD !! bn).
        { destruct buf as [|b i]; [done|]. cbn.
          apply lookup_delete_ne. intros ->. by eapply Hne. }
        rewrite E, EbD. f_equal. unfold slots_of.
        rewrite fmap_app, fmap_cons, <- app_assoc, <- app_comm_cons.
        do 4 f_equal. rewrite length_app. cbn. lia.
    + destruct buf; cbn; by rewrite HlD.
    + destruct buf; cbn; rewrite HtD; subst hC; cbn; rewrite Ht, Hd, <- app_assoc; done.
  - destruct (_ || _).
    + intros HOk. apply Hreloc. subst o'.
      destruct RELOC as [[] s1|e s1|]; [done|..]; revert HOk; vsimpl.
      * by destruct (on_heap _ _).
      * done.
    + rewrite Hreloc in Ho. vsimpl_in Ho.
      unfold RawMemory.dtor, RawMemory.Deallocate, on_heap, operator_delete in Ho.
      cbn [RawMemory.buffer_ mem this] in Ho.
      rewrite update_block_lookup, N.eqb_refl in Ho. vsimpl_in Ho.
      rewrite live_count_raw in Ho.
      eexists. split; [exact Ho|]. cbn. split_and!.
      * rewrite delete_insert_eq. subst hC. cbn. rewrite Hd. fold bn.
        rewrite !delete_insert_eq. apply delete_id.
        unfold bn. rewrite <- Hd. apply fresh_block.
      * done.
      * subst hC. cbn. by rewrite Ht, Hd, <- app_assoc.
  - destruct (_ || _).
    + intros HOk. apply Hreloc. subst o'.
      destruct RELOC as [[] s1|e s1|]; [done|..]; revert HOk; vsimpl.
      * by destruct (on_heap _ _).
      * done.
    + by rewrite Hreloc in Ho.
Qed.


Lemma try_catch_not_Ok {S A} (m : M S A) (handler : exn → M S A) (s : S) :
  ¬ is_Ok (m s) →
  (∀ e (s' : S), ¬ is_Ok (handler e s')) →
  ¬ is_Ok (try_catch m handler s).
Proof. unfold try_catch. intros Hm Hh. destruct (m s); [done|apply Hh|done]. Qed.

Lemma shift_right_length rxs d z ys :
  shift_right rxs d = Some (z, ys) → length ys = length rxs.
Proof.
  revert d z ys. induction rxs as [|x rxs IH]; intros d z ys; cbn.
  - by intros [= _ <-].
  - destruct (move_assign d x) as [[y r]|]; [|done]. cbn.
    destruct (shift_right rxs r) as [[z' ys']|] eqn:E; [|done]. cbn.
    intros [= <- <-]. rewrite length_app. cbn. rewrite (IH _ _ _ E). lia.
Qed.

(** [Emplace] at the end of a vector with spare capacity. *)
Lemma Emplace_in_place_end a buf cap size h y h1 xs1 :
  size < cap →
  construct a h = Ok y h1 →
  holds (State (Make (RawMemory.Make buf cap) size) h1) xs1 →
  ∃ b,
    buf = Addr b 0 ∧
    Emplace (ptr_add buf size) a (State (Make (RawMemory.Make buf cap) size) h)
    = Ok (Addr b size)
         (State (Make (RawMemory.Make buf cap) (size + 1))
                (update_block b (slots_of (xs1 ++ [y]) cap) h1)).
Proof.
  intros Hlt Ec Hh.
  pose proof (holds_bounds _ _ _ Hh) as [Hc1 Hc2]. cbn in Hc1, Hc2.
  pose proof PTRDIFF_MAX_lt.
  destruct buf as [|b i].
  { apply holds_nullptr in Hh as (-> & -> & _). lia. }
  destruct Hh as (Hs & Hle & Hcap & -> & Eb). cbn in Hs, Hle, Hcap, Eb.
  exists b. split; [done|].
  unfold Emplace. vsimpl. rewrite ptr_add_0. cbn [ptr_diff].
  rewrite decide_True by done. vsimpl. rewrite wrap_diff, N.sub_0_r by lia.
  destruct (N.eqb_spec size cap) as [|_]; [lia|].
  vsimpl. rewrite ptr_add_0, decide_True by done. vsimpl.
  rewrite slots_of_raw in Eb by lia.
  assert (Hp : Addr b size = Addr b (N.of_nat (length (Some <$> xs1)))).
  { rewrite length_fmap. f_equal. lia. }
  rewrite ptr_add_0. rewrite Hp at 1.
  rewrite (on_heap_Ok _ _ _ _ _ (placement_new_Ok _ _ _ _ _ _ _ Ec Eb)).
  vsimpl. rewrite size_add_small by lia.
  destruct (N.leb_spec size cap); [|lia]. vsimpl.
  rewrite slots_of_snoc by lia. by rewrite ptr_add_0.
Qed.


(** [Emplace] before an element of a vector with spare capacity: the
    elements are [pre ++ mid ++ [xl]] and the position is that of the first
    element of [mid ++ [xl]]. *)
Lemma Emplace_in_place_middle a b cap size h y h1 pre mid xl :
  let v := Make (RawMemory.Make (Addr b 0) cap) size in
  let v' := Make (RawMemory.Make (Addr b 0) cap) (size + 1) in
  let pos := Addr b (N.of_nat (length pre)) in
  let o := Emplace pos a (State v h) in
  size < cap →
  construct a h = Ok y h1 →
  holds (State v h1) (pre ++ mid ++ [xl]) →
  match move_ctor xl with
  | None => ¬ is_Ok o
  | Some (yl, rl) =>
      match shift_right (rev mid) rl with
      | None => ¬ is_Ok o
      | Some (z, ys) =>
          match move_assign z y with
          | None => ¬ is_Ok o
          | Some (y', _) =>
              ∃ h', o = Ok pos (State v' h')
                    ∧ holds (State v' h') (pre ++ y' :: ys ++ [yl])
                    ∧ limit h' = limit h ∧ trace h' = trace h
          end
      end
  end.
Proof.
  intros v v' pos o Hlt Ec Hh. subst v v' pos.
  pose proof (holds_bounds _ _ _ Hh) as [Hc1 Hc2]. cbn in Hc1, Hc2.
  pose proof PTRDIFF_MAX_lt.
  pose proof (construct_Ok _ _ _ _ Ec) as (Hd & Hl & Ht).
  destruct Hh as (Hs & Hle & Hcap & _ & Eb). cbn in Hs, Hle, Hcap, Eb.
  rewrite !length_app in Hs. cbn [length] in Hs.
  set (p := length pre) in *. set (m := length mid) in *.
  set (raw := replicate (N.to_nat cap - S (p + (m + 1))) (@None T)).
  assert (Eb1 : blocks h1 !! b
                = Some ((Some <$> pre ++ mid) ++ Some xl :: None :: raw)).
  { rewrite Eb. rewrite (slots_of_raw _ cap) by (rewrite !length_app; cbn [length]; lia).
    rewrite !length_app. cbn [length]. fold p m raw.
    by rewrite !fmap_app, <- !app_assoc. }
  assert (Hlpm : length (Some <$> pre ++ mid) = (p + m)%nat)
    by (by rewrite length_fmap, length_app).
  assert (Hsize : size = N.of_nat (S (p + m))) by lia.
  (* the function up to the construction of the new last element *)
  remember o as o' eqn:Ho. subst o. unfold Emplace in Ho. vsimpl_in Ho.
  cbn [ptr_diff] in Ho. rewrite decide_True in Ho by done. vsimpl_in Ho.
  rewrite wrap_diff, N.sub_0_r in Ho by lia.
  destruct (N.eqb_spec size cap) as [|_]; [lia|]. vsimpl_in Ho.
  rewrite ptr_add_0, decide_False in Ho by (intros [=]; lia).
  vsimpl_in Ho. rewrite (on_heap_Ok _ _ _ _ _ Ec) in Ho. vsimpl_in Ho.
  rewrite size_sub_small in Ho by lia.
  destruct (N.ltb_spec (size - 1) cap); [|lia]. vsimpl_in Ho.
  rewrite !ptr_add_0 in Ho.
  replace (size - 1) with (N.of_nat (length (Some <$> pre ++ mid))) in Ho by lia.
  replace size with (N.of_nat (length ((Some <$> pre ++ mid) ++ [Some xl]))) in Ho at 1
    by (rewrite length_app; cbn [length]; lia).
  unfold move_construct_at in Ho at 1. unfold on_heap in Ho at 1.
  cbn [mem this] in Ho. rewrite bind_eq, (read_middle _ _ _ _ _ Eb1) in Ho.
  rewrite bind_eq in Ho.
  destruct (move_ctor xl) as [[yl rl]|]; msimpl_in Ho; [|subst o'; cbn; tauto].
  assert (Eb2 : blocks h1 !! b
                = Some (((Some <$> pre ++ mid) ++ [Some xl]) ++ None :: raw))
    by (by rewrite <- app_assoc).
  rewrite (construct_at_middle _ _ _ _ _ Eb2) in Ho.
  set (h2 := update_block b _ h1) in Ho.
  assert (Eb3 : blocks h2 !! b
                = Some ((Some <$> pre ++ mid) ++ Some xl :: Some yl :: raw)).
  { subst h2. rewrite update_block_lookup. by rewrite <- app_assoc. }
  rewrite (assign_middle _ _ _ _ rl _ Eb3) in Ho.
  set (h3 := update_block b _ h2) in Ho.
  assert (Eb4 : blocks h3 !! b
                = Some ((Some <$> pre) ++ (Some <$> rev (rev mid)) ++ Some rl :: Some yl :: raw)).
  { subst h3. rewrite update_block_lookup, rev_involutive.
    by rewrite fmap_app, <- app_assoc. }
  match type of Ho with
  | _ = match ?R with _ => _ end => set (TRY := R) in Ho
  end.
  assert (Htry :
    match shift_right (rev mid) rl with
    | None => ¬ is_Ok TRY
    | Some (z, ys) =>
        match move_assign z y with
        | None => ¬ is_Ok TRY
        | Some (y', _) =>
            TRY = Ok tt (State (Make (RawMemory.Make (Addr b 0) cap) size)
                      (update_block b
                         ((Some <$> pre) ++ Some y' :: (Some <$> ys) ++ Some yl :: raw) h3))
        end
    end).
  { subst TRY.
    assert (Hhandler : ∀ e s',
      ¬ is_Ok ((λ ex : exn,
                  (get_this ≫= λ v : t,
                     mret (ptr_add (RawMemory.GetAddress (data_ v)) (size_ v)))
                  ≫= λ e : ptr, on_heap (destroy_n e 1) ≫= λ _ : (), throw (A:=unit) ex)
               e s')).
    { intros e s'. vsimpl. apply then_throw_not_Ok. }
    pose proof (move_backward_loop_spec h3 b (Some <$> pre) (rev mid) rl _ Eb4) as Hmb.
    rewrite length_fmap, length_rev in Hmb. fold p m in Hmb. cbv zeta in Hmb.
    match goal with
    | |- context [try_catch ?body _ ?s] =>
        assert (Hbody : body s
          = (on_heap (move_backward_loop m (Addr b (N.of_nat (p + m)))
                        (Addr b (N.of_nat (S (p + m)))));;
             on_heap (x ← read (Addr b (N.of_nat p));
                      '(y', _) ← or_throw (move_assign x y);
                      assign (Addr b (N.of_nat p)) y')) s)
    end.
    { vsimpl. rewrite !ptr_add_0. rewrite Hsize at 1.
      unfold on_heap at 1. cbn [mem this]. rewrite ptr_pred_succ. vsimpl.
      unfold std_move_backward, on_heap at 1. cbn [mem this ptr_le ptr_diff].
      rewrite !decide_True by done. msimpl.
      destruct (N.leb_spec (N.of_nat p) (N.of_nat (p + m))); [|lia]. msimpl.
      rewrite wrap_diff by lia.
      replace (N.to_nat (N.of_nat (p + m) - N.of_nat p)) with m by lia.
      rewrite Hsize. unfold on_heap. cbn [mem this].
      destruct (move_backward_loop _ _ _ h3); [|reflexivity..].
      vsimpl. rewrite ?ptr_add_0. reflexivity. }
    destruct (shift_right (rev mid) rl) as [[z ys]|].
    2:{ apply try_catch_not_Ok; [|exact Hhandler]. rewrite Hbody.
        destruct Hmb as (h' & Hmb). apply bind_not_Ok, on_heap_not_Ok.
        cbn [mem]. rewrite Hmb. cbn. tauto. }
    assert (Hfin : (on_heap (x ← read (Addr b (N.of_nat p));
                      '(y', _) ← or_throw (move_assign x y);
                      assign (Addr b (N.of_nat p)) y'))
                     (State (Make (RawMemory.Make (Addr b 0) cap) size)
                        (update_block b
                           ((Some <$> pre) ++ Some z :: (Some <$> ys) ++ Some yl :: raw) h3))
                   = match move_assign z y with
                     | Some (y', _) =>
                         Ok tt (State (Make (RawMemory.Make (Addr b 0) cap) size)
                           (update_block b
                             ((Some <$> pre) ++ Some y' :: (Some <$> ys) ++ Some yl :: raw) h3))
                     | None =>
                         Throw element_exception
                           (State (Make (RawMemory.Make (Addr b 0) cap) size)
                              (update_block b
                                ((Some <$> pre) ++ Some z :: (Some <$> ys)
                                 ++ Some yl :: raw) h3))
                     end).
    { unfold on_heap. cbn [mem this]. msimpl.
      replace (N.of_nat p) with (N.of_nat (length (Some <$> pre)))
        by (by rewrite length_fmap).
      erewrite read_middle by apply update_block_lookup.
      destruct (move_assign z y) as [[y' r']|]; msimpl; [|done].
      erewrite assign_middle by apply update_block_lookup.
      by rewrite update_block_twice. }
    destruct (move_assign z y) as [[y' r']|].
    - unfold try_catch. rewrite Hbody. rewrite bind_eq, (on_heap_Ok _ _ _ _ _ Hmb).
      by rewrite Hfin.
    - apply try_catch_not_Ok; [|exact Hhandler]. rewrite Hbody.
      rewrite bind_eq, (on_heap_Ok _ _ _ _ _ Hmb). rewrite Hfin. cbn. tauto. }
  clearbody TRY.
  destruct (shift_right (rev mid) rl) as [[z ys]|] eqn:Hsr.
  2:{ subst o'. by destruct TRY. }
  destruct (move_assign z y) as [[y' r']|].
  2:{ subst o'. by destruct TRY. }
  rewrite Htry in Ho. vsimpl_in Ho. rewrite size_add_small in Ho by lia.
  destruct (N.leb_spec (N.of_nat p) cap); [|lia]. vsimpl_in Ho.
  rewrite ptr_add_0 in Ho.
  eexists. split; [exact Ho|].
  apply shift_right_length in Hsr. rewrite length_rev in Hsr.
  split_and!.
  - split_and!; cbn.
    + rewrite !length_app. cbn [length]. rewrite length_app. cbn [length]. lia.
    + lia.
    + done.
    + split; [done|]. rewrite lookup_insert_eq. f_equal.
      unfold slots_of. rewrite fmap_app, fmap_cons, fmap_app.
      repeat first [rewrite <- app_assoc | rewrite <- app_comm_cons].
      cbn [fmap list_fmap app]. do 5 f_equal.
      subst raw. f_equal. rewrite !length_app. cbn [length]. rewrite !length_app.
      cbn [length]. lia.
  - done.
  - done.
Qed.


(** [Emplace] does not return when the constructor of the new element
    does not. *)
Lemma Emplace_construct_fails a v h xs (p : nat) :
  holds (State v h) xs →
  (p ≤ length xs)%nat →
  ¬ is_Ok (construct a h) →
  ¬ is_Ok (Emplace (ptr_add (RawMemory.buffer_ (data_ v)) (N.of_nat p)) a (State v h)).
Proof.
  intros Hh Hp Hc. destruct (grown_bytes _ _ _ Hh) as [Hg0 Hgb]. cbn in Hg0, Hgb.
  destruct v as [[buf cap] size]. cbn in Hg0, Hgb |- *.
  unfold Emplace. vsimpl.
  destruct (ptr_diff _ _) as [np|]; vsimpl; [|cbn; tauto].
  destruct (size =? cap).
  - apply bind_not_Ok. rewrite bind_eq.
    destruct (fits_or_bad_alloc (grown size) h Hg0 Hgb) as [Hfit|Hbad].
    + rewrite (on_heap_Ok _ _ _ _ _ (RawMemory_ctor_fits _ _ Hg0 Hfit)).
      apply scoped_not_Ok. vsimpl.
      destruct (np <=? grown size); vsimpl; [|cbn; tauto].
      apply bind_not_Ok, on_heap_not_Ok. cbn [mem].
      unfold placement_new. apply bind_not_Ok.
      rewrite construct_allocated. by apply on_store_not_Ok.
    + rewrite (on_heap_Throw _ _ _ _ _ Hbad). cbn. tauto.
  - apply bind_not_Ok. vsimpl. destruct (decide _).
    + vsimpl. apply on_heap_not_Ok. cbn [mem].
      unfold placement_new. by apply bind_not_Ok.
    + by apply bind_not_Ok, on_heap_not_Ok.
Qed.

Section value_semantics.
Context `{!ValueSemantics T}.

Lemma mapM_copy_value xs ys : mapM copy_ctor xs = Some ys → ys = xs.
Proof.
  intros E%mapM_Some_1. induction E as [|x y xs ys E _ IH]; [done|].
  f_equal; [by eapply copy_ctor_value|done].
Qed.

Lemma mapM_move_value xs yrs : mapM move_ctor xs = Some yrs → yrs.*1 = xs.
Proof.
  intros E%mapM_Some_1. induction E as [|x [y r] xs ys E _ IH]; [done|].
  cbn. f_equal; [by eapply move_ctor_value|done].
Qed.

Lemma relocate_value xs ys : relocate xs = Some ys → ys = xs.
Proof.
  unfold relocate. destruct (_ || _).
  - destruct (mapM move_ctor xs) as [yrs|] eqn:E; [|done]. intros [= <-].
    by apply mapM_move_value.
  - apply mapM_copy_value.
Qed.

Lemma shift_left_value d xs ys z : shift_left d xs = Some (ys, z) → ys = xs.
Proof.
  revert d ys z. induction xs as [|x xs IH]; intros d ys z; cbn.
  - by intros [= <- _].
  - destruct (move_assign d x) as [[y r]|] eqn:Ea; [|done]. cbn.
    destruct (shift_left r xs) as [[ys' z']|] eqn:E; [|done]. cbn.
    intros [= <- _]. f_equal; [by eapply move_assign_value|by eapply IH].
Qed.

Lemma shift_right_value rxs d z ys : shift_right rxs d = Some (z, ys) → ys = rev rxs.
Proof.
  revert d z ys. induction rxs as [|x rxs IH]; intros d z ys; cbn.
  - by intros [= _ <-].
  - destruct (move_assign d x) as [[y r]|] eqn:Ea; [|done]. cbn.
    destruct (shift_right rxs r) as [[z' ys']|] eqn:E; [|done]. cbn.
    intros [= _ <-]. f_equal; [by eapply IH|].
    f_equal. by eapply move_assign_value.
Qed.

Lemma snoc_cases {A} (l : list A) : l = [] ∨ ∃ l' x, l = l' ++ [x].
Proof. induction l using rev_ind; eauto. Qed.

(** Every normal return of [Emplace] at the position of index [p]. *)
Lemma Emplace_Ok_inv a s xs (p : nat) r s' :
  holds s xs →
  (p ≤ length xs)%nat →
  Emplace (ptr_add (RawMemory.buffer_ (data_ (this s))) (N.of_nat p)) a s = Ok r s' →
  ∃ y h1 xs1,
    construct a (mem s) = Ok y h1
    ∧ holds (State (this s) h1) xs1 ∧ length xs1 = length xs
    ∧ ((∀ q, a ≠ move_of (inside q)) → h1 = mem s)
    ∧ holds s' (take p xs1 ++ y :: drop p xs1)
    ∧ size_ (this s') = size_ (this s) + 1
    ∧ r = ptr_add (RawMemory.buffer_ (data_ (this s'))) (N.of_nat p)
    ∧ (if size_ (this s) =? RawMemory.capacity_ (data_ (this s))
       then RawMemory.capacity_ (data_ (this s')) = grown (size_ (this s))
            ∧ fits (grown (size_ (this s))) (mem s)
            ∧ is_Some (relocate (take p xs1))
            ∧ is_Some (relocate (drop p xs1))
       else data_ (this s') = data_ (this s)).
Proof.
  destruct s as [v h]. intros Hh Hp HOk. cbn [this mem] in *.
  destruct (construct a h) as [y h1|e h1|] eqn:Ec;
    [|exfalso; eapply Emplace_construct_fails;
      [done|done|rewrite Ec; cbn; tauto|rewrite HOk; exact I]..].
  destruct (construct_holds _ _ _ _ _ _ Hh Ec) as [(xs1 & Hh1 & Hlen) Hpure].
  destruct (grown_bytes _ _ _ Hh) as [Hg0 Hgb]. cbn in Hg0, Hgb.
  destruct v as [[buf cap] size]. cbn in Hg0, Hgb.
  cbn [this data_ size_ RawMemory.capacity_ RawMemory.buffer_] in *.
  rewrite <- Hlen in Hp.
  assert (Hsz : size = N.of_nat (length xs1)) by apply Hh1.
  exists y, h1, xs1.
  destruct (N.eqb_spec size cap) as [<-|Hne].
  - destruct (fits_or_bad_alloc (grown size) h Hg0 Hgb) as [Hfit|Hbad].
    + pose proof (Emplace_realloc _ _ _ _ _ _ _ p Hfit Ec Hh1 Hp) as Hr. cbv zeta in Hr.
      destruct (relocate (take p xs1)) as [ys1|] eqn:Hr1;
        [destruct (relocate (drop p xs1)) as [ys2|] eqn:Hr2|].
      * destruct Hr as (h' & Hr & Hh' & _). rewrite Hr in HOk. injection HOk as <- <-.
        pose proof (relocate_value _ _ Hr1) as ->.
        pose proof (relocate_value _ _ Hr2) as ->.
        cbn. split_and!; by eauto.
      * exfalso. destruct (_ || _).
        -- apply Hr. by rewrite HOk.
        -- destruct Hr as (h' & Hr & _). by rewrite Hr in HOk.
      * exfalso. destruct (_ || _).
        -- apply Hr. by rewrite HOk.
        -- by rewrite Hr in HOk.
    + exfalso. revert HOk. unfold Emplace. vsimpl.
      destruct (ptr_diff _ _); vsimpl; [|done]. rewrite N.eqb_refl. vsimpl.
      by rewrite (on_heap_Throw _ _ _ _ _ Hbad).
  - assert (Hlt : size < cap) by (destruct Hh as (_ & ? & _); cbn in *; lia).
    destruct (decide (p = length xs1)) as [->|Hpn].
    + destruct (Emplace_in_place_end _ _ _ _ _ _ _ _ Hlt Ec Hh1) as (b & -> & Hr).
      rewrite <- Hsz, Hr in HOk. injection HOk as <- <-.
      rewrite take_ge, drop_ge by lia. cbn. split_and!; try done.
      * destruct Hh1 as (Hs1 & _ & Hc1 & _). cbn in Hs1, Hc1.
        split_and!; cbn; [rewrite length_app; cbn; lia|lia|done|].
        split; [done|]. apply lookup_insert_eq.
      * rewrite ptr_add_0. f_equal. lia.
    + destruct buf as [|b i].
      { apply holds_nullptr in Hh1 as (_ & _ & ->). cbn in Hp, Hpn. lia. }
      assert (i = 0) as -> by apply Hh1.
      destruct (snoc_cases (drop p xs1)) as [Hdrop|(mid & xl & Hdrop)].
      { apply (f_equal length) in Hdrop. rewrite length_drop in Hdrop. cbn in Hdrop. lia. }
      assert (Hlpre : length (take p xs1) = p) by (rewrite length_take; lia).
      assert (Exs : xs1 = take p xs1 ++ mid ++ [xl]) by (by rewrite <- Hdrop, take_drop).
      set (pre := take p xs1) in *. clearbody pre. clear Hdrop. subst xs1.
      pose proof (Emplace_in_place_middle a b cap size h y h1 _ _ _ Hlt Ec Hh1) as Hr.
      cbv zeta in Hr. rewrite Hlpre in Hr.
      rewrite ptr_add_0 in HOk.
      destruct (move_ctor xl) as [[yl rl]|] eqn:E1; [|by rewrite HOk in Hr].
      destruct (shift_right (rev mid) rl) as [[z ys]|] eqn:E2; [|by rewrite HOk in Hr].
      destruct (move_assign z y) as [[y' r']|] eqn:E3; [|by rewrite HOk in Hr].
      destruct Hr as (h' & Hr & Hh' & _). rewrite Hr in HOk. injection HOk as <- <-.
      apply move_ctor_value in E1 as ->. apply shift_right_value in E2 as ->.
      apply move_assign_value in E3 as ->. rewrite rev_involutive in Hh'.
      rewrite drop_app_length' by done.
      cbn. by split_and!.
Qed.

End value_semantics.

End vector_facts.

(** ** The claims *)

Section claims.
Context {T : Type} `{Element T} `{!ElementLaws T}.
Implicit Types (h : heap T) (xs ys : list T) (s : state T).

Lemma holds_inj s xs ys : holds s xs → holds s ys → xs = ys.
Proof. intros H1%holds_elements H2%holds_elements. congruence. Qed.

Lemma holds_slot s xs (i : nat) x :
  holds s xs → xs !! i = Some x →
  slot (mem s) (ptr_add (RawMemory.buffer_ (data_ (this s))) (N.of_nat i)) = Some (Some x).
Proof.
  destruct s as [[[buf cap] size] h]. intros (Hs & Hle & _ & Hb) Hx. cbn in *.
  apply lookup_lt_Some in Hx as Hi.
  destruct buf as [|b j]; [lia|]. destruct Hb as [-> Eb].
  rewrite ptr_add_0. cbn. rewrite Eb. cbn. rewrite Nat2N.id.
  unfold slots_of. rewrite lookup_app_l by (by rewrite length_fmap).
  by rewrite list_lookup_fmap, Hx.
Qed.

Lemma construct_copy_of value h y h1 :
  construct (copy_of value) h = Ok y h1 →
  h1 = h ∧ ∃ x, referent h value = Some x ∧ copy_ctor x = Some y.
Proof.
  destruct value as [x|q]; cbn [construct referent].
  - destruct (copy_ctor x) as [y'|] eqn:E; msimpl; [|done]. intros [= <- <-]. eauto.
  - msimpl. destruct (read q h) as [x h'|e h'|] eqn:Er; [|done..].
    apply read_Ok in Er as [-> Es]. rewrite Es. cbn.
    destruct (copy_ctor x) as [y'|] eqn:E; msimpl; [|done]. intros [= <- <-]. eauto.
Qed.

Lemma construct_copy_of_Ok value h x y :
  referent h value = Some x → copy_ctor x = Some y →
  construct (copy_of value) h = Ok y h.
Proof.
  destruct value as [x'|q]; cbn [construct referent].
  - intros [= ->] ->. done.
  - intros Hs Hc. msimpl. unfold read.
    destruct (slot h q) as [[x'|]|]; cbn in Hs; [|done..].
    injection Hs as ->. by rewrite Hc.
Qed.

Lemma holds_State s xs : holds s xs ↔ holds (State (this s) (mem s)) xs.
Proof. by destruct s. Qed.

Lemma PushBack_Ok value s s' :
  PushBack value s = Ok tt s' ↔ ∃ p, EmplaceBack (copy_of value) s = Ok p s'.
Proof.
  unfold PushBack. rewrite bind_eq.
  destruct (EmplaceBack _ _) as [p s1|e s1|]; cbn; split.
  - intros [= <-]. eauto.
  - by intros (? & [= _ <-]).
  - done.
  - by intros (? & ?).
  - done.
  - by intros (? & ?).
Qed.




Lemma non_decreasing_cons a l :
  non_decreasing (a :: l) ↔ match l with [] => True | b :: _ => a ≤ b ∧ non_decreasing l end.
Proof. by destruct l. Qed.

Lemma mapM_total {A B} (f : A → option B) (l : list A) :
  (∀ x, is_Some (f x)) → is_Some (mapM f l).
Proof. intros Hf. apply mapM_is_Some, Forall_forall. intros x _. apply Hf. Qed.

Lemma relocate_total xs : infallible T → is_Some (relocate xs).
Proof.
  intros (Hc & Hm & _). unfold relocate. destruct (_ || _).
  - destruct (mapM_total move_ctor xs Hm) as [yrs ->]. by eexists.
  - by apply mapM_total.
Qed.

Lemma shift_left_total d xs :
  (∀ d x : T, is_Some (move_assign d x)) → is_Some (shift_left d xs).
Proof.
  intros Ha. revert d. induction xs as [|x xs IH]; intros d; cbn; [by eauto|].
  destruct (Ha d x) as [[y r] ->]. cbn.
  destruct (IH r) as [[ys z] ->]. cbn. by eauto.
Qed.


(** [EmplaceBack] returns when the constructor of the new element
    returns and, if the vector is full, the store serves the request and
    the relocation of the elements does not throw. *)
Lemma EmplaceBack_returns a s xs :
  holds s xs →
  is_Ok (construct a (mem s)) →
  (size_ (this s) = RawMemory.capacity_ (data_ (this s)) →
   fits (grown (size_ (this s))) (mem s) ∧ ∀ xs1, is_Some (relocate xs1)) →
  is_Ok (EmplaceBack a s).
Proof.
  destruct s as [[[buf cap] size] h]. cbn [this mem data_ size_ RawMemory.capacity_].
  intros Hh Hc Hfull.
  destruct (construct a h) as [y h1|e h1|] eqn:Ec; [|done..].
  destruct (construct_holds _ _ _ _ _ _ Hh Ec) as [(xs1 & Hh1 & Hlen) _].
  destruct (decide (size = cap)) as [<-|Hne].
  - destruct (Hfull eq_refl) as [Hfit Hrel].
    pose proof (EmplaceBack_realloc _ _ _ _ _ _ _ Hfit Ec Hh1) as Hr. cbv zeta in Hr.
    destruct (Hrel xs1) as [ys Hys]. rewrite Hys in Hr.
    destruct Hr as (h' & -> & _). exact I.
  - assert (Hlt : size < cap) by (destruct Hh as (_ & ? & _); cbn in *; lia).
    destruct (EmplaceBack_in_place _ _ _ _ _ _ _ _ Hlt Ec Hh1) as (b & _ & ->). exact I.
Qed.


(** With [n] above the capacity, [Reserve(n)] returns when the request is
    served and the relocation of the elements does not throw. *)
Lemma Reserve_returns n s xs :
  holds s xs →
  RawMemory.capacity_ (data_ (this s)) < n →
  fits n (mem s) →
  is_Some (relocate xs) →
  is_Ok (Reserve n s).
Proof.
  destruct s as [[[buf cap] size] h]. cbn [this mem data_ RawMemory.capacity_].
  intros Hh Hlt Hfit [ys Hr].
  destruct (holds_allocated _ _ _ n Hh) as [HhA Hne]. cbn in Hne.
  assert (Hsz : size = N.of_nat (length xs)) by apply Hh.
  assert (Hle : size ≤ cap) by apply Hh.
  assert (EA : blocks (allocated n h) !! fresh (dom (blocks h))
               = Some (replicate (length xs) None
                       ++ replicate (N.to_nat n - length xs) None)).
  { unfold allocated. cbn. rewrite lookup_insert_eq, <- replicate_add. do 2 f_equal. lia. }
  unfold Reserve. vsimpl. destruct (N.leb_spec n cap); [lia|]. vsimpl.
  assert (Hn0 : n ≠ 0) by lia.
  rewrite (on_heap_Ok _ _ _ _ _ (RawMemory_ctor_fits _ _ Hn0 Hfit)).
  unfold scoped. vsimpl.
  rewrite (TransferAndSwap_Ok _ _ _ _ _ _ n _ _ HhA Hne EA Hr). vsimpl.
  unfold RawMemory.dtor, RawMemory.Deallocate. cbn [RawMemory.buffer_].
  rewrite (on_heap_Ok _ _ _ _ _ (operator_delete_old _ _ _ _ _ _ _ HhA Hne)).
  by vsimpl.
Qed.



(** ** Failure of the copy fallback *)

(** The paths on which the code gives the strong guarantee: the new
    region is released with no object left in it and the rest of the free
    store is as before the relocation. *)
Lemma EmplaceBack_copy_failure a s xs y h1 xs1 :
  holds s xs →
  size_ (this s) = RawMemory.capacity_ (data_ (this s)) →
  fits (grown (size_ (this s))) (mem s) →
  is_nothrow_move_constructible || negb is_copy_constructible = false →
  construct a (mem s) = Ok y h1 →
  holds (State (this s) h1) xs1 →
  relocate xs1 = None →
  ∃ h' bn,
    EmplaceBack a s = Throw element_exception (State (this s) h')
    ∧ holds (State (this s) h') xs1
    ∧ blocks h' = blocks h1
    ∧ trace h' = trace (mem s) ++ [EvNew (grown (size_ (this s)) * sizeof) (Addr bn 0);
                                   EvDelete (Addr bn 0) 0].
Proof.
  destruct s as [[[buf cap] size] h].
  cbn [this mem data_ size_ RawMemory.capacity_].
  intros Hh <- Hfit Hcopy Ec Hh1 Hr.
  pose proof (EmplaceBack_realloc _ _ _ _ _ _ _ Hfit Ec Hh1) as HE. cbv zeta in HE.
  rewrite Hr in HE. destruct HE as (h' & HE & _ & Ht & Hb).
  exists h', (fresh (dom (blocks h))). split_and!; [done| |by apply Hb|done].
  eapply holds_frame; [exact Hh1|]. intros b i _. by rewrite (Hb Hcopy).
Qed.

Lemma Emplace_suffix_copy_failure a s xs (p : nat) y h1 xs1 :
  holds s xs →
  size_ (this s) = RawMemory.capacity_ (data_ (this s)) →
  fits (grown (size_ (this s))) (mem s) →
  is_nothrow_move_constructible || negb is_copy_constructible = false →
  construct a (mem s) = Ok y h1 →
  holds (State (this s) h1) xs1 →
  (p ≤ length xs1)%nat →
  is_Some (relocate (take p xs1)) →
  relocate (drop p xs1) = None →
  ∃ h' bn,
    Emplace (ptr_add (RawMemory.buffer_ (data_ (this s))) (N.of_nat p)) a s
    = Throw element_exception (State (this s) h')
    ∧ holds (State (this s) h') xs1
    ∧ blocks h' = blocks h1
    ∧ trace h' = trace (mem s) ++ [EvNew (grown (size_ (this s)) * sizeof) (Addr bn 0);
                                   EvDelete (Addr bn 0) 0].
Proof.
  destruct s as [[[buf cap] size] h].
  cbn [this mem data_ size_ RawMemory.capacity_ RawMemory.buffer_].
  intros Hh <- Hfit Hcopy Ec Hh1 Hp [ys1 Hr1] Hr2.
  pose proof (Emplace_realloc _ _ _ _ _ _ _ p Hfit Ec Hh1 Hp) as HE. cbv zeta in HE.
  rewrite Hr1, Hr2, Hcopy in HE. destruct HE as (h' & HE & Hb & _ & Ht).
  exists h', (fresh (dom (blocks h))). split_and!; [done| |done..].
  eapply holds_frame; [exact Hh1|]. intros b i _. by rewrite Hb.
Qed.

Lemma Reserve_copy_failure n s xs :
  holds s xs →
  RawMemory.capacity_ (data_ (this s)) < n →
  fits n (mem s) →
  is_nothrow_move_constructible || negb is_copy_constructible = false →
  relocate xs = None →
  ∃ h' bn,
    Reserve n s = Throw element_exception (State (this s) h')
    ∧ holds (State (this s) h') xs
    ∧ blocks h' = blocks (mem s)
    ∧ trace h' = trace (mem s) ++ [EvNew (n * sizeof) (Addr bn 0); EvDelete (Addr bn 0) 0].
Proof.
  destruct s as [[[buf cap] size] h]. cbn [this mem data_ RawMemory.capacity_].
  intros Hh Hlt Hfit Hcopy Hr.
  destruct (holds_allocated _ _ _ n Hh) as [HhA Hne]. cbn in Hne.
  assert (Hsz : size = N.of_nat (length xs)) by apply Hh.
  assert (Hle : size ≤ cap) by apply Hh.
  set (bn := fresh (dom (blocks h))) in *.
  assert (EA : blocks (allocated n h) !! bn
               = Some (replicate (length xs) None
                       ++ replicate (N.to_nat n - length xs) None)).
  { unfold allocated. cbn. rewrite lookup_insert_eq, <- replicate_add. do 2 f_equal. lia. }
  destruct (TransferAndSwap_Throw _ _ _ _ _ _ n _ HhA Hne EA Hr)
    as (h' & Hts & _ & _ & _ & Hsame).
  rewrite (Hsame Hcopy) in Hts. clear h' Hsame.
  assert (Eb : blocks h = delete bn (<[bn := replicate (N.to_nat n) None]> (blocks h))).
  { rewrite delete_insert_eq. symmetry. apply delete_id, fresh_block. }
  exists (Heap (blocks h) (limit h)
            (trace h ++ [EvNew (n * sizeof) (Addr bn 0); EvDelete (Addr bn 0) 0])), bn.
  split_and!; [|eapply holds_frame; [exact Hh|by intros]|done..].
  unfold Reserve. vsimpl. destruct (N.leb_spec n cap); [lia|]. vsimpl.
  assert (Hn0 : n ≠ 0) by lia.
  rewrite (on_heap_Ok _ _ _ _ _ (RawMemory_ctor_fits _ _ Hn0 Hfit)).
  unfold scoped. vsimpl. fold bn. rewrite Hts. vsimpl.
  unfold RawMemory.dtor, RawMemory.Deallocate, on_heap, operator_delete.
  cbn [RawMemory.buffer_ mem this]. unfold allocated at 1. cbn [blocks]. fold bn.
  rewrite lookup_insert_eq, N.eqb_refl. vsimpl. rewrite live_count_raw.
  unfold allocated. cbn [blocks trace limit]. fold bn.
  by rewrite <- Eb, <- app_assoc.
Qed.

(** A copy that throws makes the copy of the whole range throw. *)
Lemma mapM_lookup_None {A B} (f : A → option B) (l : list A) (i : nat) x :
  l !! i = Some x → f x = None → mapM f l = None.
Proof.
  intros Hl Hf. destruct (mapM f l) as [k|] eqn:E; [|done].
  assert (Hall : Forall (is_Some ∘ f) l) by (apply mapM_is_Some; by eexists).
  rewrite Forall_lookup in Hall. apply Hall in Hl as [y Hy]. cbn in Hy. congruence.
Qed.

(** ** Growth *)





(** C2, on the path where the code does not give the guarantee.  A full
    vector of a type that is relocated by copy, and [Emplace] at offset
    [p] with arguments whose evaluation returns: when the copy of an
    element before the insertion point throws, [uninitialized_copy_n]
    has destroyed what it had constructed, and the handler then destroys
    [p + 1] objects from the start of the new region, where none is
    alive.  The call neither returns nor propagates the exception with
    the vector as it was. *)
Theorem Emplace_prefix_copy_failure a s xs (p i : nat) y z :
  holds s xs →
  size_ (this s) = RawMemory.capacity_ (data_ (this s)) →
  fits (grown (size_ (this s))) (mem s) →
  is_nothrow_move_constructible || negb is_copy_constructible = false →
  construct a (mem s) = Ok y (mem s) →
  (i < p ≤ length xs)%nat →
  xs !! i = Some z →
  copy_ctor z = None →
  Emplace (ptr_add (RawMemory.buffer_ (data_ (this s))) (N.of_nat p)) a s = Crash.
Proof.
  destruct s as [[[buf cap] size] h].
  cbn [this mem data_ size_ RawMemory.capacity_ RawMemory.buffer_].
  intros Hh <- Hfit Hcopy Ec [Hi Hp] Hz Hthrow.
  pose proof (Emplace_realloc _ _ _ _ _ _ _ p Hfit Ec Hh Hp) as HE. cbv zeta in HE.
  assert (Hr : relocate (take p xs) = None).
  { unfold relocate. rewrite Hcopy.
    apply (mapM_lookup_None _ _ i z); [|done]. by rewrite lookup_take_lt. }
  by rewrite Hr, Hcopy in HE.
Qed.

Section with_values.
Context `{!ValueSemantics T}.

(** C1. Appending an element of the vector itself to a full vector:
    [PushBack(v[i])] when size equals capacity.  The call returns as soon
    as the new region is obtained and no copy throws, and every return
    leaves the prior elements unchanged, followed by a copy of the
    original [i]-th element.  In [EmplaceBack] the new element is
    constructed in the new region before the old elements are relocated
    and destroyed, so the argument is read while it is alive. *)
Theorem PushBack_of_own_element s xs (i : nat) x :
  holds s xs →
  size_ (this s) = RawMemory.capacity_ (data_ (this s)) →
  xs !! i = Some x →
  let value := inside (ptr_add (RawMemory.buffer_ (data_ (this s))) (N.of_nat i)) in
  (fits (grown (size_ (this s))) (mem s) →
   is_Some (copy_ctor x) → is_Some (relocate xs) →
   is_Ok (PushBack value s))
  ∧ ∀ s', PushBack value s = Ok tt s' → holds s' (xs ++ [x]).
Proof.
  intros Hh Hfull Hx value.
  pose proof (holds_slot _ _ _ _ Hh Hx) as Hslot. fold value in Hslot.
  assert (Href : referent (mem s) value = Some x) by (cbn; by rewrite Hslot).
  split.
  - intros Hfit [y Hy] [ys Hys].
    pose proof (construct_copy_of_Ok _ _ _ _ Href Hy) as Ec.
    subst value. destruct s as [[[buf cap] size] h].
    cbn [this mem data_ size_ RawMemory.buffer_ RawMemory.capacity_] in *. subst cap.
    pose proof (EmplaceBack_realloc _ _ _ _ _ _ _ Hfit Ec Hh) as Hr. cbv zeta in Hr.
    rewrite Hys in Hr. destruct Hr as (h' & Hr & _).
    unfold PushBack. rewrite bind_eq. by rewrite Hr.
  - intros s' (p & HOk)%PushBack_Ok.
    destruct (EmplaceBack_Ok_inv _ _ _ _ _ Hh HOk)
      as (y & h1 & xs1 & ys & Ec & Hh1 & _ & _ & Hh' & _ & _ & Hcase).
    apply construct_copy_of in Ec as (-> & x' & Hx' & Hy).
    rewrite Href in Hx'. injection Hx' as <-.
    apply copy_ctor_value in Hy as ->.
    destruct s as [v h]. cbn [this mem] in *.
    pose proof (holds_inj _ _ _ Hh1 Hh) as ->.
    rewrite Hfull, N.eqb_refl in Hcase. destruct Hcase as (Hr & _).
    by apply relocate_value in Hr as ->.
Qed.

(** C10. [EmplaceBack] returns a reference to the last element of the
    updated vector, the one just constructed from the arguments, whether it
    reallocates or not.  The call returns when the constructor returns
    and, on a full vector, the store serves the request and the relocation
    does not throw. *)
Theorem EmplaceBack_returns_last a s xs :
  holds s xs →
  (is_Ok (construct a (mem s)) →
   (size_ (this s) = RawMemory.capacity_ (data_ (this s)) →
    fits (grown (size_ (this s))) (mem s) ∧ ∀ xs1, is_Some (relocate xs1)) →
   is_Ok (EmplaceBack a s))
  ∧ ∀ p s',
      EmplaceBack a s = Ok p s' →
      ∃ y h1,
        construct a (mem s) = Ok y h1
        ∧ size_ (this s') = size_ (this s) + 1
        ∧ at_index (size_ (this s') - 1) s' = Ok p s'
        ∧ slot (mem s') p = Some (Some y)
        ∧ ∃ ys, holds s' (ys ++ [y]).
Proof.
  intros Hh. split; [by apply (EmplaceBack_returns a s xs)|]. intros p s' HOk.
  destruct (EmplaceBack_Ok_inv _ _ _ _ _ Hh HOk)
    as (y & h1 & xs1 & ys & Ec & Hh1 & _ & _ & Hh' & Hsz & -> & _).
  exists y, h1. split_and!; [done|done| | |by eauto].
  - pose proof (holds_bounds _ _ _ Hh') as [Hc1 Hc2].
    destruct Hh' as (Hs' & Hle' & _). destruct s' as [[[buf' cap'] size'] h'].
    cbn in *. unfold at_index. vsimpl.
    destruct (N.ltb_spec (size' - 1) size'); [|lia]. vsimpl.
    destruct (N.ltb_spec (size' - 1) cap'); [|lia]. vsimpl.
    do 2 f_equal. lia.
  - assert (Hl : (ys ++ [y]) !! length ys = Some y) by (by apply list_lookup_middle).
    pose proof (holds_slot _ _ _ _ Hh' Hl) as Hslot.
    replace (N.of_nat (length ys)) with (size_ (this s)) in Hslot; [done|].
    destruct Hh' as (Hs' & _). rewrite length_app in Hs'. cbn in Hs'. lia.
Qed.



(** C7. [Erase(pos)] at the offset [p] of an element of a vector of size
    [n]: every return leaves a vector of size [n - 1] with the elements
    [0, p) unchanged followed by the original elements [p + 1, n); the
    iterator returned points to offset [p], which is the end of the vector
    when the last element was erased.  The call returns when no move
    assignment throws. *)
Theorem Erase_spec (p : nat) s xs x :
  holds s xs →
  xs !! p = Some x →
  let pos := ptr_add (RawMemory.buffer_ (data_ (this s))) (N.of_nat p) in
  ((∀ d x : T, is_Some (move_assign d x)) → is_Ok (Erase pos s))
  ∧ ∀ r s',
      Erase pos s = Ok r s' →
      holds s' (take p xs ++ drop (S p) xs)
      ∧ size_ (this s') = size_ (this s) - 1
      ∧ r = ptr_add (RawMemory.buffer_ (data_ (this s'))) (N.of_nat p)
      ∧ (S p = length xs → end_ s' = Ok r s').
Proof.
  destruct s as [v h]. intros Hh Hx pos. subst pos. cbn [this] in *.
  pose proof (Erase_at _ _ _ _ _ Hh Hx) as He. cbv zeta in He. split.
  - intros Ha. destruct (shift_left_total x (drop (S p) xs) Ha) as [[ys z] Hsl].
    rewrite Hsl in He. destruct He as (h' & -> & _). exact I.
  - intros r s' HOk.
    destruct (shift_left x (drop (S p) xs)) as [[ys z]|] eqn:Hsl;
      [|by rewrite HOk in He].
    destruct He as (h' & He & Hh' & _). rewrite He in HOk. injection HOk as <- <-.
    apply shift_left_value in Hsl as ->. cbn [this data_ size_].
    split_and!; [done..|].
    intros Hlast. unfold end_. vsimpl. do 2 f_equal.
    destruct Hh as (Hs & _). cbn in Hs. lia.
Qed.

End with_values.


(** C9, as the code has it.  [~RawMemory()] calls [Deallocate], and so
    [operator delete], on the region pointer whatever it is.  With a null
    pointer the call releases nothing: the allocated regions are unchanged.
    With the start of an allocated region, that region is released. *)
Theorem RawMemory_dtor_spec (r : RawMemory.t) h :
  RawMemory.dtor r h = operator_delete (RawMemory.buffer_ r) h
  ∧ (RawMemory.buffer_ r = nullptr →
     RawMemory.dtor r h
     = Ok tt (Heap (blocks h) (limit h) (trace h ++ [EvDelete nullptr 0])))
  ∧ (∀ b l, RawMemory.buffer_ r = Addr b 0 → blocks h !! b = Some l →
     RawMemory.dtor r h
     = Ok tt (Heap (delete b (blocks h)) (limit h)
                   (trace h ++ [EvDelete (Addr b 0) (live_count l)]))).
Proof.
  unfold RawMemory.dtor, RawMemory.Deallocate. split_and!; [done| |].
  - by intros ->.
  - intros b l -> E. cbn. by rewrite E.
Qed.

End claims.

(** ** The element types of the examples *)

#[global] Instance int_laws : @ElementLaws Z int_element.
Proof. split; cbn; [done|done|by eauto..]. Qed.

#[global] Instance int_values : @ValueSemantics Z int_element.
Proof. split; cbn; congruence. Qed.

Lemma int_infallible : @infallible Z int_element.
Proof. split_and!; cbn; by eauto. Qed.

#[global] Instance fragile_laws : @ElementLaws Z fragile_element.
Proof. split; cbn; done. Qed.

#[global] Instance fragile_values : @ValueSemantics Z fragile_element.
Proof.
  split; cbn.
  - intros x y. destruct (x <? 0)%Z; congruence.
  - intros x y r. destruct (x <? 0)%Z; congruence.
  - intros d x y r. destruct (x <? 0)%Z; congruence.
Qed.

Lemma start_holds {T} `{Element T} limit : holds (start (T:=T) limit) [].
Proof. by split_and!. Qed.

Lemma two_ints_reached : pair_of (H:=int_element) 1 2 = Ok tt two_ints.
Proof. by vm_compute. Qed.

Lemma fragile_head_reached : pair_of (H:=fragile_element) (-1) 2 = Ok tt fragile_head.
Proof. by vm_compute. Qed.


Lemma two_ints_holds : holds (H:=int_element) two_ints [1; 2]%Z.
Proof. by split_and!; vm_compute. Qed.

Lemma fragile_head_holds : holds (H:=fragile_element) fragile_head [-1; 2]%Z.
Proof. by split_and!; vm_compute. Qed.

Lemma fragile_tail_holds : holds (H:=fragile_element) fragile_tail [1; -2]%Z.
Proof. by split_and!; vm_compute. Qed.

Lemma two_ints_fits n : (n * 4 <=? 1000) = true → fits (H:=int_element) n (mem two_ints).
Proof.
  intros Hn%N.leb_le. unfold fits. cbn. pose proof PTRDIFF_MAX_lt.
  unfold PTRDIFF_MAX in *. lia.
Qed.

(** ** Pushing 1, 2, 3, 4, 5 *)




(** ** The claims on concrete vectors *)

Lemma PushBack_of_own_element_witness :
  is_Ok (PushBack (H:=int_element) (inside (Addr 0 0)) two_ints)
  ∧ ∀ s', PushBack (H:=int_element) (inside (Addr 0 0)) two_ints = Ok tt s' →
          holds (H:=int_element) s' [1; 2; 1]%Z.
Proof.
  destruct (@PushBack_of_own_element Z int_element int_laws int_values
              two_ints [1; 2]%Z 0%nat 1%Z two_ints_holds eq_refl eq_refl) as [H1 H2].
  split; [|exact H2].
  apply H1; [exact (two_ints_fits 4 eq_refl)|by eexists|by eexists].
Defined.

Lemma Emplace_prefix_copy_failure_witness :
  pair_of (H:=fragile_element) (-1) 2 = Ok tt fragile_head
  ∧ holds (H:=fragile_element) fragile_head [-1; 2]%Z
  ∧ Insert (H:=fragile_element) (Addr 0 1) (outside 7%Z) fragile_head = Crash.
Proof.
  split_and!; [exact fragile_head_reached|exact fragile_head_holds|].
  apply (@Emplace_prefix_copy_failure Z fragile_element fragile_laws
           (copy_of (outside 7%Z)) fragile_head [-1; 2]%Z 1%nat 0%nat 7%Z (-1)%Z);
    [exact fragile_head_holds|reflexivity|by vm_compute|reflexivity|reflexivity
    |cbn; lia|reflexivity|reflexivity].
Defined.



(** [Reserve] beyond what [size_t] counts in bytes: with [int]s of four
    bytes, [Reserve(2^62 + 3)] requests 12 bytes, and the vector reports
    the capacity [2^62 + 3] on a region of three elements. *)
Lemma Reserve_beyond_size_t :
  ∃ s' bn,
    Reserve (H:=int_element) (2 ^ 62 + 3) two_ints = Ok tt s'
    ∧ RawMemory.capacity_ (data_ (this s')) = 2 ^ 62 + 3
    ∧ RawMemory.buffer_ (data_ (this s')) = Addr bn 0
    ∧ blocks (mem s') !! bn = Some [Some 1; Some 2; None]%Z.
Proof.
  destruct (Reserve (H:=int_element) (2 ^ 62 + 3) two_ints) as [[] s'|e s'|] eqn:E;
    [|by vm_compute in E..].
  destruct (Reserve_grow_inv (H:=int_element) (2 ^ 62 + 3) (this two_ints) (mem two_ints)
              [1; 2]%Z s' two_ints_holds eq_refl E)
    as (ys & [= <-] & _ & _ & Hc & _ & bn & _ & Hb & Hl).
  by exists s', bn.
Qed.



Lemma Erase_spec_witness :
  is_Ok (Erase (H:=int_element) (Addr 0 0) two_ints)
  ∧ ∀ r s',
      Erase (H:=int_element) (Addr 0 0) two_ints = Ok r s' →
      holds (H:=int_element) s' [2]%Z
      ∧ size_ (this s') = 1
      ∧ r = ptr_add (RawMemory.buffer_ (data_ (this s'))) 0.
Proof.
  destruct (@Erase_spec Z int_element int_laws int_values 0%nat two_ints [1; 2]%Z 1%Z
              two_ints_holds eq_refl) as [H1 H2].
  split.
  - apply H1. intros d x. by eexists.
  - intros r s' E. destruct (H2 r s' E) as (Hh & Hs & Hr & _). by split_and!.
Defined.


Lemma EmplaceBack_returns_last_witness :
  is_Ok (EmplaceBack (H:=int_element) (copy_of (outside 7%Z)) two_ints)
  ∧ ∀ p s',
      EmplaceBack (H:=int_element) (copy_of (outside 7%Z)) two_ints = Ok p s' →
      at_index (size_ (this s') - 1) s' = Ok p s'
      ∧ slot (mem s') p = Some (Some 7%Z).
Proof.
  destruct (@EmplaceBack_returns_last Z int_element int_laws
              (copy_of (outside 7%Z)) two_ints [1; 2]%Z two_ints_holds) as [H1 H2].
  split.
  - apply H1; [exact I|]. intros _. split; [exact (two_ints_fits 4 eq_refl)|].
    intros xs1. apply relocate_total, int_infallible.
  - intros p s' E. destruct (H2 p s' E) as (y & h1 & Ec & _ & Hat & Hslot & _).
    vm_compute in Ec. injection Ec as <- _. by split.
Defined.

Lemma RawMemory_dtor_spec_witness :
  RawMemory.dtor (T:=Z) (RawMemory.Make (Addr 0 0) 2) (mem two_ints)
  = Ok tt (Heap ∅ 1000 [EvNew 8 (Addr 0 0); EvDelete nullptr 0; EvDelete (Addr 0 0) 2]).
Proof.
  destruct (@RawMemory_dtor_spec Z (RawMemory.Make (Addr 0 0) 2) (mem two_ints))
    as (_ & _ & H3).
  rewrite (H3 0%nat [Some 1%Z; Some 2%Z] eq_refl eq_refl). by vm_compute.
Defined.

(** ** Where the specification and the code differ *)


(** The destructor of a [RawMemory] without a region calls
    [operator delete], with the null pointer. *)
Lemma RawMemory_dtor_null_deallocates :
  RawMemory.buffer_ RawMemory.default = nullptr
  ∧ RawMemory.capacity_ RawMemory.default = 0
  ∧ RawMemory.dtor (T:=Z) RawMemory.default (empty_heap 1000)
    = Ok tt (Heap ∅ 1000 [EvDelete nullptr 0]).
Proof. by split_and!. Qed.

(** ** Further properties *)

(** *** Errors, bounds and round trips *)

Section further.
Context {T : Type} `{Element T} `{!ElementLaws T}.
Implicit Types (h : heap T) (xs ys : list T) (s : state T).

Lemma ptr_diff_begin buf size cap h xs (p : nat) :
  holds (State (Make (RawMemory.Make buf cap) size) h) xs →
  (p ≤ length xs)%nat →
  ptr_diff (ptr_add buf (N.of_nat p)) buf = Some (N.of_nat p).
Proof.
  intros Hh Hp. destruct buf as [|b i]; cbn.
  - apply holds_nullptr in Hh as (_ & _ & ->). cbn in Hp.
    by replace p with 0%nat by lia.
  - unfold ptr_add, ptr_diff. rewrite decide_True by done. f_equal.
    pose proof (holds_bounds _ _ _ Hh) as [_ Hb]. cbn in Hb.
    assert (size = N.of_nat (length xs)) by apply Hh.
    pose proof PTRDIFF_MAX_lt.
    replace (i + N.of_nat p + SIZE_MOD - i) with (N.of_nat p + SIZE_MOD) by lia.
    unfold wrap. rewrite <- N.Div0.add_mod_idemp_r, N.Div0.mod_same, N.add_0_r.
    apply N.mod_small. lia.
Qed.

(** X1. When the free store cannot serve the request for the new region,
    [Reserve], [EmplaceBack] and [Emplace] throw [std::bad_alloc] before
    anything else happens: the constructor arguments are not evaluated, and
    the vector and the store are exactly as before the call. *)
Theorem bad_alloc_changes_nothing s xs :
  holds s xs →
  (∀ n, RawMemory.capacity_ (data_ (this s)) < n →
        N.min (limit (mem s)) PTRDIFF_MAX < size_mul n sizeof →
        Reserve n s = Throw bad_alloc s)
  ∧ (size_ (this s) = RawMemory.capacity_ (data_ (this s)) →
     ¬ fits (grown (size_ (this s))) (mem s) →
     (∀ a, EmplaceBack a s = Throw bad_alloc s)
     ∧ ∀ a (p : nat), (p ≤ length xs)%nat →
         Emplace (ptr_add (RawMemory.buffer_ (data_ (this s))) (N.of_nat p)) a s
         = Throw bad_alloc s).
Proof.
  destruct s as [[[buf cap] size] h].
  cbn [this mem data_ size_ RawMemory.capacity_ RawMemory.buffer_].
  intros Hh. split.
  - intros n Hlt Hbad. unfold Reserve. vsimpl.
    destruct (N.leb_spec n cap); [lia|]. vsimpl.
    assert (Hn0 : n ≠ 0) by lia.
    by rewrite (on_heap_Throw _ _ _ _ _ (RawMemory_ctor_bad_alloc _ _ Hn0 Hbad)).
  - intros <- Hnofit.
    destruct (grown_bytes _ _ _ Hh) as [Hg0 Hgb]. cbn in Hg0, Hgb.
    destruct (fits_or_bad_alloc (grown size) h Hg0 Hgb) as [Hfit|Hbad]; [done|].
    split.
    + intros a. unfold EmplaceBack. vsimpl. rewrite N.eqb_refl. vsimpl.
      by rewrite (on_heap_Throw _ _ _ _ _ Hbad).
    + intros a p Hp. unfold Emplace. vsimpl.
      rewrite (ptr_diff_begin _ _ _ _ _ _ Hh Hp). vsimpl. rewrite N.eqb_refl. vsimpl.
      by rewrite (on_heap_Throw _ _ _ _ _ Hbad).
Qed.

(** X2. [operator[]] on a well-formed vector: an index below the size
    yields the address of that element, [begin() + index], and changes
    nothing; an index at or above the size fails the assertion. *)
Theorem at_index_spec s xs (i : nat) :
  holds s xs →
  (∀ x, xs !! i = Some x →
        let p := ptr_add (RawMemory.buffer_ (data_ (this s))) (N.of_nat i) in
        at_index (N.of_nat i) s = Ok p s ∧ slot (mem s) p = Some (Some x))
  ∧ ((length xs ≤ i)%nat → at_index (N.of_nat i) s = Crash).
Proof.
  intros Hh. split.
  - intros x Hx p. subst p. split; [|by eapply holds_slot].
    apply lookup_lt_Some in Hx.
    destruct s as [[[buf cap] size] h]. destruct Hh as (Hs & Hle & _). cbn in Hs, Hle.
    unfold at_index. vsimpl.
    destruct (N.ltb_spec (N.of_nat i) size); [|lia]. vsimpl.
    by destruct (N.ltb_spec (N.of_nat i) cap); [|lia].
  - intros Hi. destruct s as [[[buf cap] size] h]. destruct Hh as (Hs & _). cbn in Hs.
    unfold at_index. vsimpl.
    by destruct (N.ltb_spec (N.of_nat i) size); [lia|].
Qed.

(** X3. Calls outside the contract are caught by the assertions:
    [PopBack] on an empty vector, and [Erase] at [end()] or beyond.  The
    branch [pos == end()] of [Erase] is never executed. *)
Theorem asserted_preconditions s xs :
  holds s xs →
  (xs = [] → PopBack s = Crash)
  ∧ ∀ p : nat, (length xs ≤ p)%nat →
      Erase (ptr_add (RawMemory.buffer_ (data_ (this s))) (N.of_nat p)) s = Crash.
Proof.
  intros Hh. destruct s as [[[buf cap] size] h].
  assert (Hs : size = N.of_nat (length xs)) by apply Hh.
  split.
  - intros ->. by apply PopBack_empty.
  - intros p Hp. cbn [this data_ RawMemory.buffer_].
    unfold Erase, noexcept. vsimpl.
    destruct buf as [|b i]; cbn [ptr_add ptr_le ptr_lt].
    + vsimpl. by destruct is_nothrow_move_assignable.
    + assert (i = 0) as -> by apply Hh.
      unfold ptr_add, ptr_le, ptr_lt. rewrite decide_True by done. vsimpl.
      destruct (N.leb_spec 0 (0 + N.of_nat p)); [|lia]. rewrite decide_True by done.
      vsimpl. destruct (N.ltb_spec (0 + N.of_nat p) (0 + size)); [lia|].
      vsimpl. by destruct is_nothrow_move_assignable.
Qed.

(** X6. Operations that do not grow the storage never call the allocation
    functions and keep the region of the vector, so pointers to its
    elements stay meaningful: [EmplaceBack] and [Emplace] with spare
    capacity, [PopBack] and [Erase]. *)
Theorem no_reallocation s xs :
  holds s xs →
  let same (s' : state T) :=
    data_ (this s') = data_ (this s) ∧ trace (mem s') = trace (mem s) in
  (size_ (this s) < RawMemory.capacity_ (data_ (this s)) →
   (∀ a p s', EmplaceBack a s = Ok p s' → same s')
   ∧ ∀ (p : nat) a r s',
       (p ≤ length xs)%nat →
       Emplace (ptr_add (RawMemory.buffer_ (data_ (this s))) (N.of_nat p)) a s = Ok r s' →
       same s')
  ∧ (∀ s', PopBack s = Ok tt s' → same s')
  ∧ ∀ (p : nat) r s',
      (p < length xs)%nat →
      Erase (ptr_add (RawMemory.buffer_ (data_ (this s))) (N.of_nat p)) s = Ok r s' →
      same s'.
Proof.
  intros Hh same. subst same. cbv beta.
  destruct s as [[[buf cap] size] h].
  cbn [this mem data_ size_ RawMemory.capacity_ RawMemory.buffer_] in *.
  split_and!.
  - intros Hlt. split.
    + intros a p s' HOk.
      destruct (construct a h) as [y h1|e h1|] eqn:Ec;
        [|exfalso; eapply EmplaceBack_construct_fails;
          [done|rewrite Ec; cbn; tauto|rewrite HOk; exact I]..].
      destruct (construct_holds _ _ _ _ _ _ Hh Ec) as [(xs1 & Hh1 & _) _].
      destruct (EmplaceBack_in_place _ _ _ _ _ _ _ _ Hlt Ec Hh1) as (b & _ & HE).
      rewrite HE in HOk. injection HOk as _ <-. split; [done|].
      cbn. by apply construct_Ok in Ec as (_ & _ & ->).
    + intros p a r s' Hp HOk.
      destruct (construct a h) as [y h1|e h1|] eqn:Ec;
        [|exfalso; eapply Emplace_construct_fails;
          [done|done|rewrite Ec; cbn; tauto
          |cbn [data_ RawMemory.buffer_]; rewrite HOk; exact I]..].
      destruct (construct_holds _ _ _ _ _ _ Hh Ec) as [(xs1 & Hh1 & Hlen) _].
      pose proof (construct_Ok _ _ _ _ Ec) as (_ & _ & Ht).
      rewrite <- Hlen in Hp.
      assert (Hsz : size = N.of_nat (length xs1)) by apply Hh1.
      destruct (decide (p = length xs1)) as [->|Hpn].
      * destruct (Emplace_in_place_end _ _ _ _ _ _ _ _ Hlt Ec Hh1) as (b & _ & HE).
        rewrite <- Hsz, HE in HOk. injection HOk as _ <-. by split.
      * destruct buf as [|b i].
        { apply holds_nullptr in Hh1 as (_ & _ & ->). cbn in Hp, Hpn. lia. }
        assert (i = 0) as -> by apply Hh1.
        destruct (snoc_cases (drop p xs1)) as [Hdrop|(mid & xl & Hdrop)].
        { apply (f_equal length) in Hdrop. rewrite length_drop in Hdrop. cbn in Hdrop. lia. }
        assert (Hlpre : length (take p xs1) = p) by (rewrite length_take; lia).
        assert (Exs : xs1 = take p xs1 ++ mid ++ [xl]) by (by rewrite <- Hdrop, take_drop).
        set (pre := take p xs1) in *. clearbody pre. clear Hdrop. subst xs1.
        pose proof (Emplace_in_place_middle a b cap size h y h1 _ _ _ Hlt Ec Hh1) as Hr.
        cbv zeta in Hr. rewrite Hlpre in Hr. rewrite ptr_add_0 in HOk.
        destruct (move_ctor xl) as [[yl rl]|]; [|by rewrite HOk in Hr].
        destruct (shift_right (rev mid) rl) as [[z ys]|]; [|by rewrite HOk in Hr].
        destruct (move_assign z y) as [[y' r']|]; [|by rewrite HOk in Hr].
        destruct Hr as (h' & Hr & _ & _ & Ht'). rewrite Hr in HOk.
        injection HOk as _ <-. by split.
  - intros s' HOk.
    destruct (snoc_cases xs) as [->|(xs' & x & ->)].
    + rewrite PopBack_empty in HOk; [done|]. apply Hh.
    + destruct (PopBack_snoc _ _ _ _ Hh) as (b & _ & HP & _).
      rewrite HP in HOk. by injection HOk as <-.
  - intros p r s' Hp HOk.
    destruct (lookup_lt_is_Some_2 xs p Hp) as [x Hx].
    pose proof (Erase_at _ _ _ _ _ Hh Hx) as He. cbv zeta in He.
    cbn [data_ RawMemory.buffer_] in He.
    destruct (shift_left x (drop (S p) xs)) as [[ys z]|]; [|by rewrite HOk in He].
    destruct He as (h' & He & _ & _ & Ht). rewrite He in HOk. by injection HOk as _ <-.
Qed.

(** Releasing the region that was just obtained, while it holds no
    object yet. *)
Lemma operator_delete_allocated n h :
  operator_delete (Addr (fresh (dom (blocks h))) 0) (allocated n h)
  = Ok tt (Heap (blocks h) (limit h)
             (trace h ++ [EvNew (n * sizeof) (Addr (fresh (dom (blocks h))) 0);
                          EvDelete (Addr (fresh (dom (blocks h))) 0) 0])).
Proof.
  unfold operator_delete, allocated. cbn [blocks limit trace].
  rewrite lookup_insert_eq, N.eqb_refl, live_count_raw, delete_insert_eq.
  rewrite delete_id by apply fresh_block. by rewrite <- app_assoc.
Qed.

(** X7. When the constructor of the new element throws, [EmplaceBack] and
    [Emplace] propagate the exception and leave the vector as it was: with
    spare capacity nothing has changed at all, and on a full vector the new
    region, which holds no object, has been released again. *)
Theorem constructor_failure_changes_nothing a s xs e h1 :
  holds s xs →
  construct a (mem s) = Throw e h1 →
  (size_ (this s) = RawMemory.capacity_ (data_ (this s)) →
   fits (grown (size_ (this s))) (mem s)) →
  let unchanged (o : outcome (state T) ptr) :=
    ∃ h', o = Throw element_exception (State (this s) h')
          ∧ holds (State (this s) h') xs
          ∧ blocks h' = blocks (mem s)
          ∧ (size_ (this s) < RawMemory.capacity_ (data_ (this s)) → h' = mem s)
          ∧ (size_ (this s) = RawMemory.capacity_ (data_ (this s)) →
             ∃ bn, trace h' = trace (mem s)
                     ++ [EvNew (grown (size_ (this s)) * sizeof) (Addr bn 0);
                         EvDelete (Addr bn 0) 0]) in
  unchanged (EmplaceBack a s)
  ∧ ∀ p : nat, (p ≤ length xs)%nat →
      unchanged (Emplace (ptr_add (RawMemory.buffer_ (data_ (this s))) (N.of_nat p)) a s).
Proof.
  destruct s as [[[buf cap] size] h].
  cbn [this mem data_ size_ RawMemory.capacity_ RawMemory.buffer_].
  intros Hh Ec Hfit.
  destruct (construct_Throw _ _ _ _ Ec) as [-> ->].
  pose proof (holds_bounds _ _ _ Hh) as [Hc1 Hc2]. cbn in Hc1, Hc2.
  assert (Hle : size ≤ cap) by apply Hh.
  destruct (grown_bytes _ _ _ Hh) as [Hg0 _]. cbn in Hg0.
  destruct (grown_spec size Hc2) as [_ Hg].
  assert (EcA : ∀ n, construct a (allocated n h) = Throw element_exception (allocated n h))
    by (intros n; by rewrite construct_allocated, Ec).
  split.
  - unfold EmplaceBack. vsimpl.
    destruct (N.eqb_spec size cap) as [<-|Hne].
    + specialize (Hfit eq_refl). vsimpl.
      rewrite (on_heap_Ok _ _ _ _ _ (RawMemory_ctor_fits _ _ Hg0 Hfit)).
      unfold scoped. vsimpl. destruct (N.leb_spec size (grown size)); [|lia]. vsimpl.
      unfold placement_new, on_heap at 1. cbn [mem this]. rewrite bind_eq, EcA. vsimpl.
      unfold RawMemory.dtor, RawMemory.Deallocate, on_heap. cbn [RawMemory.buffer_ mem this].
      rewrite operator_delete_allocated. vsimpl.
      eexists. split; [reflexivity|]. split_and!; [|done|lia|by eauto].
      eapply holds_frame; [exact Hh|done].
    + vsimpl. destruct (N.leb_spec size cap); [|lia]. vsimpl.
      unfold placement_new, on_heap. cbn [mem this]. rewrite bind_eq, Ec. vsimpl.
      exists h. by split_and!.
  - intros p Hp. unfold Emplace. vsimpl.
    rewrite (ptr_diff_begin _ _ _ _ _ _ Hh Hp). vsimpl.
    assert (Hsz : size = N.of_nat (length xs)) by apply Hh.
    destruct (N.eqb_spec size cap) as [<-|Hne].
    + specialize (Hfit eq_refl). vsimpl.
      rewrite (on_heap_Ok _ _ _ _ _ (RawMemory_ctor_fits _ _ Hg0 Hfit)).
      unfold scoped. vsimpl. destruct (N.leb_spec (N.of_nat p) (grown size)); [|lia]. vsimpl.
      unfold placement_new, on_heap at 1. cbn [mem this]. rewrite bind_eq, EcA. vsimpl.
      unfold RawMemory.dtor, RawMemory.Deallocate, on_heap. cbn [RawMemory.buffer_ mem this].
      rewrite operator_delete_allocated. vsimpl.
      eexists. split; [reflexivity|]. split_and!; [|done|lia|by eauto].
      eapply holds_frame; [exact Hh|done].
    + vsimpl. destruct (decide _).
      * vsimpl. unfold placement_new, on_heap. cbn [mem this]. rewrite bind_eq, Ec. vsimpl.
        exists h. by split_and!.
      * vsimpl. unfold on_heap at 1. cbn [mem this]. rewrite Ec. vsimpl.
        exists h. by split_and!.
Qed.

Section further_values.
Context `{!ValueSemantics T}.

(** X4. Appending and then removing the last element gives back the
    elements the vector had: after [EmplaceBack(args...)] (so after either
    [PushBack]) has returned, [PopBack] returns and the vector holds its
    original elements again; the capacity stays as the append left it.
    The arguments are anything but an rvalue reference to an object that
    lives in the free store. *)
Theorem EmplaceBack_PopBack a s xs p s1 :
  holds s xs →
  (∀ q, a ≠ move_of (inside q)) →
  EmplaceBack a s = Ok p s1 →
  ∃ s2, PopBack s1 = Ok tt s2
        ∧ holds s2 xs
        ∧ size_ (this s2) = size_ (this s)
        ∧ data_ (this s2) = data_ (this s1).
Proof.
  intros Hh Ha HOk.
  destruct (EmplaceBack_Ok_inv _ _ _ _ _ Hh HOk)
    as (y & h1 & xs1 & ys & Ec & Hh1 & _ & Hpure & Hh' & Hsz & _ & Hcase).
  rewrite (Hpure Ha) in Hh1. rewrite <- holds_State in Hh1.
  pose proof (holds_inj _ _ _ Hh1 Hh) as ->.
  assert (ys = xs) as ->.
  { destruct (_ =? _); [|by destruct Hcase].
    destruct Hcase as (Hr & _). by apply relocate_value in Hr. }
  destruct s1 as [v1 h1']. cbn [this mem] in *.
  destruct (PopBack_snoc _ _ _ _ Hh') as (b & _ & HP & Hh2).
  eexists. split; [exact HP|]. cbn [this data_ size_]. split_and!; [done| |done].
  pose proof (holds_bounds _ _ _ (proj1 (holds_State s xs) Hh)) as [_ Hb]. lia.
Qed.

(** X5. Inserting a value and then erasing at the iterator that [Insert]
    returned gives back the elements the vector had.  [Erase] returns
    there when no move assignment throws, and every return of it leaves the
    original elements and the same iterator. *)
Theorem Insert_Erase (p : nat) value s xs r s1 :
  holds s xs →
  (p ≤ length xs)%nat →
  Insert (ptr_add (RawMemory.buffer_ (data_ (this s))) (N.of_nat p)) value s = Ok r s1 →
  ((∀ d x : T, is_Some (move_assign d x)) → is_Ok (Erase r s1))
  ∧ ∀ r' s2, Erase r s1 = Ok r' s2 →
             r' = r ∧ holds s2 xs ∧ data_ (this s2) = data_ (this s1).
Proof.
  intros Hh Hp HOk. unfold Insert in HOk.
  destruct (Emplace_Ok_inv _ _ _ _ _ _ Hh Hp HOk)
    as (y & h1 & xs1 & Ec & Hh1 & _ & _ & Hh' & _ & -> & _).
  apply construct_copy_of in Ec as (-> & x & Hx & Hy).
  rewrite <- holds_State in Hh1. pose proof (holds_inj _ _ _ Hh1 Hh) as ->.
  assert (Hlp : length (take p xs) = p) by (rewrite length_take; lia).
  assert (Hlook : (take p xs ++ y :: drop p xs) !! p = Some y).
  { by apply list_lookup_middle. }
  destruct s1 as [v1 h1]. cbn [this] in *.
  pose proof (Erase_at _ _ _ _ _ Hh' Hlook) as He. cbv zeta in He.
  assert (Hdrop : drop (S p) (take p xs ++ y :: drop p xs) = drop p xs).
  { rewrite drop_app_ge by lia. rewrite Hlp. by replace (S p - p)%nat with 1%nat by lia. }
  assert (Htake : take p (take p xs ++ y :: drop p xs) = take p xs).
  { rewrite take_app_le by lia. apply take_ge. lia. }
  rewrite Hdrop, Htake in He. split.
  - intros Ha. destruct (shift_left_total y (drop p xs) Ha) as [[ys z] Hsl].
    rewrite Hsl in He. destruct He as (h' & -> & _). exact I.
  - intros r' s2 HE.
    destruct (shift_left y (drop p xs)) as [[ys z]|] eqn:Hsl; [|by rewrite HE in He].
    destruct He as (h' & He & Hh2 & _). rewrite He in HE. injection HE as <- <-.
    apply shift_left_value in Hsl as ->. rewrite take_drop in Hh2. by split_and!.
Qed.

End further_values.

End further.

(** *** Destruction and move operations *)

Section whole_objects.
Context {T : Type} `{Element T} `{!ElementLaws T}.
Implicit Types (h : heap T) (xs ys : list T) (s : state T) (v o : Vector.t).

Lemma live_count_slots_of xs (cap : N) : live_count (slots_of xs cap) = length xs.
Proof.
  unfold live_count, slots_of. rewrite omap_app, length_app.
  assert (E1 : omap id (Some <$> xs) = xs).
  { induction xs as [|x xs IH]; [done|]. cbn. by rewrite IH. }
  assert (E2 : ∀ n, omap id (replicate n (@None T)) = []).
  { induction n as [|n IH]; [done|]. cbn. by rewrite IH. }
  rewrite E1, E2. cbn. lia.
Qed.

Lemma apart_sym v o : apart v o → apart o v.
Proof.
  unfold apart. destruct (RawMemory.buffer_ (data_ v)), (RawMemory.buffer_ (data_ o)); auto.
Qed.

Lemma holds_released v o h xs ys :
  holds (State v h) xs → holds (State o h) ys → apart v o →
  holds (State o (released (RawMemory.buffer_ (data_ v)) h)) ys.
Proof.
  intros Hv Ho Ha. destruct v as [[bv cv] sv], o as [[bo co] so].
  unfold apart in Ha. cbn in Ha. cbn [data_ RawMemory.buffer_].
  destruct Ho as (H1 & H2 & H3 & H4). split_and!; [done..|].
  cbn in *. destruct bo as [|b i]; [done|]. destruct H4 as [-> H4]. split; [done|].
  destruct bv as [|c j]; cbn; [done|]. by rewrite lookup_delete_ne.
Qed.

(** [~Vector()] on a well-formed vector. *)
Lemma dtor_released v h xs :
  holds (State v h) xs →
  dtor v h = Ok tt (released (RawMemory.buffer_ (data_ v)) h).
Proof.
  intros Hh. destruct v as [[buf cap] size]. unfold dtor.
  cbn [data_ size_ RawMemory.GetAddress RawMemory.buffer_].
  rewrite bind_eq, (destroy_n_all _ _ _ _ _ Hh).
  unfold RawMemory.dtor, RawMemory.Deallocate. cbn [RawMemory.buffer_].
  by rewrite (operator_delete_wiped _ _ _ _ _ Hh).
Qed.

(** X8. [~Vector()] on a well-formed vector destroys every element and
    then releases the region: the release finds no live object, no other
    region is touched, other vectors are as before, and for a vector
    without a region [operator delete] is called on the null pointer. *)
Theorem dtor_spec v h xs :
  holds (State v h) xs →
  ∃ h',
    dtor v h = Ok tt h'
    ∧ blocks h' = match RawMemory.buffer_ (data_ v) with
                  | Addr b _ => delete b (blocks h)
                  | nullptr => blocks h
                  end
    ∧ trace h' = trace h ++ [EvDelete (RawMemory.buffer_ (data_ v)) 0]
    ∧ ∀ o ys, holds (State o h) ys → apart v o → holds (State o h') ys.
Proof.
  intros Hh. exists (released (RawMemory.buffer_ (data_ v)) h).
  split_and!; [by eapply dtor_released| | |].
  - unfold released. by destruct (RawMemory.buffer_ (data_ v)).
  - unfold released. by destruct (RawMemory.buffer_ (data_ v)).
  - intros o ys Ho Ha. by eapply holds_released.
Qed.

(** X9. [Vector(Vector&& other)] takes over the region and the size of
    [other] and leaves [other] empty, without allocating, copying, moving
    or destroying anything: the elements stay where they are.  Its only
    calls to the allocation functions are two [operator delete] of the
    null pointer (the move assignment from the local [empty] and the
    destructor of [empty]). *)
Theorem ctor_move_spec o h xs :
  holds (State o h) xs →
  ∃ h',
    ctor_move o h = Ok (o, default) h'
    ∧ holds (State o h') xs
    ∧ holds (State default h') []
    ∧ blocks h' = blocks h
    ∧ trace h' = trace h ++ [EvDelete nullptr 0; EvDelete nullptr 0].
Proof.
  intros Hh. destruct o as [[buf cap] size].
  eexists. split; [|split_and!].
  - unfold ctor_move, nothrow, RawMemory.ctor_move, RawMemory.assign_move, nothrow.
    cbn [data_ size_ RawMemory.buffer_ RawMemory.capacity_ RawMemory.default RawMemory.Swap].
    unfold RawMemory.Deallocate, RawMemory.dtor, RawMemory.Deallocate.
    cbn [RawMemory.buffer_]. msimpl. cbn. reflexivity.
  - eapply holds_frame; [exact Hh|done].
  - by split_and!.
  - done.
  - cbn. by rewrite <- app_assoc.
Qed.

(** X10. [operator=(Vector&& other)] from another vector: [*this] takes
    over the region and the size of [other], and [other] is left empty.
    The region that [*this] had is released while its elements are still
    alive: their destructors are never run.  Assigning a vector to itself
    changes nothing. *)
Theorem assign_move_spec v o h xs ys :
  holds (State v h) xs →
  holds (State o h) ys →
  apart v o →
  let h' := Heap (match RawMemory.buffer_ (data_ v) with
                  | Addr b _ => delete b (blocks h)
                  | nullptr => blocks h
                  end)
                 (limit h)
                 (trace h ++ [EvDelete (RawMemory.buffer_ (data_ v)) (length xs)]) in
  assign_move (another o) (State v h) = Ok (another default) (State o h')
  ∧ holds (State o h') ys
  ∧ holds (State default h') []
  ∧ assign_move itself (State v h) = Ok itself (State v h).
Proof.
  intros Hv Ho Ha h'.
  assert (Hrel : holds (State o h') ys).
  { pose proof (holds_released _ _ _ _ _ Hv Ho Ha) as Hr.
    eapply holds_frame; [exact Hr|]. intros b i _. subst h'. unfold released.
    by destruct (RawMemory.buffer_ (data_ v)). }
  split_and!; [|done|by split_and!|done].
  destruct v as [[bv cv] sv], o as [[bo co] so].
  unfold assign_move, noexcept, RawMemory.assign_move, nothrow. vsimpl.
  unfold on_heap, RawMemory.Deallocate. cbn [mem this RawMemory.buffer_]. rewrite bind_eq.
  subst h'. cbn [data_ RawMemory.buffer_].
  destruct bv as [|b i]; cbn [operator_delete].
  - apply holds_nullptr in Hv as (_ & _ & ->). by vsimpl.
  - destruct Hv as (_ & _ & _ & -> & Eb). cbn in Eb. rewrite Eb. cbn.
    by rewrite live_count_slots_of.
Qed.

End whole_objects.

(** *** Constructors *)

Section regular.
Context {T : Type} `{Element T} `{!ElementLaws T} `{Regular T}.
Implicit Types (h : heap T) (xs ys ds : list T) (s : state T) (v o : Vector.t)
  (pre post : list (option T)).

Lemma copy_assign_list_length ds xs : length (copy_assign_list ds xs).1 = length ds.
Proof.
  revert xs. induction ds as [|d ds IH]; intros [|x xs]; cbn; try done.
  destruct (copy_assign d x); [|done]. specialize (IH xs).
  destruct (copy_assign_list ds xs). cbn in *. by rewrite IH.
Qed.

(** What [uninitialized_value_construct_n] does on a range of raw slots. *)
Lemma uninitialized_value_construct_loop_spec h b pre (n : nat) post :
  blocks h !! b = Some (pre ++ replicate n None ++ post) →
  uninitialized_value_construct_loop (Addr b (N.of_nat (length pre))) n h
  = match default_ctor with
    | Some d => Ok tt (update_block b (pre ++ replicate n (Some d) ++ post) h)
    | None => if n is O then Ok tt h else Throw element_exception h
    end.
Proof.
  revert h pre. induction n as [|n IH]; intros h pre E.
  - cbn. destruct default_ctor; [|done]. by rewrite update_block_same.
  - cbn [replicate] in E. rewrite <- app_comm_cons in E.
    cbn [uninitialized_value_construct_loop]. rewrite !bind_eq.
    destruct default_ctor as [d|] eqn:Ed; cbn [or_throw ret throw]; [|done].
    rewrite (construct_at_middle _ _ _ _ _ E).
    unfold try_catch. rewrite ptr_add_succ.
    set (h1 := update_block b _ h).
    specialize (IH h1 (pre ++ [Some d])).
    rewrite length_app, Nat.add_1_r, <- app_assoc in IH.
    rewrite IH by apply update_block_lookup.
    subst h1. rewrite update_block_twice. cbn [replicate].
    by rewrite <- app_assoc.
Qed.

(** A vector that is well formed stays so when a region is obtained and
    filled. *)
Lemma holds_fresh_update o h ys n l :
  holds (State o h) ys →
  holds (State o (update_block (fresh (dom (blocks h))) l (allocated n h))) ys
  ∧ ∀ i, RawMemory.buffer_ (data_ o) ≠ Addr (fresh (dom (blocks h))) i.
Proof.
  intros Ho. destruct (holds_allocated _ _ _ n Ho) as [HoA Hne]. split; [|done].
  eapply holds_frame; [exact HoA|]. intros b i E.
  apply update_block_lookup_ne. intros <-. by eapply Hne.
Qed.

Lemma RawMemory_ctor_0 h : RawMemory.ctor (T:=T) 0 h = Ok RawMemory.default h.
Proof. done. Qed.

(** X11. [Vector(size)]: with [size = 0] nothing is allocated and the
    vector has no region; otherwise, when the store serves the request,
    the vector owns a fresh region of exactly [size] elements, all value
    initialised, and every other vector is as before.  When [T()] throws,
    the region is released again, empty, and the exception propagates;
    when the store does not serve the request, [std::bad_alloc] leaves the
    store untouched. *)
Theorem ctor_size_spec (n : N) h :
  ctor_size 0 h = Ok default h
  ∧ (n ≠ 0 → fits n h →
     let bn := fresh (dom (blocks h)) in
     match default_ctor with
     | Some d =>
         ∃ h', ctor_size n h = Ok (Make (RawMemory.Make (Addr bn 0) n) n) h'
               ∧ holds (State (Make (RawMemory.Make (Addr bn 0) n) n) h')
                       (replicate (N.to_nat n) d)
               ∧ trace h' = trace h ++ [EvNew (n * sizeof) (Addr bn 0)]
               ∧ ∀ o ys, holds (State o h) ys → holds (State o h') ys
     | None =>
         ctor_size n h
         = Throw element_exception
             (Heap (blocks h) (limit h)
                (trace h ++ [EvNew (n * sizeof) (Addr bn 0); EvDelete (Addr bn 0) 0]))
     end)
  ∧ (n ≠ 0 → N.min (limit h) PTRDIFF_MAX < size_mul n sizeof →
     ctor_size n h = Throw bad_alloc h).
Proof.
  split_and!.
  - unfold ctor_size. rewrite bind_eq, RawMemory_ctor_0. cbn.
    unfold try_catch, uninitialized_value_construct_n. by cbn.
  - intros Hn Hfit bn. unfold ctor_size.
    rewrite bind_eq, (RawMemory_ctor_fits _ _ Hn Hfit). fold bn.
    cbn [RawMemory.GetAddress RawMemory.buffer_]. rewrite bind_eq.
    unfold try_catch, uninitialized_value_construct_n.
    assert (EA : blocks (allocated n h) !! bn
                 = Some ([] ++ replicate (N.to_nat n) None ++ [])).
    { unfold allocated. cbn. by rewrite lookup_insert_eq, app_nil_r. }
    pose proof (uninitialized_value_construct_loop_spec _ _ _ _ _ EA) as Hl.
    cbn [length] in Hl. change (N.of_nat 0) with 0 in Hl. rewrite Hl. clear Hl.
    destruct default_ctor as [d|].
    + eexists. split; [reflexivity|]. split_and!.
      * split_and!; cbn.
        -- by rewrite length_replicate, N2Nat.id.
        -- lia.
        -- unfold fits in Hfit. lia.
        -- split; [done|]. rewrite lookup_insert_eq. f_equal. unfold slots_of.
           rewrite fmap_replicate, length_replicate, Nat.sub_diag. done.
      * done.
      * intros o ys Ho. by apply holds_fresh_update.
    + destruct (N.to_nat n) eqn:En; [lia|].
      rewrite bind_eq. unfold RawMemory.dtor, RawMemory.Deallocate. cbn [RawMemory.buffer_].
      by rewrite (operator_delete_allocated n h).
  - intros Hn Hbad. unfold ctor_size.
    by rewrite bind_eq, (RawMemory_ctor_bad_alloc _ _ Hn Hbad).
Qed.

(** [Vector(const Vector& other)] of a vector that is not empty, when the
    store serves the request. *)
Lemma ctor_copy_fits o h ys :
  holds (State o h) ys →
  size_ o ≠ 0 →
  fits (size_ o) h →
  let n := size_ o in
  let bn := fresh (dom (blocks h)) in
  match mapM copy_ctor ys with
  | Some zs =>
      ∃ h', ctor_copy o h = Ok (Make (RawMemory.Make (Addr bn 0) n) n) h'
            ∧ holds (State (Make (RawMemory.Make (Addr bn 0) n) n) h') zs
            ∧ trace h' = trace h ++ [EvNew (n * sizeof) (Addr bn 0)]
            ∧ ∀ o' ys', holds (State o' h) ys' → holds (State o' h') ys'
  | None =>
      ctor_copy o h
      = Throw element_exception
          (Heap (blocks h) (limit h)
             (trace h ++ [EvNew (n * sizeof) (Addr bn 0); EvDelete (Addr bn 0) 0]))
  end.
Proof.
  intros Ho Hn Hfit n bn. destruct o as [[bo co] so]. cbn [size_] in *. subst n.
  assert (Hs : so = N.of_nat (length ys)) by apply Ho.
  unfold ctor_copy. cbn [size_ data_ RawMemory.GetAddress RawMemory.buffer_].
  rewrite bind_eq, (RawMemory_ctor_fits _ _ Hn Hfit). fold bn.
  cbn [RawMemory.GetAddress RawMemory.buffer_]. rewrite bind_eq.
  unfold try_catch, uninitialized_copy_n.
  destruct bo as [|bs i].
  { apply holds_nullptr in Ho as (_ & -> & _). done. }
  destruct (holds_allocated _ _ _ so Ho) as [HoA Hne]. cbn in Hne. fold bn in Hne.
  assert (Hbs : bs ≠ bn) by (intros ->; by eapply Hne).
  destruct HoA as (_ & Hle & _ & -> & Es). cbn in Hle, Es.
  assert (Es' : blocks (allocated so h) !! bs
                = Some ([] ++ (Some <$> ys) ++ replicate (N.to_nat co - length ys) None))
    by done.
  assert (EA : blocks (allocated so h) !! bn
               = Some ([] ++ replicate (length ys) None ++ [])).
  { unfold allocated. cbn. fold bn. rewrite lookup_insert_eq, app_nil_r.
    do 2 f_equal. lia. }
  pose proof (uninitialized_copy_loop_spec _ _ _ _ _ _ _ _ Hbs Es' EA) as Hl.
  cbn [length] in Hl. change (N.of_nat 0) with 0 in Hl.
  replace (N.to_nat so) with (length ys) by lia. rewrite Hl. clear Hl.
  destruct (mapM copy_ctor ys) as [zs|] eqn:Ez.
  - pose proof (length_mapM _ _ _ Ez) as Hlen.
    eexists. split; [reflexivity|]. split_and!.
    + split_and!; cbn.
      * lia.
      * lia.
      * unfold fits in Hfit. lia.
      * split; [done|]. rewrite lookup_insert_eq. f_equal. unfold slots_of.
        cbn. rewrite app_nil_r. replace (N.to_nat so - length zs)%nat with 0%nat by lia.
        by rewrite app_nil_r.
    + done.
    + intros o' ys' Ho'. by apply holds_fresh_update.
  - rewrite bind_eq. unfold RawMemory.dtor, RawMemory.Deallocate. cbn [RawMemory.buffer_].
    by rewrite (operator_delete_allocated so h).
Qed.

Lemma ctor_copy_bad_alloc o h :
  size_ o ≠ 0 →
  N.min (limit h) PTRDIFF_MAX < size_mul (size_ o) sizeof →
  ctor_copy o h = Throw bad_alloc h.
Proof.
  intros Hn Hbad. unfold ctor_copy.
  by rewrite bind_eq, (RawMemory_ctor_bad_alloc _ _ Hn Hbad).
Qed.

(** X12. [Vector(const Vector& other)]: when the store serves the request
    and no copy throws, the new vector owns a fresh region of exactly
    [other.size()] elements that holds copies of the elements of [other],
    in order, and [other] and every other vector are as before; a copy of
    an empty vector allocates nothing.  When a copy throws, the copies
    already made are destroyed, the region is released, empty, and the
    exception propagates.  When the store does not serve the request,
    [std::bad_alloc] leaves the store untouched. *)
Theorem ctor_copy_spec o h ys :
  holds (State o h) ys →
  let n := size_ o in
  let bn := fresh (dom (blocks h)) in
  (n = 0 → ctor_copy o h = Ok default h)
  ∧ (n ≠ 0 → fits n h →
     match mapM copy_ctor ys with
     | Some zs =>
         ∃ h', ctor_copy o h = Ok (Make (RawMemory.Make (Addr bn 0) n) n) h'
               ∧ holds (State (Make (RawMemory.Make (Addr bn 0) n) n) h') zs
               ∧ trace h' = trace h ++ [EvNew (n * sizeof) (Addr bn 0)]
               ∧ ∀ o' ys', holds (State o' h) ys' → holds (State o' h') ys'
     | None =>
         ctor_copy o h
         = Throw element_exception
             (Heap (blocks h) (limit h)
                (trace h ++ [EvNew (n * sizeof) (Addr bn 0); EvDelete (Addr bn 0) 0]))
     end)
  ∧ (n ≠ 0 → N.min (limit h) PTRDIFF_MAX < size_mul n sizeof →
     ctor_copy o h = Throw bad_alloc h).
Proof.
  intros Ho n bn. subst n bn. split_and!.
  - intros Hn. unfold ctor_copy. rewrite Hn, bind_eq, RawMemory_ctor_0. cbn.
    unfold try_catch, uninitialized_copy_n. by cbn.
  - intros Hn Hfit. by apply ctor_copy_fits.
  - intros Hn Hbad. by apply ctor_copy_bad_alloc.
Qed.

End regular.

(** *** [Resize] *)

Section resize.
Context {T : Type} `{Element T} `{!ElementLaws T} `{Regular T}.
Implicit Types (h : heap T) (xs ys ds : list T) (s : state T) (v o : Vector.t)
  (pre post : list (option T)).

(** Value initialisation of [k] more elements at the end of a vector that
    has room for them. *)
Lemma value_construct_tail buf cap size h xs (k : N) :
  holds (State (Make (RawMemory.Make buf cap) size) h) xs →
  size + k ≤ cap →
  let m := uninitialized_value_construct_n (ptr_add buf size) k in
  match default_ctor with
  | Some d =>
      ∃ h', m h = Ok tt h'
            ∧ holds (State (Make (RawMemory.Make buf cap) (size + k)) h')
                    (xs ++ replicate (N.to_nat k) d)
            ∧ trace h' = trace h
  | None => if k =? 0 then m h = Ok tt h else m h = Throw element_exception h
  end.
Proof.
  intros Hh Hk m. subst m. unfold uninitialized_value_construct_n.
  destruct buf as [|b i].
  { apply holds_nullptr in Hh as Hn. destruct Hn as (-> & -> & ->).
    assert (k = 0) as -> by lia. cbn.
    destruct default_ctor; [|done]. exists h. by split_and!. }
  destruct Hh as (Hs & Hle & Hcap & -> & Eb). cbn in Hs, Hle, Hcap, Eb.
  assert (Eb' : blocks h !! b
                = Some ((Some <$> xs) ++ replicate (N.to_nat k) None
                        ++ replicate (N.to_nat cap - length xs - N.to_nat k) None)).
  { rewrite Eb. unfold slots_of. f_equal. f_equal. rewrite <- replicate_add. f_equal. lia. }
  pose proof (uninitialized_value_construct_loop_spec _ _ _ _ _ Eb') as Hl.
  rewrite length_fmap in Hl. rewrite ptr_add_0, Hs. rewrite Hl. clear Hl.
  destruct default_ctor as [d|].
  - eexists. split; [reflexivity|]. split; [|done].
    split_and!; cbn.
    + rewrite length_app, length_replicate. lia.
    + lia.
    + done.
    + split; [done|]. rewrite lookup_insert_eq. f_equal. unfold slots_of.
      rewrite fmap_app, fmap_replicate, <- app_assoc, length_app, length_replicate.
      do 3 f_equal. lia.
  - destruct (N.eqb_spec k 0) as [->|Hk0]; [done|].
    by destruct (N.to_nat k) eqn:E; [lia|].
Qed.

(** X13. [Resize(n)] below the size destroys the elements from offset [n]
    on and keeps the first [n], in place: no allocation, same region, same
    capacity.  [Resize(size())] changes nothing. *)
Theorem Resize_shrink n s xs :
  holds s xs →
  (n < size_ (this s) →
   ∃ s', Resize n s = Ok tt s'
         ∧ holds s' (take (N.to_nat n) xs)
         ∧ size_ (this s') = n
         ∧ data_ (this s') = data_ (this s)
         ∧ trace (mem s') = trace (mem s))
  ∧ Resize (size_ (this s)) s = Ok tt s.
Proof.
  intros Hh. destruct s as [[[buf cap] size] h].
  cbn [this mem data_ size_].
  pose proof (holds_bounds _ _ _ Hh) as [Hc1 Hc2]. cbn in Hc1, Hc2.
  pose proof PTRDIFF_MAX_lt.
  assert (Hs : size = N.of_nat (length xs)) by apply Hh.
  assert (Hle : size ≤ cap) by apply Hh.
  split.
  - intros Hlt. unfold Resize. vsimpl.
    destruct (N.ltb_spec n size); [|lia]. vsimpl.
    destruct (N.leb_spec n cap); [|lia]. vsimpl.
    destruct buf as [|b i].
    { apply holds_nullptr in Hh as (_ & -> & _). lia. }
    destruct Hh as (_ & _ & Hcap & -> & Eb). cbn in Hcap, Eb.
    rewrite size_sub_small by lia.
    set (k := N.to_nat n).
    assert (Hlt' : (k < length xs)%nat) by lia.
    assert (Eb' : blocks h !! b
                  = Some ((Some <$> take k xs) ++ (Some <$> drop k xs)
                          ++ replicate (N.to_nat cap - length xs) None)).
    { rewrite Eb. unfold slots_of. by rewrite app_assoc, <- fmap_app, take_drop. }
    pose proof (destroy_n_live _ _ _ _ _ Eb') as Hd.
    rewrite length_fmap, length_take, length_drop in Hd.
    replace (N.of_nat (k `min` length xs)) with n in Hd by lia.
    replace (N.of_nat (length xs - k)) with (size - n) in Hd by lia.
    rewrite ptr_add_0. rewrite (on_heap_Ok _ _ _ _ _ Hd). vsimpl.
    eexists. split; [reflexivity|]. cbn [this mem data_ size_]. split_and!; try done.
    split_and!; cbn.
    + rewrite length_take. lia.
    + lia.
    + done.
    + split; [done|]. rewrite lookup_insert_eq. f_equal. unfold slots_of.
      rewrite length_take, <- replicate_add. do 2 f_equal. lia.
  - unfold Resize. vsimpl. rewrite N.ltb_irrefl. vsimpl.
    destruct (N.ltb_spec cap size); [lia|].
    rewrite (Reserve_enough size _ h) by done. vsimpl.
    destruct (N.leb_spec size cap); [|lia]. vsimpl.
    pose proof PTRDIFF_MAX_lt.
    rewrite size_sub_small, N.sub_diag by lia.
    unfold on_heap, uninitialized_value_construct_n. cbn [mem this N.to_nat].
    cbn. done.
Qed.

(** [Reserve(n)] above the capacity, when it returns. *)
Lemma Reserve_grows n s xs :
  holds s xs →
  RawMemory.capacity_ (data_ (this s)) < n →
  fits n (mem s) →
  is_Some (relocate xs) →
  ∃ s1 ys, Reserve n s = Ok tt s1
           ∧ relocate xs = Some ys
           ∧ holds s1 ys
           ∧ size_ (this s1) = size_ (this s)
           ∧ RawMemory.capacity_ (data_ (this s1)) = n.
Proof.
  intros Hh Hlt Hfit Hrel.
  pose proof (Reserve_returns n s xs Hh Hlt Hfit Hrel) as HOk.
  destruct (Reserve n s) as [[] s1|e s1|] eqn:E; [|done..].
  destruct s as [v h]. cbn [this mem] in *.
  destruct (Reserve_grow_inv _ _ _ _ _ Hh Hlt E) as (ys & Hr & _ & Hsz & Hcap & Hh' & _).
  exists s1, ys. split_and!; try done. apply Hh'.
  unfold fits in Hfit. pose proof PTRDIFF_MAX_lt. lia.
Qed.

Section resize_values.
Context `{!ValueSemantics T}.

(** X14. [Resize(n)] above the size, when the store serves the request
    for a larger region (if one is needed) and the relocation does not
    throw: the vector keeps its elements and gets [n - size()] value
    initialised ones after them; the capacity becomes [n] when it was
    smaller and is unchanged otherwise.  When [T()] throws instead, the
    exception propagates and the vector keeps exactly its elements, but a
    capacity that had to grow has grown. *)
Theorem Resize_grow n s xs :
  holds s xs →
  size_ (this s) < n →
  (RawMemory.capacity_ (data_ (this s)) < n → fits n (mem s) ∧ is_Some (relocate xs)) →
  match default_ctor with
  | Some d =>
      ∃ s', Resize n s = Ok tt s'
            ∧ holds s' (xs ++ replicate (N.to_nat (n - size_ (this s))) d)
            ∧ size_ (this s') = n
            ∧ RawMemory.capacity_ (data_ (this s'))
              = N.max (RawMemory.capacity_ (data_ (this s))) n
  | None =>
      ∃ s', Resize n s = Throw element_exception s'
            ∧ holds s' xs
            ∧ RawMemory.capacity_ (data_ (this s'))
              = N.max (RawMemory.capacity_ (data_ (this s))) n
  end.
Proof.
  intros Hh Hlt Hcase.
  pose proof (holds_bounds _ _ _ (proj1 (holds_State s xs) Hh)) as [Hc1 Hc2].
  pose proof PTRDIFF_MAX_lt.
  assert (Hle : size_ (this s) ≤ RawMemory.capacity_ (data_ (this s))) by apply Hh.
  (* the call of [Reserve] *)
  assert (HR : ∃ s1, Reserve (if RawMemory.capacity_ (data_ (this s)) <? n
                              then n else size_ (this s)) s = Ok tt s1
                     ∧ holds s1 xs
                     ∧ size_ (this s1) = size_ (this s)
                     ∧ RawMemory.capacity_ (data_ (this s1))
                       = N.max (RawMemory.capacity_ (data_ (this s))) n).
  { destruct (N.ltb_spec (RawMemory.capacity_ (data_ (this s))) n) as [Hc|Hc].
    - destruct (Hcase Hc) as [Hfit Hrel].
      destruct (Reserve_grows n s xs Hh Hc Hfit Hrel) as (s1 & ys & E & Hr & Hh1 & Hs1 & Hcap1).
      apply relocate_value in Hr as ->. exists s1. split_and!; [done..|lia].
    - exists s. destruct s as [v h]. split_and!; [by apply Reserve_enough|done|done|].
      cbn [this] in *. lia. }
  destruct HR as (s1 & ER & Hh1 & Hs1 & Hcap1).
  destruct s as [[[buf cap] size] h], s1 as [[[buf1 cap1] size1] h1].
  cbn [this mem data_ size_ RawMemory.capacity_] in *. subst size1.
  assert (Hk : size + (n - size) ≤ cap1) by lia.
  pose proof (value_construct_tail _ _ _ _ _ _ Hh1 Hk) as Hv. cbv zeta in Hv.
  assert (Hn : n < SIZE_MOD).
  { destruct (N.ltb_spec cap n) as [Hc|Hc]; [|lia].
    destruct (Hcase Hc) as [Hfit _]. unfold fits in Hfit. pose proof sizeof_pos.
    assert (n * 1 ≤ n * sizeof) by (apply N.mul_le_mono_l; lia). lia. }
  unfold Resize. vsimpl. destruct (N.ltb_spec n size); [lia|]. vsimpl.
  rewrite ER. vsimpl. destruct (N.leb_spec size cap1); [|lia]. vsimpl.
  rewrite size_sub_small by lia.
  destruct default_ctor as [d|].
  - destruct Hv as (h' & Hv & Hh' & _).
    rewrite (on_heap_Ok _ _ _ _ _ Hv). vsimpl.
    eexists. split; [reflexivity|]. cbn [this data_ size_ RawMemory.capacity_].
    split_and!; [|done..]. by replace (size + (n - size)) with n in Hh' by lia.
  - destruct (N.eqb_spec (n - size) 0); [lia|].
    rewrite (on_heap_Throw _ _ _ _ _ Hv).
    eexists. split; [reflexivity|]. by split.
Qed.

End resize_values.

End resize.

(** *** Copy assignment *)

Section copy_assignment.
Context {T : Type} `{Element T} `{!ElementLaws T} `{Regular T}.
Implicit Types (h : heap T) (xs ys ds zs : list T) (s : state T) (v o : Vector.t)
  (pre post : list (option T)).

Lemma Swap_eq o v h : Swap o (State v h) = Ok v (State o h).
Proof. destruct o as [[bo co] so], v as [[bv cv] sv]. done. Qed.

(** What the loop of copy assignments does on two ranges of live objects
    in different regions. *)
Lemma copy_assign_loop_spec v h bd bs cd cs pre_d ds post_d pre_s xs post_s :
  bd ≠ bs →
  length pre_d = length pre_s →
  length ds = length xs →
  blocks h !! bd = Some (pre_d ++ (Some <$> ds) ++ post_d) →
  blocks h !! bs = Some (pre_s ++ (Some <$> xs) ++ post_s) →
  N.of_nat (length pre_d + length ds) ≤ cd →
  N.of_nat (length pre_d + length ds) ≤ cs →
  cd < SIZE_MOD →
  copy_assign_loop (RawMemory.Make (Addr bd 0) cd) (RawMemory.Make (Addr bs 0) cs)
    (N.of_nat (length pre_d)) (length ds) (State v h)
  = (if (copy_assign_list ds xs).2 then Ok tt else Throw element_exception)
      (State v (update_block bd (pre_d ++ (Some <$> (copy_assign_list ds xs).1) ++ post_d) h)).
Proof.
  intros Hne. revert h pre_d pre_s xs.
  induction ds as [|d ds IH]; intros h pre_d pre_s xs Hpre Hlen Ed Es Hcd Hcs Hmod.
  - cbn. by rewrite update_block_same.
  - destruct xs as [|x xs]; [done|]. cbn [length] in Hlen, Hcd, Hcs.
    rewrite fmap_cons, <- app_comm_cons in Ed, Es.
    cbn [copy_assign_loop length copy_assign_list]. vsimpl.
    destruct (N.ltb_spec (N.of_nat (length pre_d)) cd); [|lia]. vsimpl.
    destruct (N.ltb_spec (N.of_nat (length pre_d)) cs); [|lia]. vsimpl.
    rewrite !ptr_add_0. unfold on_heap at 1, copy_assign_at. cbn [mem this].
    rewrite !bind_eq, (read_middle _ _ _ _ _ Ed).
    rewrite Hpre, !bind_eq, (read_middle _ _ _ _ _ Es), <- Hpre.
    destruct (copy_assign d x) as [y|] eqn:Ey; msimpl.
    + rewrite (assign_middle _ _ _ _ y _ Ed).
      set (h1 := update_block bd _ h).
      rewrite size_add_small by lia.
      specialize (IH h1 (pre_d ++ [Some y]) (pre_s ++ [Some x]) xs).
      rewrite !length_app, !Nat.add_1_r, <- !app_assoc in IH.
      replace (N.of_nat (length pre_d) + 1) with (N.of_nat (S (length pre_d))) by lia.
      rewrite IH; clear IH; try done; try lia.
      * destruct (copy_assign_list ds xs) as [zs ok]. cbn [fst snd].
        subst h1. by rewrite update_block_twice.
      * apply update_block_lookup.
      * subst h1. by rewrite update_block_lookup_ne.
    + cbn [fst snd]. by rewrite update_block_same.
Qed.

Lemma holds_apart_fresh v h xs cap size :
  holds (State v h) xs →
  apart v (Make (RawMemory.Make (Addr (fresh (dom (blocks h))) 0) cap) size).
Proof.
  intros Hh. unfold apart. cbn. destruct v as [[[|b i] cv] sv]; cbn; [done|].
  destruct Hh as (_ & _ & _ & _ & Eb). cbn in Eb. intros ->.
  by rewrite fresh_block in Eb.
Qed.

(** The branch [data_.Capacity() < other.size_] of the copy assignment: a
    copy of [other] is made, swapped in, and the old contents are destroyed
    with the copy. *)
Lemma assign_copy_reallocating v o h xs ys :
  holds (State v h) xs →
  holds (State o h) ys →
  apart v o →
  RawMemory.capacity_ (data_ v) < size_ o →
  fits (size_ o) h →
  let n := size_ o in
  let bn := fresh (dom (blocks h)) in
  let v' := Make (RawMemory.Make (Addr bn 0) n) n in
  match mapM copy_ctor ys with
  | Some zs =>
      ∃ h', assign_copy (another o) (State v h) = Ok tt (State v' h')
            ∧ holds (State v' h') zs
            ∧ holds (State o h') ys
            ∧ trace h' = trace h ++ [EvNew (n * sizeof) (Addr bn 0);
                                     EvDelete (RawMemory.buffer_ (data_ v)) 0]
  | None =>
      assign_copy (another o) (State v h)
      = Throw element_exception
          (State v (Heap (blocks h) (limit h)
                      (trace h ++ [EvNew (n * sizeof) (Addr bn 0);
                                   EvDelete (Addr bn 0) 0])))
  end.
Proof.
  intros Hv Ho Ha Hlt Hfit n bn v'.
  assert (Hn : size_ o ≠ 0) by lia.
  pose proof (ctor_copy_fits _ _ _ Ho Hn Hfit) as Hc. cbv zeta in Hc. fold n bn v' in Hc.
  unfold assign_copy. vsimpl. unfold RawMemory.Capacity.
  destruct (N.ltb_spec (RawMemory.capacity_ (data_ v)) (size_ o)); [|lia].
  vsimpl.
  destruct (mapM copy_ctor ys) as [zs|].
  - destruct Hc as (h1 & Hc & Hnew & Ht & Hframe).
    rewrite (on_heap_Ok _ _ _ _ _ Hc). vsimpl. rewrite Swap_eq. vsimpl.
    pose proof (Hframe _ _ Hv) as Hv1. pose proof (Hframe _ _ Ho) as Ho1.
    rewrite (on_heap_Ok _ _ _ _ _ (dtor_released _ _ _ Hv1)).
    eexists. split; [reflexivity|]. split_and!.
    + eapply holds_released; [exact Hv1|exact Hnew|]. by eapply holds_apart_fresh.
    + by eapply holds_released.
    + unfold released. destruct (RawMemory.buffer_ (data_ v)); cbn;
        by rewrite Ht, <- app_assoc.
  - by rewrite (on_heap_Throw _ _ _ _ _ Hc).
Qed.

(** The copy assignments of the first [k] elements, from a vector [o]
    that holds at least [k] elements into a region that holds [ds]. *)
Lemma copy_assign_prefix v h b cv o ys ds post :
  holds (State o h) ys →
  (∀ i, RawMemory.buffer_ (data_ o) ≠ Addr b i) →
  blocks h !! b = Some ((Some <$> ds) ++ post) →
  (length ds ≤ length ys)%nat →
  N.of_nat (length ds) ≤ cv →
  cv < SIZE_MOD →
  let r := copy_assign_list ds (take (length ds) ys) in
  copy_assign_loop (RawMemory.Make (Addr b 0) cv) (data_ o) 0 (length ds) (State v h)
  = (if r.2 then Ok tt else Throw element_exception)
      (State v (update_block b ((Some <$> r.1) ++ post) h)).
Proof.
  intros Ho Hne Eb Hlen Hcv Hmod r. subst r.
  destruct o as [[bo co] so]. cbn [data_ RawMemory.buffer_] in *.
  destruct bo as [|c i].
  { apply holds_nullptr in Ho as (_ & _ & ->). destruct ds; [|cbn in Hlen; lia].
    cbn. by rewrite update_block_same. }
  assert (Hbc : b ≠ c) by (intros ->; by eapply Hne).
  destruct Ho as (Hso & Hle & _ & -> & Es). cbn in Hso, Hle, Es.
  assert (Es' : blocks h !! c
                = Some ([] ++ (Some <$> take (length ds) ys)
                        ++ ((Some <$> drop (length ds) ys)
                            ++ replicate (N.to_nat co - length ys) None))).
  { rewrite Es. unfold slots_of. cbn. by rewrite app_assoc, <- fmap_app, take_drop. }
  assert (Eb' : blocks h !! b = Some ([] ++ (Some <$> ds) ++ post)) by done.
  assert (Hl : length ds = length (take (length ds) ys)) by (rewrite length_take; lia).
  pose proof (copy_assign_loop_spec v h b c cv co [] ds post [] _ _ Hbc eq_refl Hl Eb' Es')
    as Hspec.
  cbn [length Nat.add app] in Hspec. change (N.of_nat 0) with 0 in Hspec.
  apply Hspec; [done|lia|done].
Qed.

(** The branch [size_ > other.size_] of the copy assignment: the elements
    from offset [other.size_] on are destroyed first, then the others are
    assigned, and only then [size_] is updated. *)
Lemma assign_copy_shrinking bv cv sv o h xs ys :
  let v := Make (RawMemory.Make bv cv) sv in
  holds (State v h) xs →
  holds (State o h) ys →
  apart v o →
  size_ o < sv →
  let r := copy_assign_list (take (length ys) xs) ys in
  ∃ b, bv = Addr b 0 ∧
    assign_copy (another o) (State v h)
    = if r.2
      then Ok tt (State (Make (RawMemory.Make bv cv) (size_ o))
                    (update_block b (slots_of r.1 cv) h))
      else Throw element_exception (State v (update_block b (slots_of r.1 cv) h)).
Proof.
  intros v Hv Ho Ha Hlt r. subst v.
  pose proof (holds_bounds _ _ _ Hv) as [Hc1 Hc2]. cbn in Hc1, Hc2.
  pose proof PTRDIFF_MAX_lt.
  assert (Hso : size_ o = N.of_nat (length ys)) by apply Ho.
  destruct bv as [|b i].
  { apply holds_nullptr in Hv as (_ & -> & _). lia. }
  exists b. destruct Hv as (Hsv & Hle & Hcap & -> & Eb). split; [done|].
  cbn in Hsv, Hle, Hcap, Eb.
  set (k := length ys) in *.
  assert (Hk : (k < length xs)%nat) by lia.
  unfold assign_copy. vsimpl. unfold RawMemory.Capacity. cbn [RawMemory.capacity_].
  destruct (N.ltb_spec cv (size_ o)); [lia|].
  destruct (N.ltb_spec (size_ o) sv); [|lia]. vsimpl.
  destruct (N.leb_spec (size_ o) cv); [|lia]. vsimpl.
  destruct (N.leb_spec sv cv); [|lia]. vsimpl.
  rewrite !ptr_add_0.
  (* [std::destroy] *)
  assert (Eb' : blocks h !! b
                = Some ((Some <$> take k xs) ++ (Some <$> drop k xs)
                        ++ replicate (N.to_nat cv - length xs) None)).
  { rewrite Eb. unfold slots_of. by rewrite app_assoc, <- fmap_app, take_drop. }
  assert (Hd : std_destroy (Addr b (size_ o)) (Addr b sv) h
               = Ok tt (update_block b ((Some <$> take k xs)
                          ++ replicate (length xs - k) None
                          ++ replicate (N.to_nat cv - length xs) None) h)).
  { unfold std_destroy, ptr_le, ptr_diff. rewrite !decide_True by done. msimpl.
    destruct (N.leb_spec (size_ o) sv); [|lia]. msimpl.
    rewrite wrap_diff by lia.
    pose proof (destroy_loop_live _ _ _ _ _ Eb') as Hd.
    rewrite length_fmap, length_take, length_drop in Hd.
    replace (N.of_nat (k `min` length xs)) with (size_ o) in Hd by lia.
    replace (N.to_nat (sv - size_ o)) with (length xs - k)%nat by lia.
    exact Hd. }
  rewrite (on_heap_Ok _ _ _ _ _ Hd). vsimpl.
  set (h1 := update_block b _ h).
  assert (E1 : blocks h1 !! b
               = Some ((Some <$> take k xs)
                       ++ (replicate (length xs - k) None
                           ++ replicate (N.to_nat cv - length xs) None)))
    by apply update_block_lookup.
  assert (Ho1 : holds (State o h1) ys).
  { eapply holds_frame; [exact Ho|]. intros c j E. subst h1.
    apply update_block_lookup_ne. intros <-. unfold apart in Ha. cbn in Ha.
    by rewrite E in Ha. }
  assert (Hne : ∀ j, RawMemory.buffer_ (data_ o) ≠ Addr b j).
  { intros j E. unfold apart in Ha. cbn in Ha. by rewrite E in Ha. }
  assert (Hlt' : length (take k xs) = k) by (rewrite length_take; lia).
  pose proof (copy_assign_prefix (Make (RawMemory.Make (Addr b 0) cv) sv) h1 b cv o ys
                (take k xs) _ Ho1 Hne E1) as Hloop.
  rewrite Hlt' in Hloop. cbv zeta in Hloop.
  rewrite (take_ge ys) in Hloop by (unfold k; lia). fold r in Hloop.
  replace (N.to_nat (size_ o)) with k by lia.
  rewrite Hloop by lia. clear Hloop.
  assert (Hr : length r.1 = k) by (subst r; by rewrite copy_assign_list_length).
  assert (Eh : update_block b ((Some <$> r.1)
                 ++ replicate (length xs - k) None
                 ++ replicate (N.to_nat cv - length xs) None) h1
               = update_block b (slots_of r.1 cv) h).
  { subst h1. rewrite update_block_twice. f_equal. unfold slots_of. f_equal.
    rewrite <- replicate_add. f_equal. lia. }
  rewrite Eh. destruct r.2; by vsimpl.
Qed.

(** The last branch of the copy assignment, [size_ <= other.size_ <=
    capacity]: the elements are assigned, and the further elements of
    [other] are copied behind them. *)
Lemma assign_copy_growing bv cv sv o h xs ys :
  let v := Make (RawMemory.Make bv cv) sv in
  holds (State v h) xs →
  holds (State o h) ys →
  apart v o →
  sv ≤ size_ o →
  size_ o ≤ cv →
  let r := copy_assign_list xs (take (length xs) ys) in
  let v' := Make (RawMemory.Make bv cv) (size_ o) in
  ∃ h1,
    holds (State v h1) r.1 ∧ holds (State o h1) ys ∧ trace h1 = trace h
    ∧ if r.2 then
        match mapM copy_ctor (drop (length xs) ys) with
        | Some zs =>
            ∃ h2, assign_copy (another o) (State v h) = Ok tt (State v' h2)
                  ∧ holds (State v' h2) (r.1 ++ zs)
                  ∧ holds (State o h2) ys
                  ∧ trace h2 = trace h
        | None => assign_copy (another o) (State v h) = Throw element_exception (State v h1)
        end
      else assign_copy (another o) (State v h) = Throw element_exception (State v h1).
Proof.
  intros v Hv Ho Ha Hle1 Hle2 r v'. subst v v'.
  pose proof (holds_bounds _ _ _ Hv) as [Hc1 Hc2]. cbn in Hc1, Hc2.
  pose proof PTRDIFF_MAX_lt.
  assert (Hso : size_ o = N.of_nat (length ys)) by apply Ho.
  assert (Hsv : sv = N.of_nat (length xs)) by apply Hv.
  assert (Hco : size_ o ≤ RawMemory.capacity_ (data_ o)) by apply Ho.
  assert (Hr : length r.1 = length xs) by (subst r; by rewrite copy_assign_list_length).
  remember (assign_copy (another o) (State (Make (RawMemory.Make bv cv) sv) h))
    as res eqn:Hres.
  unfold assign_copy in Hres. vsimpl_in Hres.
  unfold RawMemory.Capacity in Hres. cbn [RawMemory.capacity_] in Hres.
  destruct (N.ltb_spec cv (size_ o)); [lia|].
  destruct (N.ltb_spec (size_ o) sv); [lia|].
  destruct (decide (size_ o = 0)) as [Hz|Hnz].
  { (* both vectors are empty *)
    assert (sv = 0) as -> by lia.
    destruct xs; [|cbn in Hsv; lia]. destruct ys; [|cbn in Hso; lia].
    rewrite Hz in *. cbn [N.to_nat copy_assign_loop] in Hres. vsimpl_in Hres.
    destruct (N.leb_spec 0 (RawMemory.capacity_ (data_ o))); [|lia]. vsimpl_in Hres.
    destruct (N.leb_spec 0 cv); [|lia]. vsimpl_in Hres.
    unfold on_heap, uninitialized_copy_n in Hres. cbn in Hres.
    subst r res. cbn. exists h. split_and!; [done..|].
    exists h. split_and!; try done. }
  destruct o as [[bo co] so]. cbn [size_ data_ RawMemory.capacity_] in *.
  destruct bo as [|c j].
  { apply holds_nullptr in Ho as (_ & -> & _). done. }
  destruct bv as [|b i].
  { apply holds_nullptr in Hv as (-> & _ & _). lia. }
  assert (Hbc : c ≠ b) by (unfold apart in Ha; cbn in Ha; congruence).
  destruct Hv as (_ & _ & Hcap & -> & Eb). cbn in Hcap, Eb.
  assert (Hne : ∀ k, RawMemory.buffer_ (data_ (Make (RawMemory.Make (Addr c j) co) so))
                     ≠ Addr b k) by (cbn; congruence).
  (* the assignments *)
  pose proof (copy_assign_prefix (Make (RawMemory.Make (Addr b 0) cv) sv) h b cv _ ys
                xs _ Ho Hne Eb) as Hloop.
  cbv zeta in Hloop. fold r in Hloop. cbn [data_] in Hloop.
  replace (N.to_nat sv) with (length xs) in Hres by lia.
  rewrite bind_eq in Hres. rewrite Hloop in Hres by lia. clear Hloop.
  set (h1 := update_block b ((Some <$> r.1) ++ replicate (N.to_nat cv - length xs) None) h)
    in *.
  assert (Hv1 : holds (State (Make (RawMemory.Make (Addr b 0) cv) sv) h1) r.1).
  { split_and!; cbn; [lia|lia|done|]. split; [done|].
    rewrite lookup_insert_eq. unfold slots_of. by rewrite Hr. }
  assert (Ho1 : holds (State (Make (RawMemory.Make (Addr c j) co) so) h1) ys).
  { eapply holds_frame; [exact Ho|]. intros c' j' [= <- <-]. subst h1.
    by apply update_block_lookup_ne. }
  exists h1. split_and!; [done..|].
  destruct r.2; [|by subst res]. vsimpl_in Hres.
  destruct (N.leb_spec sv co); [|lia]. vsimpl_in Hres.
  destruct (N.leb_spec sv cv); [|lia]. vsimpl_in Hres.
  destruct Ho as (_ & _ & Hcapo & -> & Es). cbn in Hcapo, Es.
  rewrite !ptr_add_0, size_sub_small in Hres by lia.
  (* the copies *)
  set (k := length xs) in *.
  assert (Es1 : blocks h1 !! c
                = Some ((Some <$> take k ys) ++ (Some <$> drop k ys)
                        ++ replicate (N.to_nat co - length ys) None)).
  { subst h1. rewrite update_block_lookup_ne by done. rewrite Es. unfold slots_of.
    by rewrite app_assoc, <- fmap_app, take_drop. }
  assert (Ed1 : blocks h1 !! b
                = Some ((Some <$> r.1) ++ replicate (length (drop k ys)) None
                        ++ replicate (N.to_nat cv - length ys) None)).
  { subst h1. rewrite update_block_lookup. do 2 f_equal.
    rewrite <- replicate_add, length_drop. f_equal. lia. }
  pose proof (uninitialized_copy_loop_spec _ _ _ _ _ _ _ _ Hbc Es1 Ed1) as Hcopy.
  rewrite !length_fmap, length_take, Hr in Hcopy.
  replace (k `min` length ys)%nat with k in Hcopy by lia.
  unfold uninitialized_copy_n in Hres.
  replace (N.to_nat (so - sv)) with (length (drop k ys)) in Hres
    by (rewrite length_drop; lia).
  replace sv with (N.of_nat k) in Hres at 1 2 by lia.
  destruct (mapM copy_ctor (drop k ys)) as [zs|] eqn:Ez.
  - rewrite (on_heap_Ok _ _ _ _ _ Hcopy) in Hres. vsimpl_in Hres.
    pose proof (length_mapM _ _ _ Ez) as Hlz. rewrite length_drop in Hlz.
    eexists. split; [exact Hres|]. split_and!.
    + split_and!; cbn; [rewrite length_app; lia|lia|done|]. split; [done|].
      rewrite lookup_insert_eq. f_equal. unfold slots_of.
      rewrite fmap_app, <- app_assoc, length_app. do 3 f_equal. lia.
    + split_and!; cbn; [lia|lia|done|]. split; [done|].
      rewrite lookup_insert_ne by done. subst h1. cbn.
      by rewrite lookup_insert_ne by done.
    + done.
  - by rewrite (on_heap_Throw _ _ _ _ _ Hcopy) in Hres.
Qed.

Lemma copy_assign_list_total ds xs :
  (∀ d x : T, is_Some (copy_assign d x)) → (copy_assign_list ds xs).2 = true.
Proof.
  intros Ha. revert xs. induction ds as [|d ds IH]; intros [|x xs]; cbn; try done.
  destruct (Ha d x) as [y ->]. specialize (IH xs).
  by destruct (copy_assign_list ds xs).
Qed.

Lemma destroy_loop_add (p : ptr) (n m : nat) h :
  destroy_loop (T:=T) p (n + m) h
  = (destroy_loop p n;; destroy_loop (ptr_add p (N.of_nat n)) m) h.
Proof.
  revert p h. induction n as [|n IH]; intros p h.
  - cbn [destroy_loop Nat.add]. rewrite bind_eq. cbn.
    destruct p as [|b i]; [done|]. unfold ptr_add. by rewrite N.add_0_r.
  - cbn [destroy_loop Nat.add]. rewrite !bind_eq.
    destruct (destroy_at p h) as [[] h1|e h1|]; [|done..].
    rewrite IH, !bind_eq. destruct (destroy_loop _ n h1); [|done..].
    f_equal. destruct p as [|b i]; [done|]. unfold ptr_add. f_equal. lia.
Qed.

(** A vector object whose [size_] counts slots that hold no object: it
    has no logical contents any more, and its destructor destroys what is
    not alive. *)
Lemma broken_vector b cv sv h zs :
  (length zs < N.to_nat sv)%nat →
  sv ≤ cv →
  blocks h !! b = Some (slots_of zs cv) →
  let v := Make (RawMemory.Make (Addr b 0) cv) sv in
  elements (State v h) = None ∧ dtor v h = Crash.
Proof.
  intros Hlt Hle Eb v. subst v. split.
  - unfold elements. cbn [this data_ RawMemory.buffer_ mem size_]. rewrite Eb. cbn.
    rewrite drop_0. destruct (decide _) as [_|]; [|done].
    apply (mapM_lookup_None id _ (length zs) None); [|done].
    rewrite lookup_take_lt by lia. unfold slots_of.
    rewrite lookup_app_r by (by rewrite length_fmap).
    rewrite length_fmap, Nat.sub_diag. apply lookup_replicate_2. lia.
  - unfold dtor, destroy_n. cbn [data_ size_ RawMemory.GetAddress RawMemory.buffer_].
    rewrite bind_eq.
    replace (N.to_nat sv) with (length zs + S (N.to_nat sv - S (length zs)))%nat by lia.
    rewrite destroy_loop_add, bind_eq.
    assert (Eb' : blocks h !! b
                  = Some ([] ++ (Some <$> zs)
                          ++ replicate (N.to_nat cv - length zs) None)) by done.
    pose proof (destroy_loop_live _ _ _ _ _ Eb') as Hd. cbn [length] in Hd.
    change (N.of_nat 0) with 0 in Hd. rewrite Hd. clear Hd.
    rewrite ptr_add_0.
    set (h1 := update_block b _ h).
    assert (E1 : blocks h1 !! b
                 = Some (replicate (length zs) None
                         ++ None :: replicate (N.to_nat cv - S (length zs)) None)).
    { subst h1. rewrite update_block_lookup. cbn [app]. do 2 f_equal.
      by replace (N.to_nat cv - length zs)%nat
        with (S (N.to_nat cv - S (length zs))) by lia. }
    pose proof (destroy_loop_raw _ _ _ _ (N.to_nat sv - S (length zs)) E1) as Hr.
    rewrite length_replicate in Hr. by rewrite Hr.
Qed.

(** X16. What the copy assignment leaves behind when it throws.  When it
    had to reallocate, nothing has changed: the free store holds what it
    held and the vector is as before.  When the elements are assigned in
    place and the vector does not shrink, the vector is still well formed,
    with as many elements as before.  When the vector is to shrink, its
    tail has been destroyed before the assignments and [size_] has not
    been updated: the vector object counts elements that are not alive, and
    its destructor destroys them again. *)
Theorem assign_copy_exception_safety v o h xs ys e s' :
  holds (State v h) xs →
  holds (State o h) ys →
  apart v o →
  assign_copy (another o) (State v h) = Throw e s' →
  this s' = v
  ∧ if RawMemory.capacity_ (data_ v) <? size_ o
    then blocks (mem s') = blocks h ∧ holds s' xs
    else if size_ o <? size_ v
    then elements s' = None ∧ dtor v (mem s') = Crash
    else ∃ zs, holds s' zs ∧ length zs = length xs.
Proof.
  intros Hv Ho Ha HT.
  pose proof (holds_bounds _ _ _ Ho) as [Hc1 Hc2].
  pose proof PTRDIFF_MAX_lt.
  assert (Hso : size_ o ≤ RawMemory.capacity_ (data_ o)) by apply Ho.
  assert (Hsv : size_ v ≤ RawMemory.capacity_ (data_ v)) by apply Hv.
  destruct (N.ltb_spec (RawMemory.capacity_ (data_ v)) (size_ o)) as [Hlt|Hge].
  - (* a copy is made and swapped in *)
    assert (Hn : size_ o ≠ 0) by lia.
    assert (Hb : size_ o * sizeof < SIZE_MOD).
    { assert (Hcap : RawMemory.capacity_ (data_ o) * sizeof ≤ PTRDIFF_MAX) by apply Ho.
      assert (size_ o * sizeof ≤ RawMemory.capacity_ (data_ o) * sizeof)
        by (by apply N.mul_le_mono_r).
      lia. }
    destruct (fits_or_bad_alloc _ h Hn Hb) as [Hfit|Hbad].
    + pose proof (assign_copy_reallocating _ _ _ _ _ Hv Ho Ha Hlt Hfit) as Hc.
      cbv zeta in Hc. destruct (mapM copy_ctor ys) as [zs|].
      * destruct Hc as (h' & Hc & _). by rewrite Hc in HT.
      * rewrite Hc in HT. injection HT as <- <-. cbn. split_and!; [done..|].
        eapply holds_frame; [exact Hv|done].
    + assert (Hc : assign_copy (another o) (State v h) = Throw bad_alloc (State v h)).
      { unfold assign_copy. vsimpl. unfold RawMemory.Capacity.
        destruct (N.ltb_spec (RawMemory.capacity_ (data_ v)) (size_ o)); [|lia]. vsimpl.
        assert (Hcc : ctor_copy o h = Throw bad_alloc h).
        { unfold ctor_copy. by rewrite bind_eq, Hbad. }
        by rewrite (on_heap_Throw _ _ _ _ _ Hcc). }
      rewrite Hc in HT. by injection HT as <- <-.
  - destruct v as [[bv cv] sv]. cbn [data_ size_ RawMemory.capacity_] in *.
    destruct (N.ltb_spec (size_ o) sv) as [Hlt|Hge'].
    + (* the tail is destroyed, then the elements are assigned *)
      destruct (assign_copy_shrinking _ _ _ _ _ _ _ Hv Ho Ha Hlt) as (b & -> & Hc).
      assert (Hys : size_ o = N.of_nat (length ys)) by apply Ho.
      set (r := copy_assign_list (take (length ys) xs) ys) in *.
      assert (Hr : length r.1 = length ys).
      { subst r. rewrite copy_assign_list_length, length_take.
        assert (sv = N.of_nat (length xs)) by apply Hv. lia. }
      destruct r.2; [by rewrite Hc in HT|].
      rewrite Hc in HT. injection HT as <- <-. split; [done|].
      apply (broken_vector _ _ _ _ r.1); [lia|done|apply update_block_lookup].
    + (* the elements are assigned, then the further ones are copied *)
      pose proof (assign_copy_growing _ _ _ _ _ _ _ Hv Ho Ha Hge' Hge) as Hc.
      cbv zeta in Hc. destruct Hc as (h1 & Hv1 & _ & _ & Hc).
      set (r := copy_assign_list xs (take (length xs) ys)) in *.
      assert (Hr : length r.1 = length xs) by (subst r; by rewrite copy_assign_list_length).
      destruct r.2.
      * destruct (mapM copy_ctor (drop (length xs) ys)) as [zs|].
        -- destruct Hc as (h2 & Hc & _). by rewrite Hc in HT.
        -- rewrite Hc in HT. injection HT as <- <-. split; [done|]. by exists r.1.
      * rewrite Hc in HT. injection HT as <- <-. split; [done|]. by exists r.1.
Qed.

Section copy_assignment_values.
Context `{!ValueSemantics T} `{!RegularValues T}.

Lemma copy_assign_list_value ds xs :
  length ds = length xs →
  (copy_assign_list ds xs).2 = true →
  (copy_assign_list ds xs).1 = xs.
Proof.
  revert xs. induction ds as [|d ds IH]; intros [|x xs]; cbn; try done.
  intros [= Hlen]. destruct (copy_assign d x) as [y|] eqn:Ey; [|done].
  specialize (IH xs Hlen). destruct (copy_assign_list ds xs) as [zs ok]. cbn in *.
  intros Hok. rewrite (IH Hok). f_equal. by eapply copy_assign_value.
Qed.

(** X15. [operator=(const Vector& other)]: every return leaves in [*this]
    the elements of [other], in order, and [other] as it was; the capacity
    becomes [other.size()] when it was smaller and is unchanged otherwise.
    The assignment returns when no copy throws and, if it has to
    reallocate, the store serves the request.  Assigning a vector to itself
    changes nothing. *)
Theorem assign_copy_spec v o h xs ys :
  holds (State v h) xs →
  holds (State o h) ys →
  apart v o →
  assign_copy itself (State v h) = Ok tt (State v h)
  ∧ ((∀ x : T, is_Some (copy_ctor x)) →
     (∀ d x : T, is_Some (copy_assign d x)) →
     (RawMemory.capacity_ (data_ v) < size_ o → fits (size_ o) h) →
     is_Ok (assign_copy (another o) (State v h)))
  ∧ ∀ s', assign_copy (another o) (State v h) = Ok tt s' →
      holds s' ys
      ∧ holds (State o (mem s')) ys
      ∧ RawMemory.capacity_ (data_ (this s'))
        = (if RawMemory.capacity_ (data_ v) <? size_ o
           then size_ o else RawMemory.capacity_ (data_ v)).
Proof.
  intros Hv Ho Ha.
  pose proof (holds_bounds _ _ _ Ho) as [Hc1 Hc2].
  pose proof PTRDIFF_MAX_lt.
  assert (Hso : size_ o ≤ RawMemory.capacity_ (data_ o)) by apply Ho.
  assert (Hsv : size_ v ≤ RawMemory.capacity_ (data_ v)) by apply Hv.
  assert (Hys : size_ o = N.of_nat (length ys)) by apply Ho.
  assert (Hxs : size_ v = N.of_nat (length xs)) by apply Hv.
  split; [done|].
  destruct (N.ltb_spec (RawMemory.capacity_ (data_ v)) (size_ o)) as [Hlt|Hge].
  - (* a copy is made and swapped in *)
    split.
    + intros Hc _ Hfit.
      pose proof (assign_copy_reallocating _ _ _ _ _ Hv Ho Ha Hlt (Hfit Hlt)) as HA.
      cbv zeta in HA. destruct (mapM_total copy_ctor ys Hc) as [zs Hzs].
      rewrite Hzs in HA. destruct HA as (h' & -> & _). exact I.
    + intros s' HOk.
      assert (Hn : size_ o ≠ 0) by lia.
      assert (Hb : size_ o * sizeof < SIZE_MOD).
      { assert (Hcap : RawMemory.capacity_ (data_ o) * sizeof ≤ PTRDIFF_MAX) by apply Ho.
        assert (size_ o * sizeof ≤ RawMemory.capacity_ (data_ o) * sizeof)
          by (by apply N.mul_le_mono_r).
        lia. }
      destruct (fits_or_bad_alloc _ h Hn Hb) as [Hfit|Hbad].
      * pose proof (assign_copy_reallocating _ _ _ _ _ Hv Ho Ha Hlt Hfit) as HA.
        cbv zeta in HA. destruct (mapM copy_ctor ys) as [zs|] eqn:Hzs.
        -- destruct HA as (h' & HA & Hnew & Ho' & _). rewrite HA in HOk.
           injection HOk as <-. apply mapM_copy_value in Hzs as ->. by split_and!.
        -- by rewrite HA in HOk.
      * exfalso. revert HOk. unfold assign_copy. vsimpl. unfold RawMemory.Capacity.
        destruct (N.ltb_spec (RawMemory.capacity_ (data_ v)) (size_ o)); [|lia]. vsimpl.
        assert (Hcc : ctor_copy o h = Throw bad_alloc h).
        { unfold ctor_copy. by rewrite bind_eq, Hbad. }
        by rewrite (on_heap_Throw _ _ _ _ _ Hcc).
  - destruct v as [[bv cv] sv]. cbn [data_ size_ RawMemory.capacity_] in *.
    destruct (N.ltb_spec (size_ o) sv) as [Hlt|Hge'].
    + (* the tail is destroyed, then the elements are assigned *)
      destruct (assign_copy_shrinking _ _ _ _ _ _ _ Hv Ho Ha Hlt) as (b & -> & HA).
      set (r := copy_assign_list (take (length ys) xs) ys) in *.
      assert (Hlen : length (take (length ys) xs) = length ys)
        by (rewrite length_take; lia).
      split.
      * intros _ Hc _. rewrite HA. subst r. by rewrite copy_assign_list_total.
      * intros s' HOk. rewrite HA in HOk.
        destruct r.2 eqn:Hok; [|done]. injection HOk as <-.
        assert (Hr : r.1 = ys) by (subst r; by apply copy_assign_list_value).
        rewrite Hr. cbn [this mem data_ RawMemory.capacity_]. split_and!; [| |done].
        -- destruct Hv as (_ & _ & Hcap & _). split_and!; cbn; [done|lia|done|].
           split; [done|]. apply lookup_insert_eq.
        -- eapply holds_frame; [exact Ho|]. intros c j E.
           apply update_block_lookup_ne. intros <-. unfold apart in Ha. cbn in Ha.
           by rewrite E in Ha.
    + (* the elements are assigned, then the further ones are copied *)
      pose proof (assign_copy_growing _ _ _ _ _ _ _ Hv Ho Ha Hge' Hge) as HA.
      cbv zeta in HA. destruct HA as (h1 & _ & _ & _ & HA).
      set (r := copy_assign_list xs (take (length xs) ys)) in *.
      assert (Hlen : length xs = length (take (length xs) ys))
        by (rewrite length_take; lia).
      split.
      * intros Hc Hc' _. subst r. rewrite copy_assign_list_total in HA by done.
        destruct (mapM_total copy_ctor (drop (length xs) ys) Hc) as [zs Hzs].
        rewrite Hzs in HA. destruct HA as (h2 & -> & _). exact I.
      * intros s' HOk. destruct r.2 eqn:Hok; [|by rewrite HA in HOk].
        destruct (mapM copy_ctor (drop (length xs) ys)) as [zs|] eqn:Hzs;
          [|by rewrite HA in HOk].
        destruct HA as (h2 & HA & Hnew & Ho' & _). rewrite HA in HOk.
        injection HOk as <-.
        assert (Hr : r.1 = take (length xs) ys) by (subst r; by apply copy_assign_list_value).
        apply mapM_copy_value in Hzs as ->. rewrite Hr, take_drop in Hnew.
        by split_and!.
Qed.

End copy_assignment_values.

End copy_assignment.

(** *** Allocation, iterators and the relocation by copy *)

Section more.
Context {T : Type} `{Element T} `{!ElementLaws T}.
Implicit Types (h : heap T) (xs ys : list T) (s : state T).

(** X17. [RawMemory(capacity)]: for capacity 0 nothing is allocated and
    the region is null.  Otherwise [Allocate] requests [capacity *
    sizeof(T)] bytes computed in [size_t], without a check for overflow:
    the request is the product modulo [2^64]; when the store serves it the
    object records [capacity], and if the product does not fit [size_t]
    the region obtained has room for fewer elements than that. *)
Theorem RawMemory_ctor_spec (n : N) h :
  RawMemory.ctor 0 h = Ok RawMemory.default h
  ∧ (n ≠ 0 →
     let bytes := (n * sizeof) mod SIZE_MOD in
     let bn := fresh (dom (blocks h)) in
     (N.min (limit h) PTRDIFF_MAX < bytes → RawMemory.ctor n h = Throw bad_alloc h)
     ∧ (bytes ≤ N.min (limit h) PTRDIFF_MAX →
        RawMemory.ctor n h
        = Ok (RawMemory.Make (Addr bn 0) n)
             (Heap (<[bn := replicate (N.to_nat (bytes / sizeof)) None]> (blocks h))
                   (limit h) (trace h ++ [EvNew bytes (Addr bn 0)])))
     ∧ (n * sizeof < SIZE_MOD → bytes / sizeof = n)
     ∧ (SIZE_MOD ≤ n * sizeof → bytes / sizeof < n)).
Proof.
  split; [done|]. intros Hn bytes bn.
  pose proof (RawMemory_ctor_cases n h Hn) as Hc.
  change (size_mul n sizeof) with bytes in Hc. fold bn in Hc.
  pose proof sizeof_pos.
  split_and!.
  - intros Hlt. by destruct (N.ltb_spec (N.min (limit h) PTRDIFF_MAX) bytes); [|lia].
  - intros Hle. by destruct (N.ltb_spec (N.min (limit h) PTRDIFF_MAX) bytes); [lia|].
  - intros Hsmall. subst bytes. rewrite N.mod_small by done. apply N.div_mul. lia.
  - intros Hbig. apply N.Div0.div_lt_upper_bound.
    assert (bytes < SIZE_MOD) by (apply N.mod_lt; unfold SIZE_MOD; lia). lia.
Qed.

(** X18. [begin()] and [end()] (and [cbegin()], [cend()]) delimit the
    elements: they change nothing, [end() - begin()] is [size()],
    [begin() + i] is the address of the element of index [i] for every
    [i < size()], and no object of the vector lives at [end()]. *)
Theorem iterator_range s xs :
  holds s xs →
  let b := RawMemory.buffer_ (data_ (this s)) in
  let e := ptr_add b (size_ (this s)) in
  begin s = Ok b s ∧ end_ s = Ok e s
  ∧ cbegin s = Ok b s ∧ cend s = Ok e s
  ∧ Size s = Ok (N.of_nat (length xs)) s
  ∧ ptr_diff e b = Some (N.of_nat (length xs))
  ∧ (∀ (i : nat) x, xs !! i = Some x → slot (mem s) (ptr_add b (N.of_nat i)) = Some (Some x))
  ∧ ∀ x, slot (mem s) e ≠ Some (Some x).
Proof.
  intros Hh b e. subst b e. destruct s as [[[buf cap] size] h].
  cbn [this mem data_ size_ RawMemory.buffer_].
  assert (Hs : size = N.of_nat (length xs)) by apply Hh.
  split_and!; try done.
  - unfold Size. vsimpl. by rewrite Hs.
  - rewrite Hs. by apply (ptr_diff_begin _ _ _ _ _ _ Hh).
  - intros i x Hx. by apply (holds_slot _ _ _ _ Hh Hx).
  - intros x. destruct buf as [|b i]; [done|].
    destruct Hh as (_ & Hle & _ & -> & Eb). cbn in Hle, Eb.
    rewrite ptr_add_0. cbn. rewrite Eb. cbn. unfold slots_of. rewrite Hs, Nat2N.id.
    rewrite lookup_app_r by (by rewrite length_fmap).
    rewrite length_fmap, Nat.sub_diag.
    destruct (N.to_nat cap - length xs)%nat; by cbn.
Qed.

(** X19. The strong guarantee of the relocation by copy, where the code
    gives it.  For a type that is relocated by copy, when the copy of an
    element throws: [Reserve], [EmplaceBack] on a full vector, and
    [Emplace] on a full vector at a position that is not after that
    element propagate the exception and leave the vector with the elements
    it had; what was constructed in the new region has been destroyed and
    the region released. *)
Theorem copy_failure_strong_guarantee s xs (i : nat) z :
  holds s xs →
  is_nothrow_move_constructible || negb is_copy_constructible = false →
  xs !! i = Some z →
  copy_ctor z = None →
  let unchanged (o : outcome (state T) ptr) :=
    ∃ h', o = Throw element_exception (State (this s) h')
          ∧ holds (State (this s) h') xs
          ∧ blocks h' = blocks (mem s) in
  (∀ n, RawMemory.capacity_ (data_ (this s)) < n → fits n (mem s) →
     ∃ h', Reserve n s = Throw element_exception (State (this s) h')
           ∧ holds (State (this s) h') xs
           ∧ blocks h' = blocks (mem s))
  ∧ (size_ (this s) = RawMemory.capacity_ (data_ (this s)) →
     fits (grown (size_ (this s))) (mem s) →
     ∀ a y, construct a (mem s) = Ok y (mem s) →
       unchanged (EmplaceBack a s)
       ∧ ∀ p : nat,
           (p ≤ i)%nat →
           (∀ j x, (j < p)%nat → xs !! j = Some x → is_Some (copy_ctor x)) →
           unchanged (Emplace (ptr_add (RawMemory.buffer_ (data_ (this s))) (N.of_nat p)) a s)).
Proof.
  intros Hh Hcopy Hz Hthrow unchanged. subst unchanged. cbv beta.
  assert (Hrel : ∀ l (k : nat), l !! k = Some z → relocate l = None).
  { intros l k Hl. unfold relocate. rewrite Hcopy. by eapply mapM_lookup_None. }
  split.
  - intros n Hlt Hfit.
    destruct (Reserve_copy_failure n s xs Hh Hlt Hfit Hcopy (Hrel _ _ Hz))
      as (h' & bn & HR & Hh' & Hb & _).
    by exists h'.
  - intros Hfull Hfit a y Ec.
    assert (Hh1 : holds (State (this s) (mem s)) xs) by (by apply holds_State).
    split.
    + destruct (EmplaceBack_copy_failure a s xs y _ xs Hh Hfull Hfit Hcopy Ec Hh1
                  (Hrel _ _ Hz)) as (h' & bn & HE & Hh' & Hb & _).
      by exists h'.
    + intros p Hp Hpre.
      apply lookup_lt_Some in Hz as Hi.
      assert (Hpl : (p ≤ length xs)%nat) by lia.
      assert (Hsome : is_Some (relocate (take p xs))).
      { unfold relocate. rewrite Hcopy. apply mapM_is_Some, Forall_lookup.
        intros j x Hj. apply lookup_take_Some in Hj as [Hj Hlt]. by eapply Hpre. }
      assert (Hnone : relocate (drop p xs) = None).
      { apply (Hrel _ (i - p)%nat). rewrite lookup_drop. by replace (p + (i - p))%nat with i by lia. }
      destruct (Emplace_suffix_copy_failure a s xs p y _ xs Hh Hfull Hfit Hcopy Ec Hh1
                  Hpl Hsome Hnone) as (h' & bn & HE & Hh' & Hb & _).
      by exists h'.
Qed.

End more.

(** *** Relocation by a non-throwing move, and the allocation calls *)

Section relocation.
Context {T : Type} `{Element T} `{!ElementLaws T}.
Implicit Types (h : heap T) (xs ys : list T) (s : state T).

Lemma relocate_nothrow xs :
  is_nothrow_move_constructible = true → is_Some (relocate xs).
Proof.
  intros Hn. unfold relocate. rewrite Hn. cbn.
  destruct (mapM_total move_ctor xs (nothrow_move_ctor Hn)) as [yrs ->]. by eexists.
Qed.

(** X20. For an element type whose move constructor is [noexcept] the
    relocation cannot fail: [Reserve] above the capacity returns whenever
    the store serves the request, and on a full vector [EmplaceBack] and
    [Emplace] return whenever the store serves the request and the
    constructor of the new element returns. *)
Theorem nothrow_move_relocation s xs :
  holds s xs →
  is_nothrow_move_constructible = true →
  (∀ n, RawMemory.capacity_ (data_ (this s)) < n → fits n (mem s) →
        is_Ok (Reserve n s))
  ∧ (size_ (this s) = RawMemory.capacity_ (data_ (this s)) →
     fits (grown (size_ (this s))) (mem s) →
     ∀ a, is_Ok (construct a (mem s)) →
       is_Ok (EmplaceBack a s)
       ∧ ∀ p : nat, (p ≤ length xs)%nat →
           is_Ok (Emplace (ptr_add (RawMemory.buffer_ (data_ (this s))) (N.of_nat p)) a s)).
Proof.
  intros Hh Hn. split.
  - intros n Hlt Hfit. apply (Reserve_returns n s xs); [done..|]. by apply relocate_nothrow.
  - intros Hfull Hfit a Hc. split.
    + apply (EmplaceBack_returns a s xs); [done..|]. intros _. split; [done|].
      intros xs1. by apply relocate_nothrow.
    + intros p Hp. destruct s as [[[buf cap] size] h].
      cbn [this mem data_ size_ RawMemory.capacity_ RawMemory.buffer_] in *. subst cap.
      destruct (construct a h) as [y h1|e h1|] eqn:Ec; [|done..].
      destruct (construct_holds _ _ _ _ _ _ Hh Ec) as [(xs1 & Hh1 & Hlen) _].
      rewrite <- Hlen in Hp.
      pose proof (Emplace_realloc _ _ _ _ _ _ _ p Hfit Ec Hh1 Hp) as Hr. cbv zeta in Hr.
      destruct (relocate_nothrow (take p xs1) Hn) as [ys1 Hr1].
      destruct (relocate_nothrow (drop p xs1) Hn) as [ys2 Hr2].
      rewrite Hr1, Hr2 in Hr. destruct Hr as (h' & -> & _). exact I.
Qed.

(** X21. A [Reserve] that reallocates obtains one fresh region and
    releases the old one exactly once, after every object in it has been
    destroyed: the only calls of the allocation functions are that
    [operator new] and that [operator delete], in this order, and the
    vector ends up in the new region. *)
Theorem Reserve_allocation_trace n s xs s' :
  holds s xs →
  RawMemory.capacity_ (data_ (this s)) < n →
  fits n (mem s) →
  Reserve n s = Ok tt s' →
  ∃ bn,
    blocks (mem s) !! bn = None
    ∧ RawMemory.buffer_ (data_ (this s')) = Addr bn 0
    ∧ trace (mem s')
      = trace (mem s) ++ [EvNew (n * sizeof) (Addr bn 0);
                          EvDelete (RawMemory.buffer_ (data_ (this s))) 0]
    ∧ match RawMemory.buffer_ (data_ (this s)) with
      | Addr b _ => blocks (mem s') !! b = None
      | nullptr => True
      end.
Proof.
  destruct s as [[[buf cap] size] h]. cbn [this mem data_ RawMemory.capacity_ RawMemory.buffer_].
  intros Hh Hlt Hfit HOk.
  destruct (Reserve_grow_inv _ _ _ _ _ Hh Hlt HOk) as (ys & Hr & _).
  destruct (holds_allocated _ _ _ n Hh) as [HhA Hne]. cbn in Hne.
  assert (Hsz : size = N.of_nat (length xs)) by apply Hh.
  assert (Hle : size ≤ cap) by apply Hh.
  set (bn := fresh (dom (blocks h))) in *.
  assert (EA : blocks (allocated n h) !! bn
               = Some (replicate (length xs) None
                       ++ replicate (N.to_nat n - length xs) None)).
  { unfold allocated. cbn. fold bn. rewrite lookup_insert_eq, <- replicate_add.
    do 2 f_equal. lia. }
  revert HOk. unfold Reserve. vsimpl. destruct (N.leb_spec n cap); [lia|]. vsimpl.
  assert (Hn0 : n ≠ 0) by lia.
  rewrite (on_heap_Ok _ _ _ _ _ (RawMemory_ctor_fits _ _ Hn0 Hfit)).
  unfold scoped. vsimpl. fold bn.
  rewrite (TransferAndSwap_Ok _ _ _ _ _ _ n _ _ HhA Hne EA Hr). vsimpl.
  unfold RawMemory.dtor, RawMemory.Deallocate. cbn [RawMemory.buffer_].
  rewrite (on_heap_Ok _ _ _ _ _ (operator_delete_old _ _ _ _ _ _ _ HhA Hne)).
  vsimpl. intros [= <-]. cbn [this mem data_ RawMemory.buffer_].
  exists bn. split_and!; [apply fresh_block|done| |].
  - unfold released. destruct buf; cbn; by rewrite <- app_assoc.
  - destruct buf as [|b i]; [done|]. cbn. apply lookup_delete_eq.
Qed.

End relocation.

(** ** The further properties on concrete vectors *)

#[global] Instance int_regular_values : @RegularValues Z int_regular.
Proof. split. cbn. congruence. Qed.

#[global] Instance fragile_regular_values : @RegularValues Z fragile_regular.
Proof. split. cbn. intros d x y. destruct (x <? 0)%Z; congruence. Qed.

Lemma tight_ints_holds : holds (H:=int_element) tight_ints [1; 2]%Z.
Proof. by split_and!; vm_compute. Qed.

Lemma first_vector_holds `{Element Z} `{!ElementLaws Z} a b c :
  sizeof ≤ 1000 →
  holds (State first_vector (two_vectors a b c)) [a; b].
Proof.
  intros Hs. split_and!; cbn; [done|done| |by split].
  unfold PTRDIFF_MAX. lia.
Qed.

Lemma second_vector_holds `{Element Z} `{!ElementLaws Z} a b c :
  sizeof ≤ 1000 →
  holds (State second_vector (two_vectors a b c)) [c].
Proof.
  intros Hs. split_and!; cbn; [done|done| |by split].
  unfold PTRDIFF_MAX. lia.
Qed.

Lemma first_second_apart : apart first_vector second_vector.
Proof. by cbn. Qed.

Lemma bad_alloc_changes_nothing_witness :
  Reserve (H:=int_element) 3 tight_ints = Throw bad_alloc tight_ints
  ∧ EmplaceBack (H:=int_element) (copy_of (outside 7%Z)) tight_ints
    = Throw bad_alloc tight_ints.
Proof.
  destruct (@bad_alloc_changes_nothing Z int_element int_laws tight_ints [1; 2]%Z
              tight_ints_holds) as [H1 H2].
  split.
  - apply H1; by vm_compute.
  - apply H2; [done|by vm_compute].
Defined.

Lemma at_index_spec_witness :
  at_index 1 two_ints = Ok (Addr 0 1) two_ints
  ∧ slot (mem two_ints) (Addr 0 1) = Some (Some 2%Z)
  ∧ at_index 2 two_ints = Crash.
Proof.
  destruct (@at_index_spec Z int_element two_ints [1; 2]%Z 1%nat two_ints_holds)
    as [H1 _].
  destruct (@at_index_spec Z int_element two_ints [1; 2]%Z 2%nat two_ints_holds)
    as [_ H2].
  destruct (H1 2%Z eq_refl) as [Ha Hb]. split_and!; [exact Ha|exact Hb|].
  apply H2. cbn. lia.
Defined.

Lemma asserted_preconditions_witness :
  Erase (H:=int_element) (Addr 0 2) two_ints = Crash
  ∧ PopBack (start (T:=Z) 1000) = Crash.
Proof.
  destruct (@asserted_preconditions Z int_element two_ints [1; 2]%Z two_ints_holds)
    as [_ H2].
  destruct (@asserted_preconditions Z int_element (start 1000) []
              (start_holds (H:=int_element) 1000)) as [H1 _].
  split; [|by apply H1]. apply (H2 2%nat). cbn. lia.
Defined.

Lemma EmplaceBack_PopBack_witness :
  ∃ p s1 s2,
    EmplaceBack (H:=int_element) (copy_of (outside 7%Z)) two_ints = Ok p s1
    ∧ PopBack s1 = Ok tt s2
    ∧ holds (H:=int_element) s2 [1; 2]%Z
    ∧ size_ (this s2) = 2.
Proof.
  destruct (EmplaceBack (H:=int_element) (copy_of (outside 7%Z)) two_ints)
    as [p s1|e s1|] eqn:E; [|by vm_compute in E..].
  destruct (@EmplaceBack_PopBack Z int_element int_laws int_values
              (copy_of (outside 7%Z)) two_ints [1; 2]%Z p s1
              two_ints_holds ltac:(done) E) as (s2 & HP & Hh & Hs & _).
  by exists p, s1, s2.
Defined.

Lemma Insert_Erase_witness :
  ∃ r s1 s2,
    Insert (H:=int_element) (Addr 0 1) (outside 7%Z) two_ints = Ok r s1
    ∧ Erase (H:=int_element) r s1 = Ok r s2
    ∧ holds (H:=int_element) s2 [1; 2]%Z.
Proof.
  destruct (Insert (H:=int_element) (Addr 0 1) (outside 7%Z) two_ints)
    as [r s1|e s1|] eqn:E; [|by vm_compute in E..].
  destruct (@Insert_Erase Z int_element int_laws int_values 1%nat _ two_ints [1; 2]%Z
              r s1 two_ints_holds ltac:(cbn; lia) E) as [H1 H2].
  destruct (Erase (H:=int_element) r s1) as [r' s2|e s2|] eqn:E2.
  - destruct (H2 r' s2 eq_refl) as (-> & Hh & _). by exists r, s1, s2.
  - exfalso. apply H1. intros d x. by eexists.
  - exfalso. apply H1. intros d x. by eexists.
Defined.

Lemma no_reallocation_witness :
  ∃ p s',
    EmplaceBack (H:=int_element) (copy_of (outside 9%Z))
      (State second_vector (two_vectors 1 2 3)) = Ok p s'
    ∧ data_ (this s') = data_ second_vector
    ∧ trace (mem s') = [].
Proof.
  destruct (EmplaceBack (H:=int_element) (copy_of (outside 9%Z))
              (State second_vector (two_vectors 1 2 3))) as [p s'|e s'|] eqn:E;
    [|by vm_compute in E..].
  destruct (@no_reallocation Z int_element int_laws _ [3%Z]
              (second_vector_holds (H:=int_element) 1%Z 2%Z 3%Z ltac:(by vm_compute)))
    as (H1 & _).
  destruct (H1 ltac:(by vm_compute)) as [H2 _].
  destruct (H2 _ _ _ E) as [Hd Ht]. by exists p, s'.
Defined.

Lemma constructor_failure_changes_nothing_witness :
  ∃ h',
    EmplaceBack (H:=fragile_element) (copy_of (outside (-5)%Z)) fragile_head
    = Throw element_exception (State (this fragile_head) h')
    ∧ holds (H:=fragile_element) (State (this fragile_head) h') [-1; 2]%Z
    ∧ blocks h' = blocks (mem fragile_head).
Proof.
  destruct (@constructor_failure_changes_nothing Z fragile_element fragile_laws
              (copy_of (outside (-5)%Z)) fragile_head [-1; 2]%Z element_exception
              (mem fragile_head) fragile_head_holds eq_refl ltac:(by vm_compute))
    as [(h' & HE & Hh & Hb & _) _].
  by exists h'.
Defined.

Lemma dtor_spec_witness :
  ∃ h',
    dtor (this two_ints) (mem two_ints) = Ok tt h'
    ∧ blocks h' = ∅
    ∧ trace h' = trace (mem two_ints) ++ [EvDelete (Addr 0 0) 0].
Proof.
  destruct (@dtor_spec Z int_element _ _ _ two_ints_holds) as (h' & Hd & Hb & Ht & _).
  exists h'. split_and!; [exact Hd| |exact Ht].
  rewrite Hb. by vm_compute.
Defined.

Lemma ctor_move_spec_witness :
  ∃ h',
    ctor_move (this two_ints) (mem two_ints)
    = Ok (this two_ints, default) h'
    ∧ holds (H:=int_element) (State (this two_ints) h') [1; 2]%Z
    ∧ blocks h' = blocks (mem two_ints).
Proof.
  destruct (@ctor_move_spec Z int_element _ _ _ two_ints_holds)
    as (h' & Hc & Hh & _ & Hb & _).
  by exists h'.
Defined.

Lemma assign_move_spec_witness :
  ∃ h',
    assign_move (T:=Z) (another second_vector)
      (State first_vector (two_vectors 1 2 3))
    = Ok (another default) (State second_vector h')
    ∧ holds (H:=int_element) (State second_vector h') [3%Z]
    ∧ trace h' = [EvDelete (Addr 0 0) 2].
Proof.
  destruct (@assign_move_spec Z int_element first_vector second_vector
              (two_vectors 1 2 3) [1; 2]%Z [3%Z]
              (first_vector_holds (H:=int_element) 1%Z 2%Z 3%Z ltac:(by vm_compute))
              (second_vector_holds (H:=int_element) 1%Z 2%Z 3%Z ltac:(by vm_compute))
              first_second_apart) as (H1 & H2 & _).
  eexists. split_and!; [exact H1|exact H2|done].
Defined.

Lemma ctor_size_spec_witness :
  ∃ h',
    ctor_size (H:=int_element) (H0:=int_regular) 3 (empty_heap 1000)
    = Ok (Make (RawMemory.Make (Addr 0 0) 3) 3) h'
    ∧ holds (H:=int_element) (State (Make (RawMemory.Make (Addr 0 0) 3) 3) h') [0; 0; 0]%Z.
Proof.
  destruct (@ctor_size_spec Z int_element int_laws int_regular 3 (empty_heap 1000))
    as (_ & H2 & _).
  destruct (H2 ltac:(done) ltac:(by vm_compute)) as (h' & Hc & Hh & _).
  by exists h'.
Defined.

Lemma ctor_copy_spec_witness :
  ∃ h',
    ctor_copy (H:=int_element) (this two_ints) (mem two_ints)
    = Ok (Make (RawMemory.Make (Addr 1 0) 2) 2) h'
    ∧ holds (H:=int_element) (State (Make (RawMemory.Make (Addr 1 0) 2) 2) h') [1; 2]%Z
    ∧ holds (H:=int_element) (State (this two_ints) h') [1; 2]%Z.
Proof.
  destruct (@ctor_copy_spec Z int_element int_laws _ _ _ two_ints_holds) as (_ & H2 & _).
  destruct (H2 ltac:(done) (two_ints_fits 2 eq_refl)) as (h' & Hc & Hh & _ & Hf).
  exists h'. split_and!; [exact Hc|exact Hh|]. apply Hf, two_ints_holds.
Defined.

Lemma Resize_shrink_witness :
  ∃ s',
    Resize (H:=int_element) (H0:=int_regular) 1 two_ints = Ok tt s'
    ∧ holds (H:=int_element) s' [1%Z]
    ∧ data_ (this s') = data_ (this two_ints).
Proof.
  destruct (@Resize_shrink Z int_element int_laws int_regular 1 two_ints [1; 2]%Z
              two_ints_holds) as [H1 _].
  destruct (H1 ltac:(done)) as (s' & HR & Hh & _ & Hd & _).
  by exists s'.
Defined.

Lemma Resize_grow_witness :
  ∃ s',
    Resize (H:=int_element) (H0:=int_regular) 4 two_ints = Ok tt s'
    ∧ holds (H:=int_element) s' [1; 2; 0; 0]%Z
    ∧ RawMemory.capacity_ (data_ (this s')) = 4.
Proof.
  destruct (@Resize_grow Z int_element int_laws int_regular int_values 4 two_ints
              [1; 2]%Z two_ints_holds ltac:(done)) as (s' & HR & Hh & _ & Hc).
  { intros _. split; [exact (two_ints_fits 4 eq_refl)|by eexists]. }
  by exists s'.
Defined.

Lemma assign_copy_spec_witness :
  is_Ok (assign_copy (H:=int_element) (H0:=int_regular) (another first_vector)
           (State second_vector (two_vectors 1 2 3)))
  ∧ ∀ s',
      assign_copy (H:=int_element) (H0:=int_regular) (another first_vector)
        (State second_vector (two_vectors 1 2 3)) = Ok tt s' →
      holds (H:=int_element) s' [1; 2]%Z
      ∧ holds (H:=int_element) (State first_vector (mem s')) [1; 2]%Z
      ∧ RawMemory.capacity_ (data_ (this s')) = 4.
Proof.
  destruct (@assign_copy_spec Z int_element int_laws int_regular int_values
              int_regular_values second_vector first_vector (two_vectors 1 2 3)
              [3%Z] [1; 2]%Z
              (second_vector_holds (H:=int_element) 1%Z 2%Z 3%Z ltac:(by vm_compute))
              (first_vector_holds (H:=int_element) 1%Z 2%Z 3%Z ltac:(by vm_compute))
              ltac:(by cbn)) as (_ & H2 & H3).
  split; [|exact H3].
  apply H2; [intros x; by eexists|intros d x; by eexists|by vm_compute].
Defined.

Lemma assign_copy_exception_safety_witness :
  ∃ s',
    assign_copy (H:=fragile_element) (H0:=fragile_regular) (another second_vector)
      (State first_vector (two_vectors 1 2 (-3))) = Throw element_exception s'
    ∧ this s' = first_vector
    ∧ elements s' = None
    ∧ dtor first_vector (mem s') = Crash.
Proof.
  destruct (assign_copy (H:=fragile_element) (H0:=fragile_regular) (another second_vector)
              (State first_vector (two_vectors 1 2 (-3)))) as [u s'|e s'|] eqn:E;
    [by vm_compute in E| |by vm_compute in E].
  destruct (@assign_copy_exception_safety Z fragile_element fragile_laws fragile_regular
              first_vector second_vector (two_vectors 1 2 (-3)) [1; 2]%Z [(-3)%Z] e s'
              (first_vector_holds (H:=fragile_element) 1%Z 2%Z (-3)%Z ltac:(by vm_compute))
              (second_vector_holds (H:=fragile_element) 1%Z 2%Z (-3)%Z ltac:(by vm_compute))
              first_second_apart E) as (Ht & Hel & Hd).
  exists s'. split_and!; [|done..].
  f_equal. vm_compute in E. by injection E as <- _.
Defined.

Lemma RawMemory_ctor_spec_witness :
  ∃ h',
    RawMemory.ctor (H:=int_element) (2 ^ 62) (empty_heap 1000)
    = Ok (RawMemory.Make (Addr 0 0) (2 ^ 62)) h'
    ∧ blocks h' !! 0%nat = Some [].
Proof.
  destruct (@RawMemory_ctor_spec Z int_element int_laws (2 ^ 62) (empty_heap 1000))
    as (_ & H2).
  destruct (H2 ltac:(done)) as (_ & H3 & _).
  eexists. split; [apply H3; by vm_compute|by vm_compute].
Defined.

Lemma iterator_range_witness :
  begin two_ints = Ok (Addr 0 0) two_ints
  ∧ end_ two_ints = Ok (Addr 0 2) two_ints
  ∧ ptr_diff (Addr 0 2) (Addr 0 0) = Some 2.
Proof.
  destruct (@iterator_range Z int_element int_laws two_ints [1; 2]%Z two_ints_holds)
    as (H1 & H2 & _ & _ & _ & H3 & _).
  by split_and!.
Defined.

Lemma copy_failure_strong_guarantee_witness :
  ∃ h',
    Reserve (H:=fragile_element) 5 fragile_tail
    = Throw element_exception (State (this fragile_tail) h')
    ∧ holds (H:=fragile_element) (State (this fragile_tail) h') [1; -2]%Z
    ∧ blocks h' = blocks (mem fragile_tail).
Proof.
  destruct (@copy_failure_strong_guarantee Z fragile_element fragile_laws fragile_tail
              [1; -2]%Z 1%nat (-2)%Z fragile_tail_holds eq_refl eq_refl eq_refl)
    as [H1 _].
  apply H1; by vm_compute.
Defined.

Lemma nothrow_move_relocation_witness :
  is_Ok (Reserve (H:=int_element) 5 two_ints)
  ∧ is_Ok (EmplaceBack (H:=int_element) (copy_of (inside (Addr 0 1))) two_ints).
Proof.
  destruct (@nothrow_move_relocation Z int_element int_laws two_ints [1; 2]%Z
              two_ints_holds eq_refl) as [H1 H2].
  split.
  - apply H1; [done|exact (two_ints_fits 5 eq_refl)].
  - exact (proj1 (H2 eq_refl (two_ints_fits 4 eq_refl)
                    (copy_of (inside (Addr 0 1))) I)).
Defined.

Lemma Reserve_allocation_trace_witness :
  ∃ s' bn,
    Reserve (H:=int_element) 5 two_ints = Ok tt s'
    ∧ blocks (mem two_ints) !! bn = None
    ∧ RawMemory.buffer_ (data_ (this s')) = Addr bn 0
    ∧ trace (mem s')
      = trace (mem two_ints) ++ [EvNew 20 (Addr bn 0); EvDelete (Addr 0 0) 0].
Proof.
  destruct (Reserve (H:=int_element) 5 two_ints) as [[] s'|e s'|] eqn:E;
    [|by vm_compute in E..].
  destruct (@Reserve_allocation_trace Z int_element int_laws 5 two_ints [1; 2]%Z s'
              two_ints_holds eq_refl (two_ints_fits 5 eq_refl) E)
    as (bn & Hf & Hb & Ht & _).
  exists s', bn. split_and!; [reflexivity|exact Hf|exact Hb|exact Ht].
Defined.
